(** * array2df: melting an N-dimensional array into a long-format table

    A shallow embedding of [array2df] and [_check_dict] from
    [mypy/utils.py], with the statements the specification makes about
    them.

    Python values are modelled by small inductive types, exceptions by a
    [result] monad, dictionaries by insertion-ordered association lists
    (iteration order is observable in [_check_dict]), and the pandas
    DataFrame by a list of column labels plus a list of rows.

    The second half of the file does the same for the other array helpers
    of [mypy/utils.py]: [find_index], [find_range], [extend_slice], [group]
    and [subselect_keys], and for the context managers [silent_mne] and
    [silent]. *)

From Stdlib Require Import Ascii DecimalString.
From stdpp Require Import base decidable option list strings numbers gmap.

Open Scope string_scope.
Open Scope list_scope.
Open Scope nat_scope.

Set Warnings "-clear-no-such-hyp".

(** ** Exceptions and the error monad *)

Inductive exn :=
| AssertionError | KeyError | IndexError | TypeError | AttributeError.

Inductive result (A : Type) :=
| Ok (a : A)
| Err (e : exn).
Arguments Ok {A} a.
Arguments Err {A} e.

Definition bind {A B} (m : result A) (f : A → result B) : result B :=
  match m with Ok a => f a | Err e => Err e end.

Notation "x <- m ;; k" := (bind m (fun x => k))
  (at level 100, m at next level, right associativity, only parsing).

Definition is_Err {A} (m : result A) : Prop := ∃ e, m = Err e.

(** A comprehension or [for] loop whose body may raise: left to right, the
    first exception aborts. *)
Fixpoint mapR {A B} (f : A → result B) (l : list A) : result (list B) :=
  match l with
  | [] => Ok []
  | x :: l' => y <- f x ;; ys <- mapR f l' ;; Ok (y :: ys)
  end.

Fixpoint foldR {A S} (f : S → A → result S) (s : S) (l : list A) : result S :=
  match l with
  | [] => Ok s
  | x :: l' => s' <- f s x ;; foldR f s' l'
  end.

Definition enumerate {A} (l : list A) : list (nat * A) := zip (seq 0 (length l)) l.

Definition assert (b : bool) : result unit :=
  if b then Ok tt else Err AssertionError.

(** ** Python values *)

(** Hashable values, usable as dictionary keys: integers, strings, and tuples
    of integers. *)
Inductive key :=
| KInt (z : Z)
| KStr (s : string)
| KTuple (t : list Z).

Global Instance key_eq_dec : EqDecision key.
Proof. solve_decision. Defined.

(** Dictionary values: a hashable value (a label), or a list of hashable
    values (a collection of positions). *)
Inductive value :=
| VKey (k : key)
| VList (l : list key).

Global Instance value_eq_dec : EqDecision value.
Proof. solve_decision. Defined.

Definition isinstance_str (k : key) : bool :=
  match k with KStr _ => true | _ => false end.
Definition isinstance_tuple (k : key) : bool :=
  match k with KTuple _ => true | _ => false end.

(** [str(i)] for a non-negative integer. *)
Definition str (n : nat) : string := NilZero.string_of_uint (Nat.to_uint n).

(** The characters of a string as one-character strings: [list(s)] and
    [for c in s]. *)
Fixpoint chars (s : string) : list string :=
  match s with
  | EmptyString => []
  | String c s' => String c EmptyString :: chars s'
  end.

(** [for x in v]: integers are not iterable. *)
Definition iter_key (k : key) : result (list key) :=
  match k with
  | KInt _ => Err TypeError
  | KStr s => Ok (KStr <$> chars s)
  | KTuple t => Ok (KInt <$> t)
  end.

Definition iter_value (v : value) : result (list key) :=
  match v with
  | VKey k => iter_key k
  | VList l => Ok l
  end.

(** ** Dictionaries and sets *)

(** A [dict], in insertion order. *)
Abbreviation pydict V := (list (key * V)).

Fixpoint dict_get {V} (d : pydict V) (k : key) : option V :=
  match d with
  | [] => None
  | (k', v) :: d' => if decide (k' = k) then Some v else dict_get d' k
  end.

(** [d[k] = v]: an existing key keeps its place. *)
Fixpoint dict_set {V} (d : pydict V) (k : key) (v : V) : pydict V :=
  match d with
  | [] => [(k, v)]
  | (k', v') :: d' =>
      if decide (k' = k) then (k', v) :: d' else (k', v') :: dict_set d' k v
  end.

Definition dict_keys {V} (d : pydict V) : list key := fst <$> d.

(** [d[k]] *)
Definition dict_getitem {V} (d : pydict V) (k : key) : result V :=
  match dict_get d k with Some v => Ok v | None => Err KeyError end.

(** Python's [d1 == d2] on dictionaries: the same keys with the same values,
    in any order. *)
Definition dict_same {V} (d1 d2 : pydict V) : Prop :=
  ∀ k, dict_get d1 k = dict_get d2 k.

(** A [set], as the list of its distinct members. *)
Abbreviation pyset := (list key).

Definition set_add (s : pyset) (k : key) : pyset :=
  if decide (k ∈ s) then s else s ++ [k].

(** [l[i]] on a list or tuple of length [n], with Python's negative
    indices. *)
Definition seq_getitem {A} (l : list A) (i : Z) : result A :=
  let n := Z.of_nat (length l) in
  let j := if decide (i < 0)%Z then (i + n)%Z else i in
  if decide (0 ≤ j < n)%Z
  then match l !! Z.to_nat j with Some x => Ok x | None => Err IndexError end
  else Err IndexError.

(** ** Group specifications *)

(** One dimension's group specification: a dictionary, or any other
    sequence of labels. *)
Inductive spec :=
| SDict (d : pydict value)
| SSeq (l : list value).

Global Instance spec_eq_dec : EqDecision spec.
Proof. solve_decision. Defined.

(** The inner loops of [_check_dict] for string keys ([new_dct[val] = k;
    vals_set.add(val)]) and for tuple keys ([new_dct[i] = val;
    i_set.add(i)]): both store a value under each member of a collection and
    record the member. *)
Definition store_all (acc : pydict value * pyset) (members : list key)
    (v : value) : pydict value * pyset :=
  foldl (fun '(new_dct, seen) m => (dict_set new_dct m v, set_add seen m))
        acc members.

Definition _check_dict (dct : spec) (dim_len : nat) : result spec :=
  match dct with
  | SDict d =>
      let str_keys := forallb isinstance_str (dict_keys d) in
      let tuple_keys := forallb isinstance_tuple (dict_keys d) in
      if str_keys then
        acc <- foldR (fun acc k =>
                        v <- dict_getitem d k ;;
                        vals <- iter_value v ;;
                        Ok (store_all acc vals (VKey k)))
                     ([], []) (dict_keys d) ;;
        let '(new_dct, vals_set) := acc in
        _ <- assert (bool_decide (length vals_set = dim_len)) ;;
        Ok (SDict new_dct)
      else if tuple_keys then
        acc <- foldR (fun acc '(k, val) =>
                        ks <- iter_key k ;;
                        Ok (store_all acc ks val))
                     ([], []) d ;;
        let '(new_dct, i_set) := acc in
        _ <- assert (bool_decide (length i_set = dim_len)) ;;
        Ok (SDict new_dct)
      else Ok (SDict d)
  | SSeq l =>
      _ <- assert (bool_decide (length l = dim_len)) ;;
      Ok (SSeq l)
  end.

(** [g[dim_adr]] on a normalized group. *)
Definition spec_getitem (g : spec) (i : nat) : result value :=
  match g with
  | SDict d => dict_getitem d (KInt (Z.of_nat i))
  | SSeq l => seq_getitem l (Z.of_nat i)
  end.

(** ** Arrays *)

(** A dense numpy array: its shape and its elements in C order. *)
Record ndarray := { shape : list nat; data : list Z }.

Definition ndim (arr : ndarray) : nat := length (shape arr).

Definition prod_shape (sh : list nat) : nat := foldr Nat.mul 1 sh.

(** [arr.size] *)
Definition size (arr : ndarray) : nat := prod_shape (shape arr).

(** The flat offset of a full multi-index; out-of-bounds coordinates and a
    wrong number of coordinates raise. *)
Fixpoint ravel_multi_index (sh adr : list nat) : result nat :=
  match sh, adr with
  | [], [] => Ok 0
  | n :: sh', i :: adr' =>
      if decide (i < n)
      then off <- ravel_multi_index sh' adr' ;; Ok (i * prod_shape sh' + off)
      else Err IndexError
  | _, _ => Err IndexError
  end.

(** [arr[adr]] for a tuple [adr] of [ndim] coordinates. *)
Definition getitem (arr : ndarray) (adr : list nat) : result Z :=
  off <- ravel_multi_index (shape arr) adr ;;
  match data arr !! off with Some x => Ok x | None => Err IndexError end.

(** The [k]-th multi-index of the index space in row-major order
    (numpy's [unravel_index]). *)
Fixpoint unravel_index (k : nat) (sh : list nat) : list nat :=
  match sh with
  | [] => []
  | _ :: sh' => k / prod_shape sh' :: unravel_index (k mod prod_shape sh') sh'
  end.

(** [range(n)] *)
Definition range (n : nat) : list nat := seq 0 n.

(** [itertools.product] of the pools: the rightmost pool advances fastest. *)
Fixpoint product (pools : list (list nat)) : list (list nat) :=
  match pools with
  | [] => [[]]
  | p :: ps => x ← p; (x ::.) <$> product ps
  end.

(** ** The DataFrame *)

Inductive cell :=
| NaN
| Num (x : Z)
| Obj (v : value).

Global Instance cell_eq_dec : EqDecision cell.
Proof. solve_decision. Defined.

(** Column labels (duplicates are allowed) and one list of cells per row;
    the row index is [0 .. len-1]. Column dtypes are not tracked. *)
Record DataFrame := { columns : list string; rows : list (list cell) }.

(** [pd.DataFrame(columns=cols, index=np.arange(n))]: all cells missing. *)
Definition DataFrame_new (cols : list string) (n : nat) : DataFrame :=
  {| columns := cols; rows := replicate n (replicate (length cols) NaN) |}.

(** Writing [v] under the label [name] in one row: every column carrying
    that label receives it. *)
Definition row_set (cols : list string) (name : string) (v : cell)
    (row : list cell) : list cell :=
  zip_with (fun c x => if decide (c = name) then v else x) cols row.

(** [df.loc[idx, name] = v], for [idx] in the index and [name] among the
    columns (the only way [array2df] uses it). *)
Definition loc_set (df : DataFrame) (idx : nat) (name : string) (v : cell)
    : DataFrame :=
  {| columns := columns df;
     rows := alter (row_set (columns df) name v) idx (rows df) |}.

(** The two dtype-inference entry points of pandas. Which of them exists
    depends on the pandas version; a missing one raises. *)
Record pandas := {
  infer_objects : DataFrame → result DataFrame;
  convert_objects : DataFrame → result DataFrame
}.

(** ** [array2df] *)

Inductive names :=
| NNone
| NList (l : list string)
| NDict (d : pydict string).

(** The [groups] argument: [None], a dict from dimension to specification, a
    list of specifications, or some other sequence of them (a tuple), which
    the code leaves as it is. *)
Inductive groups :=
| GNone
| GDict (d : pydict spec)
| GList (l : list spec)
| GTuple (l : list spec).

(** [dim_names[i]] *)
Definition names_getitem (dn : names) (i : nat) : result string :=
  match dn with
  | NNone => Err TypeError
  | NList l => seq_getitem l (Z.of_nat i)
  | NDict d => dict_getitem d (KInt (Z.of_nat i))
  end.

(** [groups[dim_idx]] *)
Definition groups_getitem (gs : groups) (i : nat) : result spec :=
  match gs with
  | GNone => Err TypeError
  | GDict d => dict_getitem d (KInt (Z.of_nat i))
  | GList l | GTuple l => seq_getitem l (Z.of_nat i)
  end.

(** [shape[dim]] for an arbitrary dictionary key [dim]. *)
Definition shape_getitem (sh : list nat) (dim : key) : result nat :=
  match dim with
  | KInt z => seq_getitem sh z
  | _ => Err TypeError
  end.

Definition dim_letters (n_dim : nat) : list string :=
  take n_dim (chars "ijklmnop").

Definition default_dim_names_dict (n_dim : nat) : pydict string :=
  (fun '(dim, l) => (KInt (Z.of_nat dim), "dim_" +:+ l))
    <$> enumerate (dim_letters n_dim).

Definition default_dim_names (n_dim : nat) : names :=
  NDict (default_dim_names_dict n_dim).

Definition default_groups (sh : list nat) : result groups :=
  let n_dim := length sh in
  d <- mapR (fun dim =>
               n <- seq_getitem sh (Z.of_nat dim) ;;
               g <- mapR (fun i =>
                            l <- seq_getitem (dim_letters n_dim) (Z.of_nat dim) ;;
                            Ok (KInt (Z.of_nat i), VKey (KStr (l +:+ str i))))
                         (range n) ;;
               Ok (KInt (Z.of_nat dim), SDict g))
            (range n_dim) ;;
  Ok (GDict d).

(** Lines 331-340: the defaults, or [_check_dict] on every entry. *)
Definition normalize_groups (sh : list nat) (gs : groups) : result groups :=
  match gs with
  | GNone => default_groups sh
  | GDict d =>
      d' <- mapR (fun dim =>
                    g <- dict_getitem d dim ;;
                    n <- shape_getitem sh dim ;;
                    g' <- _check_dict g n ;;
                    Ok (dim, g'))
                 (dict_keys d) ;;
      Ok (GDict d')
  | GList l =>
      l' <- mapR (fun dim =>
                    g <- seq_getitem l (Z.of_nat dim) ;;
                    n <- seq_getitem sh (Z.of_nat dim) ;;
                    _check_dict g n)
                 (range (length l)) ;;
      Ok (GList l')
  | GTuple l => Ok (GTuple l)
  end.

(** Lines 350-351: the dimension columns of row [idx]. *)
Definition fill_dims (dn : names) (gs : groups) (idx : nat)
    (df : DataFrame) (adr : list nat) : result DataFrame :=
  foldR (fun df '(dim_idx, dim_adr) =>
           g <- groups_getitem gs dim_idx ;;
           lab <- spec_getitem g dim_adr ;;
           name <- names_getitem dn dim_idx ;;
           Ok (loc_set df idx name (Obj lab)))
        df (enumerate adr).

(** Lines 347-351: one row per multi-index. *)
Definition fill_rows (arr : ndarray) (dn : names) (gs : groups)
    (value_name : string) (df : DataFrame) : result DataFrame :=
  foldR (fun df '(idx, adr) =>
           x <- getitem arr adr ;;
           fill_dims dn gs idx (loc_set df idx value_name (Num x)) adr)
        df (enumerate (product (range <$> shape arr))).

(** Lines 323-351: everything before dtype inference. *)
Definition array2df_rows (arr : ndarray) (dim_names : names) (gs : groups)
    (value_name : string) : result DataFrame :=
  let n_dim := ndim arr in
  let dim_names :=
    match dim_names with NNone => default_dim_names n_dim | _ => dim_names end in
  gs <- normalize_groups (shape arr) gs ;;
  dims <- mapR (names_getitem dim_names) (range n_dim) ;;
  let col_names := value_name :: dims in
  let df := DataFrame_new col_names (size arr) in
  fill_rows arr dim_names gs value_name df.

(** Lines 353-360: [infer_objects], and on any exception the older
    [convert_objects]. *)
Definition infer_dtypes (pd : pandas) (df : DataFrame) : result DataFrame :=
  match infer_objects pd df with
  | Ok df' => Ok df'
  | Err _ => convert_objects pd df
  end.

Definition array2df (pd : pandas) (arr : ndarray) (dim_names : names)
    (gs : groups) (value_name : string) : result DataFrame :=
  df <- array2df_rows arr dim_names gs value_name ;;
  infer_dtypes pd df.

(** pandas 0.21 and later, as far as the tracked contents go: inference
    keeps labels and cell values; [convert_objects] is gone since 1.0. *)
Definition pandas_modern : pandas :=
  {| infer_objects := Ok; convert_objects := fun _ => Err AttributeError |}.

(** The arguments of the docstring examples. *)
Definition arange (n : nat) : list Z := Z.of_nat <$> seq 0 n.

Definition arr_2x2 : ndarray := {| shape := [2; 2]; data := arange 4 |}.
Definition arr_4x3 : ndarray := {| shape := [4; 3]; data := arange 12 |}.

Definition ints (l : list Z) : value := VList (KInt <$> l).
Definition lbl (s : string) : value := VKey (KStr s).

Definition groups_4x3 : groups :=
  GList [ SDict [(KStr "A", ints [0; 2]); (KStr "B", ints [1; 3])]%Z;
          SDict [(KTuple [0; 2], lbl "abc"); (KTuple [1], lbl "d")]%Z ].

(** Dtype inference that cannot fail and changes nothing but the (untracked)
    column dtypes, and the weaker property that whatever it returns has the
    contents it was given. *)
Definition dtypes_only (pd : pandas) : Prop :=
  ∀ df, infer_dtypes pd df = Ok df.

Definition keeps_contents (pd : pandas) : Prop :=
  ∀ df df', infer_dtypes pd df = Ok df' → df' = df.

(** ** The three encodings of a group specification *)

(** Label to the collection of its positions. *)
Definition label_keyed (lk : list (string * list Z)) : spec :=
  SDict ((fun '(s, ps) => (KStr s, ints ps)) <$> lk).

(** Tuple of positions to their common label. *)
Definition tuple_keyed (tk : list (list Z * value)) : spec :=
  SDict ((fun '(t, v) => (KTuple t, v)) <$> tk).

(** Position to label. *)
Definition position_keyed (pk : list (Z * value)) : spec :=
  SDict ((fun '(p, v) => (KInt p, v)) <$> pk).

(** The number of distinct members of a collection. *)
Definition distinct {A} `{EqDecision A} (l : list A) : nat :=
  length (remove_dups l).

(** The positions [0 .. n-1]. *)
Definition positions (n : nat) : list Z := Z.of_nat <$> seq 0 n.

(** [s] encodes the position-to-label mapping [f] over a dimension of length
    [n]: its keys are distinct, it mentions every position exactly once, and
    it gives position [p] the label [f p]. *)
Inductive encodes (f : nat → string) (n : nat) : spec → Prop :=
| encodes_position pk :
    fst <$> pk ≡ₚ positions n →
    (∀ p v, (p, v) ∈ pk → v = lbl (f (Z.to_nat p))) →
    encodes f n (position_keyed pk)
| encodes_label lk :
    NoDup (fst <$> lk) →
    concat (snd <$> lk) ≡ₚ positions n →
    (∀ s ps p, (s, ps) ∈ lk → p ∈ ps → f (Z.to_nat p) = s) →
    encodes f n (label_keyed lk)
| encodes_tuple tk :
    NoDup (fst <$> tk) →
    concat (fst <$> tk) ≡ₚ positions n →
    (∀ t v p, (t, v) ∈ tk → p ∈ t → v = lbl (f (Z.to_nat p))) →
    encodes f n (tuple_keyed tk).

(** The canonical mapping itself, as a lookup function. *)
Definition canonical (f : nat → string) (n : nat) (k : key) : option value :=
  match k with
  | KInt p => if decide (0 ≤ p < Z.of_nat n)%Z
              then Some (lbl (f (Z.to_nat p))) else None
  | _ => None
  end.

(** pandas before 0.21, where [infer_objects] does not exist yet, with
    [convert_objects] given; and an implementation offering neither call. *)
Definition pandas_legacy (convert : DataFrame → result DataFrame) : pandas :=
  {| infer_objects := fun _ => Err AttributeError; convert_objects := convert |}.

Definition pandas_neither : pandas := pandas_legacy (fun _ => Err AttributeError).

(** A 2x2 array and its element [A[i, j]]. *)
Definition is_2x2 (arr : ndarray) : Prop :=
  shape arr = [2; 2] ∧ length (data arr) = 4.

(** The number of distinct positions a label-keyed or tuple-keyed
    specification mentions. *)
Inductive collects : spec → nat → Prop :=
| collects_label lk :
    NoDup (fst <$> lk) →
    collects (label_keyed lk) (distinct (concat (snd <$> lk)))
| collects_tuple tk :
    collects (tuple_keyed tk) (distinct (concat (fst <$> tk))).

(** The number [_check_dict] compares with [dim_len], for the
    specifications it validates: the length of a sequence, the number of
    distinct positions of a label-keyed or tuple-keyed dictionary. *)
Inductive validated : spec → nat → Prop :=
| validated_seq l : validated (SSeq l) (length l)
| validated_dict s c : collects s c → validated s c.

(** A one-dimensional array of length 2, and a nine-dimensional array whose
    last dimension is empty. *)
Definition arr_2 : ndarray := {| shape := [2]; data := [7; 8]%Z |}.
Definition arr_9d : ndarray :=
  {| shape := [1; 1; 1; 1; 1; 1; 1; 1; 0]; data := [] |}.

(** A 1x1 array, melted below with a dimension named like the value
    column. *)
Definition arr_1x1 : ndarray := {| shape := [1; 1]; data := [5]%Z |}.

(** Two specification lists that encode, dimension by dimension, the same
    position-to-label mappings over the shape [sh]. *)
Definition same_mappings (sh : list nat) (gs1 gs2 : list spec) : Prop :=
  Forall3 (fun n s1 s2 => ∃ f, encodes f n s1 ∧ encodes f n s2) sh gs1 gs2.

(** The same for [groups] given as a dict from dimension to
    specification. *)
Definition same_entry (sh : list nat) (x y : key * spec) : Prop :=
  x.1 = y.1 ∧
  ∃ (d n : nat) f,
    x.1 = KInt (Z.of_nat d) ∧ sh !! d = Some n ∧
    encodes f n x.2 ∧ encodes f n y.2.

Definition same_mappings_dict (sh : list nat) (gd1 gd2 : pydict spec) : Prop :=
  NoDup (dict_keys gd1) ∧ Forall2 (same_entry sh) gd1 gd2.

(** Normalized entries under the same keys with equal dictionaries. *)
Definition same_normalized (x y : key * spec) : Prop :=
  x.1 = y.1 ∧ ∃ d1 d2, x.2 = SDict d1 ∧ y.2 = SDict d2 ∧ dict_same d1 d2.

(** What the main loop reads from the normalized groups. *)
Definition group_label (gs : groups) (dim_idx dim_adr : nat) : result value :=
  g <- groups_getitem gs dim_idx ;; spec_getitem g dim_adr.

(** The groups of the docstring example once more, and the same two
    mappings in other encodings. *)
Definition groups_4x3_a : list spec :=
  [ label_keyed [("A", [0; 2]); ("B", [1; 3])]%Z;
    tuple_keyed [([0; 2], lbl "abc"); ([1], lbl "d")]%Z ].

Definition groups_4x3_b : list spec :=
  [ position_keyed [(0, lbl "A"); (1, lbl "B"); (2, lbl "A"); (3, lbl "B")]%Z;
    label_keyed [("abc", [0; 2]); ("d", [1])]%Z ].

Definition first_label (p : nat) : string := if Nat.even p then "A" else "B".
Definition second_label (p : nat) : string :=
  if bool_decide (p = 1) then "d" else "abc".

(** ** The same code over a store of mutable objects

    The model above passes values; Python passes references. To state what
    [array2df] does to the objects it is handed, the code is transcribed once
    more over a store: every dict, list, set, array and DataFrame is an
    object at a location, [x = dict()] allocates, [d[k] = v], [s.add(v)] and
    [df.loc[i, c] = v] overwrite the object at a location, and [new_dct = dct]
    copies a reference. The collections of positions inside a label-keyed
    dict are only iterated and stay values. *)

Abbreviation loc := positive.

Inductive obj :=
| OArray (a : ndarray)
| OSpec (s : spec)
| OSet (s : pyset)
| ONamesList (l : list string)
| ONamesDict (d : pydict string)
| OGroupsDict (d : pydict loc)
| OGroupsList (l : list loc)
| OGroupsTuple (l : list loc)
| OTable (t : DataFrame).

Abbreviation store := (gmap loc obj).

(** Computations that read and update the store and may raise; the store at
    the time of the exception is kept. *)
Definition M (A : Type) : Type := store → store * result A.

Definition retS {A} (a : A) : M A := fun σ => (σ, Ok a).

Definition bindS {A B} (m : M A) (f : A → M B) : M B :=
  fun σ => match m σ with
           | (σ', Ok a) => f a σ'
           | (σ', Err e) => (σ', Err e)
           end.

Notation "x <~ m ;; k" := (bindS m (fun x => k))
  (at level 100, m at next level, right associativity, only parsing).

Definition lift {A} (r : result A) : M A := fun σ => (σ, r).

Definition raise {A} (e : exn) : M A := lift (Err e).

(** A new object, at a location not in use. *)
Definition alloc (o : obj) : M loc :=
  fun σ => let l := fresh (dom σ) in (<[l:=o]> σ, Ok l).

Definition load (l : loc) : M obj :=
  fun σ => (σ, match σ !! l with Some o => Ok o | None => Err TypeError end).

(** In-place update of the object at [l]. *)
Definition write (l : loc) (o : obj) : M unit :=
  fun σ => (<[l:=o]> σ, Ok tt).

Fixpoint forS {A} (l : list A) (f : A → M unit) : M unit :=
  match l with
  | [] => retS tt
  | x :: l' => _ <~ f x ;; forS l' f
  end.

Fixpoint mapS {A B} (f : A → M B) (l : list A) : M (list B) :=
  match l with
  | [] => retS []
  | x :: l' => y <~ f x ;; ys <~ mapS f l' ;; retS (y :: ys)
  end.

Definition load_spec (l : loc) : M spec :=
  o <~ load l ;; match o with OSpec s => retS s | _ => raise TypeError end.

Definition load_set (l : loc) : M pyset :=
  o <~ load l ;; match o with OSet s => retS s | _ => raise TypeError end.

Definition load_names (l : loc) : M names :=
  o <~ load l ;;
  match o with
  | ONamesList l => retS (NList l)
  | ONamesDict d => retS (NDict d)
  | _ => raise TypeError
  end.

Definition load_array (l : loc) : M ndarray :=
  o <~ load l ;; match o with OArray a => retS a | _ => raise TypeError end.

Definition load_table (l : loc) : M DataFrame :=
  o <~ load l ;; match o with OTable t => retS t | _ => raise TypeError end.

(** [dct[k]] on the dict at [l]. *)
Definition dict_getitem_st (l : loc) (k : key) : M value :=
  s <~ load_spec l ;;
  match s with SDict d => lift (dict_getitem d k) | SSeq _ => raise TypeError end.

(** [new_dct[k] = v] on the dict at [l]. *)
Definition dict_setitem_st (l : loc) (k : key) (v : value) : M unit :=
  s <~ load_spec l ;;
  match s with
  | SDict d => write l (OSpec (SDict (dict_set d k v)))
  | SSeq _ => raise TypeError
  end.

(** [vals_set.add(k)] on the set at [l]. *)
Definition set_add_st (l : loc) (k : key) : M unit :=
  s <~ load_set l ;; write l (OSet (set_add s k)).

(** [df.loc[idx, name] = v] on the DataFrame at [l]. *)
Definition loc_set_st (l : loc) (idx : nat) (name : string) (v : cell) : M unit :=
  t <~ load_table l ;; write l (OTable (loc_set t idx name v)).

(** The two inner loops of [_check_dict]. *)
Definition store_all_st (new_dct seen : loc) (members : list key) (v : value)
    : M unit :=
  forS members (fun m =>
    _ <~ dict_setitem_st new_dct m v ;; set_add_st seen m).

Definition _check_dict_st (dct : loc) (dim_len : nat) : M loc :=
  s <~ load_spec dct ;;
  match s with
  | SDict d =>
      let str_keys := forallb isinstance_str (dict_keys d) in
      let tuple_keys := forallb isinstance_tuple (dict_keys d) in
      if str_keys then
        vals_set <~ alloc (OSet []) ;;
        new_dct <~ alloc (OSpec (SDict [])) ;;
        _ <~ forS (dict_keys d) (fun k =>
               v <~ dict_getitem_st dct k ;;
               vals <~ lift (iter_value v) ;;
               store_all_st new_dct vals_set vals (VKey k)) ;;
        seen <~ load_set vals_set ;;
        _ <~ lift (assert (bool_decide (length seen = dim_len))) ;;
        retS new_dct
      else if tuple_keys then
        new_dct <~ alloc (OSpec (SDict [])) ;;
        i_set <~ alloc (OSet []) ;;
        _ <~ forS d (fun '(k, val) =>
               ks <~ lift (iter_key k) ;;
               store_all_st new_dct i_set ks val) ;;
        seen <~ load_set i_set ;;
        _ <~ lift (assert (bool_decide (length seen = dim_len))) ;;
        retS new_dct
      else retS dct
  | SSeq l =>
      _ <~ lift (assert (bool_decide (length l = dim_len))) ;;
      retS dct
  end.

(** [dim_names[i]], [groups[dim_idx]] and [g[dim_adr]] through
    references. *)
Definition names_getitem_st (dn : loc) (i : nat) : M string :=
  n <~ load_names dn ;; lift (names_getitem n i).

Definition groups_getitem_st (gs : loc) (i : nat) : M loc :=
  o <~ load gs ;;
  match o with
  | OGroupsDict d => lift (dict_getitem d (KInt (Z.of_nat i)))
  | OGroupsList l | OGroupsTuple l => lift (seq_getitem l (Z.of_nat i))
  | _ => raise TypeError
  end.

(** [groups[dim]] for a key [dim] of the dict [groups]. *)
Definition groups_dict_getitem (gs : loc) (dim : key) : M loc :=
  o <~ load gs ;;
  match o with
  | OGroupsDict d => lift (dict_getitem d dim)
  | _ => raise TypeError
  end.

Definition spec_getitem_st (g : loc) (i : nat) : M value :=
  s <~ load_spec g ;; lift (spec_getitem s i).

Definition getitem_st (arr : loc) (adr : list nat) : M Z :=
  a <~ load_array arr ;; lift (getitem a adr).

Definition default_groups_st (sh : list nat) : M loc :=
  let n_dim := length sh in
  d <~ mapS (fun dim =>
               n <~ lift (seq_getitem sh (Z.of_nat dim)) ;;
               g <~ lift (mapR (fun i =>
                            l <- seq_getitem (dim_letters n_dim) (Z.of_nat dim) ;;
                            Ok (KInt (Z.of_nat i), VKey (KStr (l +:+ str i))))
                         (range n)) ;;
               gl <~ alloc (OSpec (SDict g)) ;;
               retS (KInt (Z.of_nat dim), gl))
            (range n_dim) ;;
  alloc (OGroupsDict d).

Definition normalize_groups_st (sh : list nat) (gs : option loc) : M loc :=
  match gs with
  | None => default_groups_st sh
  | Some gs =>
      o <~ load gs ;;
      match o with
      | OGroupsDict d =>
          d' <~ mapS (fun dim =>
                        g <~ groups_dict_getitem gs dim ;;
                        n <~ lift (shape_getitem sh dim) ;;
                        g' <~ _check_dict_st g n ;;
                        retS (dim, g'))
                     (dict_keys d) ;;
          alloc (OGroupsDict d')
      | OGroupsList l =>
          l' <~ mapS (fun dim =>
                        g <~ groups_getitem_st gs dim ;;
                        n <~ lift (seq_getitem sh (Z.of_nat dim)) ;;
                        _check_dict_st g n)
                     (range (length l)) ;;
          alloc (OGroupsList l')
      | _ => retS gs
      end
  end.

Definition fill_dims_st (dn gs df : loc) (idx : nat) (adr : list nat) : M unit :=
  forS (enumerate adr) (fun '(dim_idx, dim_adr) =>
    g <~ groups_getitem_st gs dim_idx ;;
    lab <~ spec_getitem_st g dim_adr ;;
    name <~ names_getitem_st dn dim_idx ;;
    loc_set_st df idx name (Obj lab)).

Definition fill_rows_st (arr dn gs df : loc) (sh : list nat)
    (value_name : string) : M unit :=
  forS (enumerate (product (range <$> sh))) (fun '(idx, adr) =>
    x <~ getitem_st arr adr ;;
    _ <~ loc_set_st df idx value_name (Num x) ;;
    fill_dims_st dn gs df idx adr).

(** [df = df.infer_objects()], or the fallback: the result is a new
    DataFrame. *)
Definition infer_dtypes_st (pd : pandas) (df : loc) : M loc :=
  t <~ load_table df ;;
  t' <~ lift (infer_dtypes pd t) ;;
  alloc (OTable t').

Definition array2df_st (pd : pandas) (arr : loc) (dim_names gs : option loc)
    (value_name : string) : M loc :=
  a <~ load_array arr ;;
  let n_dim := ndim a in
  let sh := shape a in
  dim_names <~ match dim_names with
               | None => alloc (ONamesDict (default_dim_names_dict n_dim))
               | Some dn => retS dn
               end ;;
  gs <~ normalize_groups_st sh gs ;;
  dims <~ mapS (names_getitem_st dim_names) (range n_dim) ;;
  a' <~ load_array arr ;;
  df <~ alloc (OTable (DataFrame_new (value_name :: dims) (size a'))) ;;
  _ <~ fill_rows_st arr dim_names gs df sh value_name ;;
  infer_dtypes_st pd df.

(** The store grows: every object of [σ] is in [σ'], unchanged. *)
Definition unchanged (σ σ' : store) : Prop :=
  ∀ l o, σ !! l = Some o → σ' !! l = Some o.

(** A computation started in any store that extends [σ0] leaves the objects
    of [σ0] as they are, and what it returns satisfies [Q]. *)
Definition frames {A} (σ0 : store) (m : M A) (Q : A → Prop) : Prop :=
  ∀ σ, unchanged σ0 σ →
       unchanged σ0 (m σ).1 ∧ ∀ a, (m σ).2 = Ok a → Q a.

(** *** How a store represents the arguments of the value-passing model *)

Definition names_obj (n : names) : option obj :=
  match n with
  | NNone => None
  | NList l => Some (ONamesList l)
  | NDict d => Some (ONamesDict d)
  end.

Definition repr_names (σ : store) (dn : option loc) (n : names) : Prop :=
  match dn with
  | None => n = NNone
  | Some l => is_Some (names_obj n) ∧ σ !! l = names_obj n
  end.

Definition repr_spec (σ : store) (l : loc) (s : spec) : Prop :=
  σ !! l = Some (OSpec s).

Definition repr_entry (σ : store) (x : key * loc) (y : key * spec) : Prop :=
  x.1 = y.1 ∧ repr_spec σ x.2 y.2.

Definition repr_groups_at (σ : store) (g : loc) (gs : groups) : Prop :=
  match gs with
  | GNone => False
  | GDict d => ∃ dl, σ !! g = Some (OGroupsDict dl) ∧ Forall2 (repr_entry σ) dl d
  | GList ss => ∃ ls, σ !! g = Some (OGroupsList ls) ∧ Forall2 (repr_spec σ) ls ss
  | GTuple ss => ∃ ls, σ !! g = Some (OGroupsTuple ls) ∧ Forall2 (repr_spec σ) ls ss
  end.

Definition repr_groups (σ : store) (g : option loc) (gs : groups) : Prop :=
  match g with
  | None => gs = GNone
  | Some l => repr_groups_at σ l gs
  end.

(** The outcome [r] of a computation of the store model, in its final store
    [σ'], against the outcome [p] of the value-passing model. *)
Definition same_outcome {A B} (R : store → A → B → Prop) (σ' : store)
    (r : result A) (p : result B) : Prop :=
  match r with
  | Ok a => ∃ b, p = Ok b ∧ R σ' a b
  | Err e => p = Err e
  end.

Definition repr_table (σ : store) (l : loc) (t : DataFrame) : Prop :=
  σ !! l = Some (OTable t).

(** The store with the dict and the set that [_check_dict] is filling. *)
Definition with_acc (σ : store) (new_dct seen : loc)
    (acc : pydict value * pyset) : store :=
  <[seen := OSet acc.2]> (<[new_dct := OSpec (SDict acc.1)]> σ).

(** The store with the DataFrame that [array2df] is filling. *)
Definition with_table (σ : store) (df : loc) (t : DataFrame) : store :=
  <[df := OTable t]> σ.

(** A store with the arguments of the second docstring example. *)
Definition store_4x3 : store :=
  list_to_map
    [ (1%positive, OArray arr_4x3);
      (2%positive, ONamesList ["first"; "second"]);
      (3%positive, OSpec (SDict [(KStr "A", ints [0; 2]); (KStr "B", ints [1; 3])]%Z));
      (4%positive, OSpec (SDict [(KTuple [0; 2], lbl "abc"); (KTuple [1], lbl "d")]%Z));
      (5%positive, OGroupsList [3%positive; 4%positive]) ].

(** ** Auxiliary notions for the proofs *)

Global Instance KInt_inj : Inj (=) (=) KInt.
Proof. by intros ?? [= ->]. Defined.

(** The loops of [_check_dict], unrolled: the assignments [new_dct[m] = v] made by a list of (members, value)
    pairs, in order, and the state they leave. *)
Definition assignments (ws : list (list key * value)) : list (key * value) :=
  '(ms, v) ← ws; (., v) <$> ms.

Definition run_writes (acc : pydict value * pyset)
    (ws : list (list key * value)) : pydict value * pyset :=
  foldl (fun acc '(ms, v) => store_all acc ms v) acc ws.

(** The (members, value) pairs of a label-keyed and of a tuple-keyed
    specification. *)
Definition label_writes (lk : list (string * list Z)) : list (list key * value) :=
  (fun '((s, ps) : string * list Z) => (KInt <$> ps, lbl s)) <$> lk.

Definition tuple_writes (tk : list (list Z * value)) : list (list key * value) :=
  (fun '((t, v) : list Z * value) => (KInt <$> t, v)) <$> tk.

(** The end of both dictionary branches of [_check_dict]. *)
Definition checked (ws : list (list key * value)) (dim_len : nat) : result spec :=
  let acc := run_writes ([], []) ws in
  _ <- assert (bool_decide (length acc.2 = dim_len)) ;;
  Ok (SDict acc.1).

(** One pass of the body of the main loop, on the row it writes: the row
    for address [adr], starting from [row]. *)
Definition melt_dims (dn : names) (gs : groups) (cols : list string)
    (row : list cell) (l : list (nat * nat)) : result (list cell) :=
  foldR (fun row '(dim_idx, dim_adr) =>
           g <- groups_getitem gs dim_idx ;;
           lab <- spec_getitem g dim_adr ;;
           name <- names_getitem dn dim_idx ;;
           Ok (row_set cols name (Obj lab) row))
        row l.

Definition melt_row (arr : ndarray) (dn : names) (gs : groups)
    (value_name : string) (cols : list string) (adr : list nat)
    : result (list cell) :=
  x <- getitem arr adr ;;
  melt_dims dn gs cols
    (row_set cols value_name (Num x) (replicate (length cols) NaN))
    (enumerate adr).

(** Splits a membership in a literal list into its cases. *)
Ltac elem_cases H :=
  repeat (apply elem_of_cons in H as [H|H]; [try (injection H as -> ->)|]);
  try (by apply elem_of_nil in H).

(** Evaluates the row population of a closed call. *)
Ltac eval_rows :=
  match goal with
  | |- context [array2df_rows ?arr ?dn ?gs ?vn] =>
      let r := eval vm_compute in (array2df_rows arr dn gs vn) in
      change (array2df_rows arr dn gs vn) with r
  end.

(** ** The other helpers of [utils.py]

    [find_index], [find_range], [extend_slice], [group] and
    [subselect_keys]. They raise two more exceptions than the code above;
    numpy integers are 64-bit and wrap around. *)

Inductive exc :=
| Builtin (e : exn)
| ValueError
| RuntimeError.

Inductive outcome (A : Type) :=
| Returns (a : A)
| Raises (e : exc).
Arguments Returns {A} a.
Arguments Raises {A} e.

Definition bindO {A B} (m : outcome A) (f : A → outcome B) : outcome B :=
  match m with Returns a => f a | Raises e => Raises e end.

Notation "x <-- m ;; k" := (bindO m (fun x => k))
  (at level 100, m at next level, right associativity, only parsing).

Fixpoint mapO {A B} (f : A → outcome B) (l : list A) : outcome (list B) :=
  match l with
  | [] => Returns []
  | x :: l' => y <-- f x ;; ys <-- mapO f l' ;; Returns (y :: ys)
  end.

(** *** numpy's int64 *)

Definition wrap64 (z : Z) : Z := ((z + 2 ^ 63) `mod` 2 ^ 64 - 2 ^ 63)%Z.

Definition int64 (z : Z) : Prop := (- 2 ^ 63 ≤ z < 2 ^ 63)%Z.

Definition np_sub (a b : Z) : Z := wrap64 (a - b).
Definition np_add (a b : Z) : Z := wrap64 (a + b).
Definition np_abs (a : Z) : Z := wrap64 (Z.abs a).

(** [a.argmin()] on a one-dimensional array: the first index of the least
    element; an empty array raises. *)
Fixpoint argmin_from (best_i : nat) (best : Z) (i : nat) (l : list Z) : nat :=
  match l with
  | [] => best_i
  | y :: l' =>
      if decide (y < best)%Z then argmin_from i y (S i) l'
      else argmin_from best_i best (S i) l'
  end.

Definition np_argmin (l : list Z) : outcome nat :=
  match l with
  | [] => Raises ValueError
  | x :: l' => Returns (argmin_from 0 x 1 l')
  end.

(** [a.max()] *)
Definition np_max (l : list Z) : outcome Z :=
  match l with
  | [] => Raises ValueError
  | x :: l' => Returns (foldl Z.max x l')
  end.

(** [np.diff(a)] *)
Fixpoint np_diff (l : list Z) : list Z :=
  match l with
  | x :: (y :: _) as l' => np_sub y x :: np_diff l'
  | _ => []
  end.

(** *** [find_index] *)

(** [np.abs(vec - x).argmin()] *)
Definition nearest (vec : list Z) (x : Z) : outcome nat :=
  np_argmin ((fun v => np_abs (np_sub v x)) <$> vec).

(** The [vals] argument: one number, or a list, tuple or array of them. *)
Inductive vals_arg :=
| Scalar (x : Z)
| Values (l : list Z).

Definition find_index (vec : list Z) (vals : vals_arg) : outcome (list nat) :=
  let vals := match vals with Scalar x => [x] | Values l => l end in
  mapO (nearest vec) vals.

(** *** Slices and [find_range] *)

Record slice := Slice { start : option Z; stop : option Z; step : option Z }.





(** *** [extend_slice] *)

Definition extend_slice (slc : slice) (val maxval minval : Z) : outcome slice :=
  start' <--
    match start slc with
    | None => Raises (Builtin TypeError)
    | Some s =>
        if bool_decide (s = minval) then Returns s
        else
          let s := (s - val)%Z in
          Returns (if bool_decide (s < minval)%Z then minval else s)
    end ;;
  stop' <--
    match stop slc with
    | None => Raises (Builtin TypeError)
    | Some s =>
        if bool_decide (s = maxval) then Returns s
        else
          let s := (s + val)%Z in
          Returns (if bool_decide (maxval < s)%Z then maxval else s)
    end ;;
  Returns (Slice (Some start') (Some stop') (step slc)).

(** *** [group] *)

(** The state of the loop: [in_grp], [start_ind] (read only while [in_grp])
    and [group_lims]. *)
Record group_state := GroupState {
  in_grp : bool;
  start_ind : nat;
  group_lims : list (nat * nat)
}.

Definition group_step (st : group_state) (x : nat * bool) : group_state :=
  let '(ii, el) := x in
  if in_grp st && negb el then
    GroupState false (start_ind st) (group_lims st ++ [(start_ind st, ii - 1)])
  else if negb (in_grp st) && el then
    GroupState true ii (group_lims st)
  else st.

Definition group_loop (vec : list bool) : list (nat * nat) :=
  group_lims (foldl group_step (GroupState false 0 []) (enumerate vec)).

(** Truth value of an array element. *)
Definition truthy (z : Z) : bool := negb (bool_decide (z = 0%Z)).

Inductive grouped :=
| Limits (grp : list (nat * nat))
| AsSlices (slc : list slice).

Definition group (vec : list Z) (diff return_slice : bool) : outcome grouped :=
  vec' <--
    (if diff then
       m <-- np_max vec ;;
       Returns ((fun d => bool_decide (0 < d)%Z)
                  <$> np_diff (vec ++ [np_add m 1]))
     else Returns (truthy <$> (vec ++ [0%Z]))) ;;
  let group_lims := group_loop vec' in
  (* grp[:, 1] += 1 needs a two-dimensional array *)
  grp <--
    (if diff then
       match group_lims with
       | [] => Raises (Builtin IndexError)
       | _ => Returns ((fun '(s, e) => (s, e + 1)) <$> group_lims)
       end
     else Returns group_lims) ;;
  if return_slice then
    Returns (AsSlices ((fun '(s, e) =>
                          Slice (Some (Z.of_nat s)) (Some (Z.of_nat e + 1)%Z) None)
                         <$> grp))
  else Returns (Limits grp).

(** *** [subselect_keys] *)

(** [sep in s] *)
Fixpoint contains (sep s : string) : bool :=
  String.prefix sep s ||
  match s with
  | EmptyString => false
  | String _ s' => contains sep s'
  end.

(** [s.split(c)] for the one-character separator [c]. *)
Fixpoint split_on (c : ascii) (s : string) : list string :=
  match s with
  | EmptyString => [EmptyString]
  | String a s' =>
      if decide (a = c) then EmptyString :: split_on c s'
      else match split_on c s' with
           | [] => [String a EmptyString]
           | p :: ps => String a p :: ps
           end
  end.

(** A dict with string keys, in insertion order. *)
Abbreviation mapping V := (list (string * V)).

Definition map_in {V} (k : string) (m : mapping V) : bool :=
  bool_decide (k ∈ m.*1).

(** [del m[k]] *)
Definition map_del {V} (k : string) (m : mapping V) : mapping V :=
  filter (fun x => x.1 ≠ k) m.

(** [all(set(k_i.split('/')).issubset(k.split('/')) for k_i in key)] *)
Definition matches (key : list string) (k : string) : bool :=
  forallb (fun k_i =>
             forallb (fun part => bool_decide (part ∈ split_on "/"%char k))
                     (split_on "/"%char k_i))
          key.

(** What [mapping.keys()] is: a list made when it is called (Python 2), or
    a view that notices at the next step that the dict changed size
    (Python 3). *)
Inductive keys_kind := Snapshot | LiveView.

(** The loop that deletes the keys that do not match. [changed] tells
    whether a key has been deleted in the pass before. *)
Fixpoint del_loop {V} (py : keys_kind) (key : list string) (ks : list string)
    (m : mapping V) (changed : bool) : outcome (mapping V) :=
  match py, changed with
  | LiveView, true => Raises RuntimeError
  | _, _ =>
      match ks with
      | [] => Returns m
      | k :: ks' =>
          if matches key k then del_loop py key ks' m false
          else del_loop py key ks' (map_del k m) true
      end
  end.

Inductive key_arg :=
| OneKey (k : string)
| Keys (l : list string).

Definition subselect_keys {V} (py : keys_kind) (key : key_arg)
    (m : mapping V) (sep : string) : outcome (mapping V) :=
  let key := match key with OneKey k => [k] | Keys l => l end in
  (* mapping = deepcopy(mapping): values are passed by value here *)
  if existsb (contains sep) m.*1 then
    if existsb (fun k_e => negb (map_in k_e m)) key then
      m' <-- del_loop py key m.*1 m false ;;
      if bool_decide (length key = 0) then Raises (Builtin KeyError)
      else Returns m'
    else Returns m
  else Raises ValueError.

(** *** [silent_mne] and [silent]

    Both are generator functions under [contextlib.contextmanager]: in
    [with silent_mne(): body] the body runs where the generator yields, and
    an exception of the body is raised at the [yield]. What they act on is
    the level of the mne logger and the list of warning filters. *)

(** An entry of [warnings.filters]: the one [simplefilter('ignore')] adds,
    or another one. *)
Inductive wfilter := IgnoreAll | OtherFilter (n : nat).

Global Instance wfilter_eq_dec : EqDecision wfilter.
Proof. solve_decision. Defined.

Record world := World { log_level : Z; filters : list wfilter }.

Definition W (A : Type) : Type := world → world * outcome A.

Definition retW {A} (a : A) : W A := fun w => (w, Returns a).

Definition bindW {A B} (m : W A) (f : A → W B) : W B :=
  fun w => match m w with
           | (w', Returns a) => f a w'
           | (w', Raises e) => (w', Raises e)
           end.

Notation "x <~~ m ;; k" := (bindW m (fun x => k))
  (at level 100, m at next level, right associativity, only parsing).

(** The level of [logging.CRITICAL]. *)
Definition CRITICAL : Z := 50.

(** [mne.set_log_level(verbose, return_old_level=True)] *)
Definition set_log_level (verbose : Z) : W Z :=
  fun w => (World verbose (filters w), Returns (log_level w)).

(** [l.remove(x)], without the exception for a missing [x]. *)
Fixpoint remove_first (x : wfilter) (l : list wfilter) : list wfilter :=
  match l with
  | [] => []
  | y :: l' => if decide (y = x) then l' else y :: remove_first x l'
  end.

(** [warnings.simplefilter('ignore')]: the filter is moved or put to the
    front. *)
Definition simplefilter_ignore : W unit :=
  fun w => (World (log_level w) (IgnoreAll :: remove_first IgnoreAll (filters w)),
            Returns tt).

(** [with warnings.catch_warnings(): m]: the filters are saved on entry, a
    copy is worked on, and the saved list is put back on exit, however the
    block is left. *)
Definition catch_warnings {A} (m : W A) : W A :=
  fun w =>
    let saved := filters w in
    let '(w', r) := m w in
    (World (log_level w') saved, r).

(** [with silent_mne(): body] *)
Definition silent_mne {A} (body : W A) : W A :=
  log_level <~~ set_log_level CRITICAL ;;
  a <~~ body ;;                                   (* yield *)
  _ <~~ set_log_level log_level ;;
  retW a.

(** [with silent(): body] *)
Definition silent {A} (body : W A) : W A :=
  catch_warnings (
    _ <~~ simplefilter_ignore ;;
    body).                                        (* yield *)

(** *** Predicates used in the statements about the helpers *)

(** The difference [v - x] and its absolute value fit in 64 bits. *)
Definition near64 (x v : Z) : Prop := (Z.abs (v - x) < 2 ^ 63)%Z.

(** [i] is the first index of [vec] whose element is nearest to [x]. *)
Definition first_nearest (vec : list Z) (x : Z) (i : nat) : Prop :=
  ∃ v, vec !! i = Some v ∧
    (∀ j w, vec !! j = Some w → (Z.abs (v - x) ≤ Z.abs (w - x))%Z) ∧
    (∀ j w, j < i → vec !! j = Some w → (Z.abs (v - x) < Z.abs (w - x))%Z).


(** Each element is less than the next one. *)
Fixpoint increasing (l : list Z) : Prop :=
  match l with
  | x :: (y :: _) as l' => (x < y)%Z ∧ increasing l'
  | _ => True
  end.

(** Numbers whose sums and differences fit in 64 bits. *)
Definition small (v : Z) : Prop := (- 2 ^ 62 < v < 2 ^ 62)%Z.

(** The indices [s] to [e] of [vec] are a run of [true] that cannot be
    extended on either side. *)
Definition maximal_run (vec : list bool) (s e : nat) : Prop :=
  s ≤ e ∧ e < length vec ∧
  (∀ j, s ≤ j ≤ e → vec !! j = Some true) ∧
  (s = 0 ∨ vec !! (s - 1) = Some false) ∧
  vec !! (e + 1) ≠ Some true.

(** The invariant of the loop of [group], after the prefix [p] of the
    vector: the groups closed so far are runs of [true] ended by a [false],
    in increasing order; the group that is open runs to the end of [p]; and
    every [true] of [p] is in one of them. *)
Definition closed_run (p : list bool) (s e : nat) : Prop :=
  s ≤ e ∧
  (∀ j, s ≤ j ≤ e → p !! j = Some true) ∧
  (s = 0 ∨ p !! (s - 1) = Some false) ∧
  p !! (e + 1) = Some false.

Definition group_inv (p : list bool) (st : group_state) : Prop :=
  (∀ s e, (s, e) ∈ group_lims st → closed_run p s e) ∧
  (if in_grp st then
     start_ind st < length p ∧
     (∀ j, start_ind st ≤ j < length p → p !! j = Some true) ∧
     (start_ind st = 0 ∨ p !! (start_ind st - 1) = Some false) ∧
     (∀ s e, (s, e) ∈ group_lims st → e + 1 < start_ind st)
   else length p = 0 ∨ p !! (length p - 1) = Some false) ∧
  (∀ j, p !! j = Some true →
     (∃ s e, (s, e) ∈ group_lims st ∧ s ≤ j ≤ e) ∨
     (in_grp st = true ∧ start_ind st ≤ j)) ∧
  (∀ i1 i2 g1 g2, i1 < i2 →
     group_lims st !! i1 = Some g1 → group_lims st !! i2 = Some g2 →
     g1.2 + 1 < g2.1).

(** * Properties *)

(** ** The error monad *)

Lemma bind_Ok {A B} (m : result A) (f : A → result B) b :
  bind m f = Ok b ↔ ∃ a, m = Ok a ∧ f a = Ok b.
Proof.
  destruct m as [a|e]; simpl; split.
  - eauto.
  - by intros (a' & [= <-] & ?).
  - done.
  - by intros (? & ? & ?).
Qed.

Lemma is_Err_bind_l {A B} (m : result A) (f : A → result B) :
  is_Err m → is_Err (bind m f).
Proof. intros [e ->]. by exists e. Qed.

Lemma is_Err_bind_r {A B} (m : result A) (f : A → result B) :
  (∀ a, m = Ok a → is_Err (f a)) → is_Err (bind m f).
Proof. destruct m as [a|e]; simpl; [auto | by exists e]. Qed.

Lemma mapR_ext {A B} (f g : A → result B) l :
  (∀ x, x ∈ l → f x = g x) → mapR f l = mapR g l.
Proof.
  induction l as [|x l IH]; intros Hfg; simpl; [done|].
  rewrite Hfg by left. rewrite IH; [done|].
  intros y Hy. apply Hfg. by right.
Qed.

Lemma mapR_length {A B} (f : A → result B) l ys :
  mapR f l = Ok ys → length ys = length l.
Proof.
  revert ys. induction l as [|x l IH]; simpl; intros ys.
  - by intros [= <-].
  - destruct (f x) as [y|e]; simpl; [|done].
    destruct (mapR f l) as [ys'|e]; simpl; [|done].
    intros [= <-]. simpl. f_equal. by apply IH.
Qed.

Lemma mapR_lookup {A B} (f : A → result B) l ys i x :
  mapR f l = Ok ys → l !! i = Some x → ∃ y, f x = Ok y ∧ ys !! i = Some y.
Proof.
  revert ys i. induction l as [|x' l IH]; simpl; intros ys i; [done|].
  destruct (f x') as [y|e] eqn:Hfx; simpl; [|done].
  destruct (mapR f l) as [ys'|e]; simpl; [|done].
  intros [= <-]. destruct i as [|i]; simpl.
  - intros [= <-]. eauto.
  - intros Hi. by apply IH.
Qed.

Lemma mapR_Err_elem {A B} (f : A → result B) l x :
  x ∈ l → is_Err (f x) → is_Err (mapR f l).
Proof.
  induction l as [|x' l IH]; [by intros ?%elem_of_nil|].
  intros [->|Hx]%elem_of_cons Hf; simpl.
  - by apply is_Err_bind_l.
  - apply is_Err_bind_r. intros y _. apply is_Err_bind_l. by apply IH.
Qed.

(** ** Dtype inference *)

Lemma dtypes_only_keeps_contents pd : dtypes_only pd → keeps_contents pd.
Proof. intros Hpd df df'. rewrite Hpd. by intros [= <-]. Qed.

Lemma pandas_modern_dtypes_only : dtypes_only pandas_modern.
Proof. by intros df. Qed.

Lemma array2df_dtypes_only pd arr dn gs vn :
  dtypes_only pd → array2df pd arr dn gs vn = array2df_rows arr dn gs vn.
Proof.
  intros Hpd. unfold array2df.
  destruct (array2df_rows arr dn gs vn) as [df|e]; simpl; [apply Hpd | done].
Qed.

Lemma array2df_Ok_rows pd arr dn gs vn df :
  keeps_contents pd → array2df pd arr dn gs vn = Ok df →
  array2df_rows arr dn gs vn = Ok df.
Proof.
  intros Hpd. unfold array2df. intros (df0 & Hrows & Hinf)%bind_Ok.
  by rewrite (Hpd _ _ Hinf).
Qed.

Lemma array2df_rows_Err pd arr dn gs vn e :
  array2df_rows arr dn gs vn = Err e → array2df pd arr dn gs vn = Err e.
Proof. unfold array2df. by intros ->. Qed.

(** ** The docstring examples *)

(** C2, as the code has it. Melting [arange(12).reshape(4, 3)] with
    [dim_names=["first", "second"]], [value_name="array_value"] and
    [groups=[{"A": [0, 2], "B": [1, 3]}, {(0, 2): "abc", (1,): "d"}]] gives
    the columns (array_value, first, second), row 0 equal to
    (0, "A", "abc") and row 4 equal to (4, "B", "d"): address (1, 1) has
    first index 1, in group "B", and second index 1, labelled "d". *)
Theorem array2df_4x3_rows_0_and_4 pd :
  dtypes_only pd →
  ∃ df,
    array2df pd arr_4x3 (NList ["first"; "second"]) groups_4x3 "array_value"
      = Ok df ∧
    columns df = ["array_value"; "first"; "second"] ∧
    rows df !! 0 = Some [Num 0; Obj (lbl "A"); Obj (lbl "abc")] ∧
    rows df !! 4 = Some [Num 4; Obj (lbl "B"); Obj (lbl "d")].
Proof.
  intros Hpd. rewrite array2df_dtypes_only by done.
  eval_rows. eexists. split; [reflexivity|]. by repeat split.
Qed.

Lemma array2df_4x3_rows_0_and_4_witness :
  ∃ df,
    array2df pandas_modern arr_4x3 (NList ["first"; "second"]) groups_4x3
      "array_value" = Ok df ∧
    columns df = ["array_value"; "first"; "second"] ∧
    rows df !! 0 = Some [Num 0; Obj (lbl "A"); Obj (lbl "abc")] ∧
    rows df !! 4 = Some [Num 4; Obj (lbl "B"); Obj (lbl "d")].
Proof.
  apply (array2df_4x3_rows_0_and_4 pandas_modern).
  intros df. reflexivity.
Defined.

(** C2 as the specification words it does not hold: row 4 is not
    (4, "B", "abc"). *)
Lemma array2df_4x3_row_4_not_abc :
  ¬ ∃ df,
      array2df pandas_modern arr_4x3 (NList ["first"; "second"]) groups_4x3
        "array_value" = Ok df ∧
      rows df !! 0 = Some [Num 0; Obj (lbl "A"); Obj (lbl "abc")] ∧
      rows df !! 4 = Some [Num 4; Obj (lbl "B"); Obj (lbl "abc")].
Proof.
  intros (df & Hdf & _ & H4). revert Hdf.
  rewrite array2df_dtypes_only by apply pandas_modern_dtypes_only.
  eval_rows. intros [= <-]. by simpl in H4.
Qed.

(** C4. For every 2x2 array, [array2df] with default arguments returns 4
    rows under the columns (value, dim_i, dim_j); row [k] holds
    [A[k // 2, k % 2]], ["i" + str(k // 2)] and ["j" + str(k % 2)]. *)
Theorem array2df_2x2_default pd arr :
  dtypes_only pd → is_2x2 arr →
  ∃ df,
    array2df pd arr NNone GNone "value" = Ok df ∧
    columns df = ["value"; "dim_i"; "dim_j"] ∧
    length (rows df) = 4 ∧
    ∀ k, k < 4 →
      ∃ x, getitem arr [k / 2; k mod 2] = Ok x ∧
           rows df !! k = Some [Num x;
                                Obj (lbl ("i" +:+ str (k / 2)));
                                Obj (lbl ("j" +:+ str (k mod 2)))].
Proof.
  intros Hpd [Hsh Hlen]. rewrite array2df_dtypes_only by done.
  destruct arr as [sh dt]. simpl in Hsh, Hlen. subst sh.
  destruct dt as [|a [|b [|c [|d [|? ?]]]]]; try done.
  eval_rows. eexists. split; [reflexivity|].
  repeat split.
  intros k Hk.
  destruct k as [|[|[|[|k]]]]; [| | | |lia]; eexists; split; reflexivity.
Qed.

Lemma array2df_2x2_default_witness :
  ∃ df,
    array2df pandas_modern arr_2x2 NNone GNone "value" = Ok df ∧
    columns df = ["value"; "dim_i"; "dim_j"] ∧
    length (rows df) = 4 ∧
    ∀ k, k < 4 →
      ∃ x, getitem arr_2x2 [k / 2; k mod 2] = Ok x ∧
           rows df !! k = Some [Num x;
                                Obj (lbl ("i" +:+ str (k / 2)));
                                Obj (lbl ("j" +:+ str (k mod 2)))].
Proof.
  apply (array2df_2x2_default pandas_modern arr_2x2).
  - intros df. reflexivity.
  - split; reflexivity.
Defined.

(** ** Dictionaries and sets *)

Lemma dict_get_set {V} (d : pydict V) k v k' :
  dict_get (dict_set d k v) k' = if decide (k = k') then Some v else dict_get d k'.
Proof.
  induction d as [|[k0 v0] d IH]; simpl.
  - done.
  - destruct (decide (k0 = k)) as [->|Hne]; simpl.
    + by destruct (decide (k = k')).
    + rewrite IH. destruct (decide (k0 = k')) as [->|]; [|done].
      by rewrite decide_False.
Qed.

Lemma dict_get_elem {V} (d : pydict V) k v :
  NoDup (dict_keys d) → (k, v) ∈ d → dict_get d k = Some v.
Proof.
  unfold dict_keys. induction d as [|[k0 v0] d IH]; simpl.
  - by intros _ ?%elem_of_nil.
  - intros [Hk0 Hnd]%NoDup_cons [[= -> ->]|Hin]%elem_of_cons.
    + by rewrite decide_True.
    + rewrite decide_False; [by apply IH|].
      intros ->. apply Hk0. apply list_elem_of_fmap. by exists (k, v).
Qed.

Lemma dict_get_None {V} (d : pydict V) k :
  dict_get d k = None ↔ k ∉ dict_keys d.
Proof.
  unfold dict_keys. induction d as [|[k0 v0] d IH]; simpl.
  - split; [intros _; apply not_elem_of_nil | done].
  - rewrite not_elem_of_cons. destruct (decide (k0 = k)) as [->|Hne].
    + split; [done | by intros []].
    + rewrite IH. naive_solver.
Qed.

Lemma set_add_elem (s : pyset) k x : x ∈ set_add s k ↔ x ∈ s ∨ x = k.
Proof.
  unfold set_add. destruct (decide (k ∈ s)).
  - naive_solver.
  - rewrite elem_of_app, list_elem_of_singleton. done.
Qed.

Lemma set_add_NoDup (s : pyset) k : NoDup s → NoDup (set_add s k).
Proof.
  unfold set_add. intros Hs. destruct (decide (k ∈ s)); [done|].
  apply NoDup_app. split_and!; [done | | apply NoDup_singleton].
  intros x Hx ->%list_elem_of_singleton. done.
Qed.

Lemma foldl_set_add_elem (l s : pyset) x :
  x ∈ foldl set_add s l ↔ x ∈ s ∨ x ∈ l.
Proof.
  revert s. induction l as [|k l IH]; intros s; simpl.
  - rewrite elem_of_nil. naive_solver.
  - rewrite IH, set_add_elem, elem_of_cons. naive_solver.
Qed.

Lemma foldl_set_add_NoDup (l s : pyset) : NoDup s → NoDup (foldl set_add s l).
Proof.
  revert s. induction l as [|k l IH]; intros s Hs; simpl; [done|].
  by apply IH, set_add_NoDup.
Qed.

(** A set built by adding the members of [l] one by one has as many members
    as [l] has distinct ones. *)
Lemma foldl_set_add_length (l : pyset) :
  length (foldl set_add [] l) = distinct l.
Proof.
  unfold distinct. apply Permutation_length, NoDup_Permutation.
  - apply foldl_set_add_NoDup, NoDup_nil_2.
  - apply NoDup_remove_dups.
  - intros x. rewrite foldl_set_add_elem, elem_of_remove_dups, elem_of_nil.
    naive_solver.
Qed.

Lemma distinct_fmap {A B} `{EqDecision A, EqDecision B} (f : A → B)
    `{!Inj (=) (=) f} (l : list A) :
  distinct (f <$> l) = distinct l.
Proof.
  unfold distinct. rewrite <-(length_fmap f (remove_dups l)).
  apply Permutation_length, NoDup_Permutation.
  - apply NoDup_remove_dups.
  - apply NoDup_fmap_2; [done | apply NoDup_remove_dups].
  - intros y. rewrite elem_of_remove_dups, !list_elem_of_fmap.
    setoid_rewrite elem_of_remove_dups. done.
Qed.

(** ** The loops of [_check_dict] *)

Lemma store_all_eq acc ms v :
  store_all acc ms v =
    (foldl (fun d '(m, v) => dict_set d m v) acc.1 ((., v) <$> ms),
     foldl set_add acc.2 ms).
Proof.
  unfold store_all. revert acc.
  induction ms as [|m ms IH]; intros [d s]; simpl; [done|].
  by rewrite IH.
Qed.

Lemma run_writes_eq acc ws :
  run_writes acc ws =
    (foldl (fun d '(m, v) => dict_set d m v) acc.1 (assignments ws),
     foldl set_add acc.2 (concat (fst <$> ws))).
Proof.
  unfold run_writes, assignments. revert acc.
  induction ws as [|[ms v] ws IH]; intros acc; simpl.
  - by destruct acc.
  - rewrite IH, store_all_eq. simpl. by rewrite !foldl_app.
Qed.

(** Both loops, once the members of every entry are known. *)
Lemma foldR_store {A} (f : pydict value * pyset → A → result (pydict value * pyset))
    (w : A → list key * value) (items : list A) acc :
  (∀ acc x, x ∈ items → f acc x = Ok (store_all acc (w x).1 (w x).2)) →
  foldR f acc items = Ok (run_writes acc (w <$> items)).
Proof.
  revert acc. induction items as [|x items IH]; intros acc Hf; simpl; [done|].
  rewrite Hf by left. simpl. destruct (w x) as [ms v] eqn:Hw. simpl.
  apply IH. intros acc' y Hy. apply Hf. by right.
Qed.

Lemma label_keyed_str_keys lk d :
  label_keyed lk = SDict d → forallb isinstance_str (dict_keys d) = true.
Proof.
  intros [= <-]. unfold dict_keys.
  induction lk as [|[s ps] lk IH]; simpl; [done | apply IH].
Qed.

Lemma tuple_keyed_keys tk d :
  tk ≠ [] → tuple_keyed tk = SDict d →
  forallb isinstance_str (dict_keys d) = false ∧
  forallb isinstance_tuple (dict_keys d) = true.
Proof.
  intros Hne [= <-]. unfold dict_keys.
  destruct tk as [|[t v] tk]; [done|]. simpl. split; [done|].
  clear Hne. induction tk as [|[t' v'] tk IH]; simpl; [done | apply IH].
Qed.

Lemma position_keyed_keys pk d :
  pk ≠ [] → position_keyed pk = SDict d →
  forallb isinstance_str (dict_keys d) = false ∧
  forallb isinstance_tuple (dict_keys d) = false.
Proof.
  intros Hne [= <-]. by destruct pk as [|[p v] pk].
Qed.

Lemma check_dict_label lk n :
  NoDup (fst <$> lk) →
  _check_dict (label_keyed lk) n = checked (label_writes lk) n.
Proof.
  intros Hnd. unfold _check_dict. destruct (label_keyed lk) as [d|] eqn:Hd; [|done].
  rewrite (label_keyed_str_keys lk d Hd). injection Hd as <-.
  set (d := (fun '(s, ps) => (KStr s, ints ps)) <$> lk).
  set (w := fun k : key =>
              (match dict_get d k with
               | Some (VList l) => l
               | _ => []
               end, VKey k)).
  assert (∀ s ps, (s, ps) ∈ lk → dict_get d (KStr s) = Some (ints ps)) as Hget.
  { intros s ps Hin. apply dict_get_elem.
    - unfold dict_keys, d. rewrite <-list_fmap_compose.
      rewrite (list_fmap_ext _ (KStr ∘ fst) lk) by (by intros ? []).
      rewrite list_fmap_compose. apply NoDup_fmap_2; [|done]. by intros ?? [= ->].
    - apply list_elem_of_fmap. by exists (s, ps). }
  rewrite (foldR_store _ w).
  - unfold checked.
    replace (w <$> dict_keys d) with (label_writes lk);
      [by destruct (run_writes _ _)|].
    unfold label_writes, dict_keys, d. rewrite <-!list_fmap_compose.
    apply list_fmap_ext. intros i [s ps] Hi%list_elem_of_lookup_2. simpl.
    unfold w. by rewrite (Hget s ps Hi).
  - intros acc k ([k' v'] & -> & Hin)%list_elem_of_fmap.
    apply list_elem_of_fmap in Hin as ([s ps] & [= -> ->] & Hin).
    unfold w, dict_getitem. simpl. by rewrite (Hget _ _ Hin).
Qed.

Lemma check_dict_tuple tk n :
  _check_dict (tuple_keyed tk) n = checked (tuple_writes tk) n.
Proof.
  destruct (decide (tk = [])) as [->|Hne]; [done|].
  unfold _check_dict. destruct (tuple_keyed tk) as [d|] eqn:Hd; [|done].
  destruct (tuple_keyed_keys tk d Hne Hd) as [-> ->]. injection Hd as <-.
  rewrite (foldR_store _ (fun '(k, v) =>
             (match k with KTuple t => KInt <$> t | _ => [] end, v))).
  - unfold checked, tuple_writes. rewrite <-list_fmap_compose.
    erewrite (list_fmap_ext _ (fun '(t, v) => (KInt <$> t, v)) tk);
      [by destruct (run_writes _ _)|].
    by intros i [t v] _.
  - intros acc [k v] ([t v'] & [= -> ->] & _)%list_elem_of_fmap. done.
Qed.

Lemma checked_length ws :
  length (run_writes ([], []) ws).2 = distinct (concat (fst <$> ws)).
Proof. rewrite run_writes_eq. simpl. apply foldl_set_add_length. Qed.

Lemma label_writes_members lk :
  concat (fst <$> label_writes lk) = KInt <$> concat (snd <$> lk).
Proof.
  induction lk as [|[s ps] lk IH]; [done|].
  unfold label_writes in *. simpl. rewrite fmap_app. f_equal. exact IH.
Qed.

Lemma tuple_writes_members tk :
  concat (fst <$> tuple_writes tk) = KInt <$> concat (fst <$> tk).
Proof.
  induction tk as [|[t v] tk IH]; [done|].
  unfold tuple_writes in *. simpl. rewrite fmap_app. f_equal. exact IH.
Qed.

(** The only check of the two dictionary branches: the number of distinct
    members collected against [dim_len]. *)
Lemma checked_spec ws n :
  checked ws n =
    if decide (distinct (concat (fst <$> ws)) = n)
    then Ok (SDict (run_writes ([], []) ws).1)
    else Err AssertionError.
Proof.
  unfold checked. rewrite (checked_length ws).
  destruct (decide (distinct (concat (fst <$> ws)) = n)) as [Heq|Hne].
  - by rewrite bool_decide_eq_true_2.
  - by rewrite bool_decide_eq_false_2.
Qed.

Lemma check_dict_label_spec lk n :
  NoDup (fst <$> lk) →
  _check_dict (label_keyed lk) n =
    if decide (distinct (concat (snd <$> lk)) = n)
    then Ok (SDict (run_writes ([], []) (label_writes lk)).1)
    else Err AssertionError.
Proof.
  intros Hnd. rewrite check_dict_label, checked_spec by done.
  by rewrite label_writes_members, distinct_fmap by apply _.
Qed.

Lemma check_dict_tuple_spec tk n :
  _check_dict (tuple_keyed tk) n =
    if decide (distinct (concat (fst <$> tk)) = n)
    then Ok (SDict (run_writes ([], []) (tuple_writes tk)).1)
    else Err AssertionError.
Proof.
  rewrite check_dict_tuple, checked_spec.
  by rewrite tuple_writes_members, distinct_fmap by apply _.
Qed.

Lemma check_dict_seq_spec l n :
  _check_dict (SSeq l) n =
    if decide (length l = n) then Ok (SSeq l) else Err AssertionError.
Proof.
  simpl. destruct (decide (length l = n)).
  - by rewrite bool_decide_eq_true_2.
  - by rewrite bool_decide_eq_false_2.
Qed.

Lemma check_dict_collects s c n :
  collects s c →
  _check_dict s n = Err AssertionError ↔ c ≠ n.
Proof.
  intros [lk Hnd|tk].
  - rewrite check_dict_label_spec by done. case_decide; naive_solver.
  - rewrite check_dict_tuple_spec. case_decide; naive_solver.
Qed.

Lemma check_dict_validated s c n :
  validated s c →
  (_check_dict s n = Err AssertionError ↔ c ≠ n) ∧
  (c = n → ∃ s', _check_dict s n = Ok s').
Proof.
  intros [l|s' c' Hc].
  - rewrite check_dict_seq_spec. case_decide; naive_solver.
  - split; [by apply check_dict_collects|].
    destruct Hc as [lk Hnd|tk]; intros Hcn.
    + rewrite check_dict_label_spec, decide_True by done. eauto.
    + rewrite check_dict_tuple_spec, decide_True by done. eauto.
Qed.

(** ** Failures of normalization reach the caller *)

Lemma seq_getitem_nat {A} (l : list A) (i : nat) :
  seq_getitem l (Z.of_nat i) =
    match l !! i with Some x => Ok x | None => Err IndexError end.
Proof.
  unfold seq_getitem. destruct (decide (Z.of_nat i < 0)%Z); [lia|].
  destruct (decide (0 ≤ Z.of_nat i < Z.of_nat (length l))%Z) as [Hi|Hi].
  - by rewrite Nat2Z.id.
  - rewrite lookup_ge_None_2; [done | lia].
Qed.

Lemma seq_getitem_lookup {A} (l : list A) (i : nat) x :
  l !! i = Some x → seq_getitem l (Z.of_nat i) = Ok x.
Proof. intros H. by rewrite seq_getitem_nat, H. Qed.

Lemma elem_of_range i n : i ∈ range n ↔ i < n.
Proof. unfold range. rewrite elem_of_seq. lia. Qed.

Lemma normalize_groups_list_Err sh gs d s n :
  gs !! d = Some s → sh !! d = Some n → is_Err (_check_dict s n) →
  is_Err (normalize_groups sh (GList gs)).
Proof.
  intros Hs Hn Herr. simpl. apply is_Err_bind_l.
  apply (mapR_Err_elem _ _ d).
  - apply elem_of_range. by eapply lookup_lt_Some.
  - rewrite (seq_getitem_lookup _ _ _ Hs), (seq_getitem_lookup _ _ _ Hn).
    exact Herr.
Qed.

Lemma normalize_groups_dict_Err sh gd d s n :
  dict_get gd (KInt (Z.of_nat d)) = Some s → sh !! d = Some n →
  is_Err (_check_dict s n) →
  is_Err (normalize_groups sh (GDict gd)).
Proof.
  intros Hs Hn Herr. simpl. apply is_Err_bind_l.
  apply (mapR_Err_elem _ _ (KInt (Z.of_nat d))).
  - apply dec_stable. intros Hnot%dict_get_None. by rewrite Hs in Hnot.
  - unfold dict_getitem. rewrite Hs. simpl.
    rewrite (seq_getitem_lookup _ _ _ Hn). simpl.
    destruct Herr as [e ->]. by exists e.
Qed.

Lemma array2df_normalize_Err pd arr dn gs vn e :
  normalize_groups (shape arr) gs = Err e → array2df pd arr dn gs vn = Err e.
Proof.
  intros H. apply array2df_rows_Err. unfold array2df_rows. by rewrite H.
Qed.

Lemma array2df_normalize_is_Err pd arr dn gs vn :
  is_Err (normalize_groups (shape arr) gs) →
  ∃ e, normalize_groups (shape arr) gs = Err e ∧
       array2df pd arr dn gs vn = Err e.
Proof. intros [e He]. exists e. split; [done | by apply array2df_normalize_Err]. Qed.

(** ** What [_check_dict] validates *)

(** C10. A dictionary whose keys are neither all strings nor all tuples, a
    position-keyed one in particular, comes back as it is for every
    [dim_len]: nothing about it is checked. *)
Theorem check_dict_other_keys_unchanged d dim_len :
  forallb isinstance_str (dict_keys d) = false →
  forallb isinstance_tuple (dict_keys d) = false →
  _check_dict (SDict d) dim_len = Ok (SDict d).
Proof. intros Hstr Htup. simpl. by rewrite Hstr, Htup. Qed.

Lemma check_dict_other_keys_unchanged_witness :
  _check_dict (SDict [(KInt 0, lbl "a"); (KInt 7, lbl "b"); (KInt (-1), lbl "c")]) 2
  = Ok (SDict [(KInt 0, lbl "a"); (KInt 7, lbl "b"); (KInt (-1), lbl "c")]).
Proof. apply check_dict_other_keys_unchanged; reflexivity. Defined.

(** The same for keys of mixed types. *)
Example check_dict_mixed_keys :
  _check_dict (SDict [(KStr "A", ints [0; 1]); (KTuple [2], lbl "b")]%Z) 3
  = Ok (SDict [(KStr "A", ints [0; 1]); (KTuple [2], lbl "b")]%Z).
Proof. reflexivity. Qed.

Lemma check_dict_position_keyed pk dim_len :
  pk ≠ [] → _check_dict (position_keyed pk) dim_len = Ok (position_keyed pk).
Proof.
  intros Hne. destruct (position_keyed pk) as [d|] eqn:Hd; [|done].
  destruct (position_keyed_keys pk d Hne Hd) as [Hstr Htup].
  simpl. by rewrite Hstr, Htup.
Qed.

(** C6. A label-keyed or tuple-keyed specification for dimension [d] that
    mentions fewer or more than [shape[d]] distinct positions makes
    [_check_dict] raise [AssertionError], and [array2df] returns no table,
    whether [groups] is a list or a dict. *)
Theorem count_mismatch_fails pd arr dn vn (d n c : nat) s :
  shape arr !! d = Some n →
  collects s c → c ≠ n →
  _check_dict s n = Err AssertionError ∧
  (∀ gs, gs !! d = Some s → is_Err (array2df pd arr dn (GList gs) vn)) ∧
  (∀ gd, dict_get gd (KInt (Z.of_nat d)) = Some s →
         is_Err (array2df pd arr dn (GDict gd) vn)).
Proof.
  intros Hn Hc Hne.
  assert (_check_dict s n = Err AssertionError) as Hchk
    by by apply (check_dict_collects s c n).
  split; [done|]. split.
  - intros gs Hs.
    destruct (array2df_normalize_is_Err pd arr dn (GList gs) vn) as (e & _ & He).
    + eapply normalize_groups_list_Err; [done..|]. rewrite Hchk. by eexists.
    + by exists e.
  - intros gd Hs.
    destruct (array2df_normalize_is_Err pd arr dn (GDict gd) vn) as (e & _ & He).
    + eapply normalize_groups_dict_Err; [done..|]. rewrite Hchk. by eexists.
    + by exists e.
Qed.

Lemma count_mismatch_fails_witness :
  let s := label_keyed [("A", [0; 2]%Z); ("B", [1]%Z)] in
  _check_dict s 4 = Err AssertionError ∧
  (∀ gs, gs !! 0 = Some s →
         is_Err (array2df pandas_modern arr_4x3 NNone (GList gs) "value")) ∧
  (∀ gd, dict_get gd (KInt (Z.of_nat 0)) = Some s →
         is_Err (array2df pandas_modern arr_4x3 NNone (GDict gd) "value")).
Proof.
  apply (count_mismatch_fails pandas_modern arr_4x3 NNone "value" 0 4
           (distinct (concat (snd <$> [("A", [0; 2]%Z); ("B", [1]%Z)])))).
  - reflexivity.
  - apply collects_label. apply (bool_decide_unpack _). reflexivity.
  - vm_compute. lia.
Defined.

(** C3 as the specification words it does not hold. A position-keyed
    dictionary with three positions for a dimension of length 2, a
    label-keyed one that lists position 1 twice, and a sequence are all
    accepted, and a table is returned; a tuple-keyed one with a position out
    of range passes normalization. *)
Lemma miscovering_groups_accepted :
  (¬ ([0; 1; 2]%Z ≡ₚ positions 2) ∧
   ∃ df, array2df pandas_modern arr_2 NNone
           (GList [position_keyed [(0, lbl "a"); (1, lbl "b"); (2, lbl "c")]%Z])
           "value" = Ok df) ∧
  (¬ ([0; 1; 1]%Z ≡ₚ positions 2) ∧
   ∃ df, array2df pandas_modern arr_2 NNone
           (GList [label_keyed [("A", [0; 1]); ("B", [1])]%Z])
           "value" = Ok df) ∧
  (¬ ([0; 5]%Z ≡ₚ positions 2) ∧
   ∃ gs, normalize_groups (shape arr_2)
           (GList [tuple_keyed [([0; 5]%Z, lbl "a")]]) = Ok gs).
Proof.
  split_and!.
  - intros H%Permutation_length. done.
  - rewrite array2df_dtypes_only by apply pandas_modern_dtypes_only.
    eval_rows. eauto.
  - intros H. assert (NoDup [0; 1; 1]%Z) as Hnd.
    { rewrite H. unfold positions. apply NoDup_fmap_2; [apply _ | apply NoDup_seq]. }
    apply NoDup_cons in Hnd as [_ Hnd]. apply NoDup_cons in Hnd as [Hin _].
    apply Hin. by left.
  - rewrite array2df_dtypes_only by apply pandas_modern_dtypes_only.
    eval_rows. eauto.
  - intros H. assert (5%Z ∈ positions 2) as Hin.
    { rewrite <-H. right. by left. }
    unfold positions in Hin. simpl in Hin.
    by repeat (apply elem_of_cons in Hin as [?|Hin]; [done|]);
      apply elem_of_nil in Hin.
  - vm_compute. eauto.
Qed.

(** C3, as the code has it. For a sequence [_check_dict] compares its
    length with [shape[d]], for a label-keyed or tuple-keyed dictionary the
    number of distinct positions it mentions, and raises [AssertionError]
    exactly when the two differ; then normalization fails and [array2df]
    returns no table. Other dictionaries are not validated, and neither the
    range of the positions nor their multiplicity is looked at. *)
Theorem check_dict_validates_count s c n :
  validated s c →
  (_check_dict s n = Err AssertionError ↔ c ≠ n) ∧
  (c = n → ∃ s', _check_dict s n = Ok s') ∧
  (c ≠ n → ∀ pd arr dn gs vn d,
     gs !! d = Some s → shape arr !! d = Some n →
     ∃ e, normalize_groups (shape arr) (GList gs) = Err e ∧
          array2df pd arr dn (GList gs) vn = Err e).
Proof.
  intros Hv. destruct (check_dict_validated s c n Hv) as [Hiff Hok].
  split_and!; [done..|].
  intros Hne pd arr dn gs vn d Hs Hn.
  apply array2df_normalize_is_Err.
  eapply normalize_groups_list_Err; [done..|].
  exists AssertionError. by apply Hiff.
Qed.

Lemma check_dict_validates_count_witness :
  let s := tuple_keyed [([0; 2]%Z, lbl "abc"); ([1]%Z, lbl "d")] in
  (_check_dict s 4 = Err AssertionError ↔ 3 ≠ 4) ∧
  (3 = 4 → ∃ s', _check_dict s 4 = Ok s') ∧
  (3 ≠ 4 → ∀ pd arr dn gs vn d,
     gs !! d = Some s → shape arr !! d = Some 4 →
     ∃ e, normalize_groups (shape arr) (GList gs) = Err e ∧
          array2df pd arr dn (GList gs) vn = Err e).
Proof.
  apply (check_dict_validates_count
           (tuple_keyed [([0; 2]%Z, lbl "abc"); ([1]%Z, lbl "d")]) 3 4).
  apply validated_dict.
  exact (collects_tuple [([0; 2]%Z, lbl "abc"); ([1]%Z, lbl "d")]).
Defined.

(** ** Dtype inference failures *)

(** C8 as the specification words it does not hold: with neither call
    available, a populated table is lost to the exception of the fallback;
    and where only the fallback exists, the table returned is the one the
    fallback makes of it, not the populated table as it is. *)
Lemma dtype_inference_can_fail :
  ∃ df,
    array2df_rows arr_2x2 NNone GNone "value" = Ok df ∧
    array2df pandas_neither arr_2x2 NNone GNone "value" = Err AttributeError ∧
    ∀ convert,
      array2df (pandas_legacy convert) arr_2x2 NNone GNone "value" = convert df.
Proof. eexists. split_and!; [eval_rows; reflexivity | reflexivity | done]. Qed.

(** C8, as the code has it. Once the rows are populated, the result of
    [infer_objects] is returned if that call succeeds; if it raises, the
    exception is swallowed and [convert_objects(convert_numeric=True)] is
    called instead, whose result, table or exception, is the result of
    [array2df]. *)
Theorem dtype_inference_fallback pd arr dn gs vn df :
  array2df_rows arr dn gs vn = Ok df →
  (∀ df', infer_objects pd df = Ok df' → array2df pd arr dn gs vn = Ok df') ∧
  (∀ e, infer_objects pd df = Err e →
        array2df pd arr dn gs vn = convert_objects pd df) ∧
  (is_Err (array2df pd arr dn gs vn) ↔
     is_Err (infer_objects pd df) ∧ is_Err (convert_objects pd df)).
Proof.
  intros Hrows. unfold array2df. rewrite Hrows. simpl. unfold infer_dtypes.
  destruct (infer_objects pd df) as [df'|e].
  - split_and!; [by intros ? [= <-] | done |].
    split; [by intros [? ?] | by intros [[? ?] _]].
  - split_and!; [done.. |]. split; [|by intros [_ ?]].
    intros H. split; [by eexists | done].
Qed.

Lemma dtype_inference_fallback_witness :
  let pd := pandas_legacy Ok in
  let df := DataFrame_new ["value"] 1 in
  let arr := {| shape := []; data := [5%Z] |} in
  (∀ df', infer_objects pd (loc_set df 0 "value" (Num 5)) = Ok df' →
          array2df pd arr NNone GNone "value" = Ok df') ∧
  (∀ e, infer_objects pd (loc_set df 0 "value" (Num 5)) = Err e →
        array2df pd arr NNone GNone "value"
        = convert_objects pd (loc_set df 0 "value" (Num 5))) ∧
  (is_Err (array2df pd arr NNone GNone "value") ↔
     is_Err (infer_objects pd (loc_set df 0 "value" (Num 5))) ∧
     is_Err (convert_objects pd (loc_set df 0 "value" (Num 5)))).
Proof.
  apply (dtype_inference_fallback (pandas_legacy Ok)
           {| shape := []; data := [5%Z] |} NNone GNone "value").
  reflexivity.
Defined.

(** ** More than eight dimensions under the defaults *)

Lemma mapR_first_error {A B} (f : A → result B) l e :
  (∀ x, x ∈ l → f x = Err e ∨ ∃ y, f x = Ok y) →
  Exists (fun x => f x = Err e) l →
  mapR f l = Err e.
Proof.
  induction l as [|x l IH]; intros Hf Hex; [by apply Exists_nil in Hex|].
  simpl. destruct (Hf x) as [Hx|[y Hx]]; [by left | by rewrite Hx |].
  rewrite Hx. simpl. rewrite IH; [done | |].
  - intros z Hz. apply Hf. by right.
  - apply Exists_cons in Hex as [Hex|Hex]; [congruence | done].
Qed.

Lemma mapR_all_Ok {A B} (f : A → result B) l :
  (∀ x, x ∈ l → ∃ y, f x = Ok y) → ∃ ys, mapR f l = Ok ys.
Proof.
  induction l as [|x l IH]; intros Hf; simpl; [by eexists|].
  destruct (Hf x) as [y ->]; [by left|].
  destruct IH as [ys ->]; [|by eexists].
  intros z Hz. apply Hf. by right.
Qed.

Lemma dim_letters_all (n_dim : nat) : 8 ≤ n_dim → dim_letters n_dim = chars "ijklmnop".
Proof. intros H. unfold dim_letters. by apply take_ge. Qed.

(** The inner comprehension of the default groups for dimension [dim] of
    length [n]: beyond the eighth letter, it fails as soon as it has an
    element to build. *)
Lemma default_group_inner (n_dim dim n : nat) :
  8 ≤ n_dim →
  let g := mapR (fun i =>
                   l <- seq_getitem (dim_letters n_dim) (Z.of_nat dim) ;;
                   Ok (KInt (Z.of_nat i), VKey (KStr (l +:+ str i))))
                (range n) in
  if decide (dim < 8 ∨ n = 0) then ∃ d, g = Ok d else g = Err IndexError.
Proof.
  intros Hn. simpl. rewrite dim_letters_all by done.
  rewrite seq_getitem_nat.
  destruct (decide (dim < 8 ∨ n = 0)) as [[Hlt| ->]|Hge].
  - destruct (lookup_lt_is_Some_2 (chars "ijklmnop") dim) as [l ->]; [done|].
    apply mapR_all_Ok. intros i _. by eexists.
  - by eexists.
  - rewrite lookup_ge_None_2 by (simpl; lia).
    destruct n as [|n]; [lia | done].
Qed.

Lemma default_groups_over_8 sh :
  8 < length sh →
  (Exists (fun n => 0 < n) (drop 8 sh) → default_groups sh = Err IndexError) ∧
  (Forall (fun n => n = 0) (drop 8 sh) → ∃ gs, default_groups sh = Ok gs).
Proof.
  intros Hlen. unfold default_groups.
  set (F := fun dim : nat => bind (seq_getitem sh (Z.of_nat dim)) _).
  assert (∀ dim n, sh !! dim = Some n →
            if decide (dim < 8 ∨ n = 0)
            then ∃ y, F dim = Ok y else F dim = Err IndexError) as HF.
  { intros dim n Hdim. unfold F. rewrite (seq_getitem_lookup _ _ _ Hdim). simpl.
    pose proof (default_group_inner (length sh) dim n ltac:(lia)) as Hin.
    simpl in Hin. destruct (decide (dim < 8 ∨ n = 0)).
    - destruct Hin as [d ->]. by eexists.
    - by rewrite Hin. }
  split.
  - intros (n & Hin & Hpos)%Exists_exists.
    apply list_elem_of_lookup_1 in Hin as [i Hi]. rewrite lookup_drop in Hi.
    rewrite (mapR_first_error F (range (length sh)) IndexError); [done| |].
    + intros dim Hdim%elem_of_range.
      destruct (lookup_lt_is_Some_2 sh dim Hdim) as [m Hm].
      specialize (HF dim m Hm). destruct (decide (dim < 8 ∨ m = 0)); auto.
    + apply Exists_exists. exists (8 + i). split.
      * apply elem_of_range. by eapply lookup_lt_Some.
      * specialize (HF (8 + i) n Hi).
        rewrite decide_False in HF by lia. done.
  - intros Hall.
    destruct (mapR_all_Ok F (range (length sh))) as [d ->]; [|by eexists].
    intros dim Hdim%elem_of_range.
    destruct (lookup_lt_is_Some_2 sh dim Hdim) as [m Hm].
    specialize (HF dim m Hm). rewrite decide_True in HF; [done|].
    destruct (decide (dim < 8)); [by left | right].
    rewrite Forall_lookup in Hall. apply (Hall (dim - 8) m).
    rewrite lookup_drop. rewrite <-Hm. f_equal. lia.
Qed.

Lemma default_dim_names_over_8 (n_dim : nat) :
  8 < n_dim →
  mapR (names_getitem (default_dim_names n_dim)) (range n_dim) = Err KeyError.
Proof.
  intros Hn. apply mapR_first_error.
  - intros i _. unfold default_dim_names, names_getitem, dict_getitem.
    destruct (dict_get _ _); eauto.
  - apply Exists_exists. exists 8. split; [by apply elem_of_range|].
    unfold default_dim_names, default_dim_names_dict.
    rewrite dim_letters_all by lia. reflexivity.
Qed.

(** C7 as the specification words it does not hold: a nine-dimensional
    array whose ninth dimension is empty fails with a key error, on the
    missing default name of that dimension. *)
Lemma array2df_9d_empty_KeyError :
  8 < ndim arr_9d ∧
  array2df pandas_modern arr_9d NNone GNone "value" = Err KeyError.
Proof. split; [unfold ndim; simpl; lia | reflexivity]. Qed.

(** C7, as the code has it. With default [dim_names] and [groups], an array
    of more than 8 dimensions never yields a table: [array2df] raises
    [IndexError] when some dimension past the eighth is non-empty (its
    letter is looked up while its default labels are built), and [KeyError]
    otherwise (the default names stop at the eighth dimension). *)
Theorem array2df_default_over_8_dims pd arr vn :
  8 < ndim arr →
  (Exists (fun n => 0 < n) (drop 8 (shape arr)) →
     array2df pd arr NNone GNone vn = Err IndexError) ∧
  (Forall (fun n => n = 0) (drop 8 (shape arr)) →
     array2df pd arr NNone GNone vn = Err KeyError).
Proof.
  intros Hn. destruct (default_groups_over_8 (shape arr) Hn) as [Hidx Hkey].
  split.
  - intros Hex. apply array2df_normalize_Err. simpl. by apply Hidx.
  - intros Hall. apply array2df_rows_Err. unfold array2df_rows. simpl.
    destruct (Hkey Hall) as [gs ->]. simpl.
    by rewrite default_dim_names_over_8.
Qed.

Lemma array2df_default_over_8_dims_witness :
  let arr := {| shape := [1; 1; 1; 1; 1; 1; 1; 1; 2]; data := [3; 4]%Z |} in
  (Exists (fun n => 0 < n) (drop 8 (shape arr)) →
     array2df pandas_modern arr NNone GNone "value" = Err IndexError) ∧
  (Forall (fun n => n = 0) (drop 8 (shape arr)) →
     array2df pandas_modern arr NNone GNone "value" = Err KeyError).
Proof.
  apply (array2df_default_over_8_dims pandas_modern
           {| shape := [1; 1; 1; 1; 1; 1; 1; 1; 2]; data := [3; 4]%Z |} "value").
  unfold ndim. simpl. lia.
Defined.

(** ** The index space in row-major order *)

Lemma length_bind_blocks {A B} (f : A → list B) (l : list A) (m : nat) :
  (∀ x, length (f x) = m) → length (l ≫= f) = length l * m.
Proof.
  intros Hf. induction l as [|x l IH]; [done|].
  rewrite bind_cons, length_app, Hf, IH. done.
Qed.

Lemma length_product sh : length (product (range <$> sh)) = prod_shape sh.
Proof.
  induction sh as [|n sh IH]; [done|].
  cbn [fmap list_fmap product prod_shape foldr].
  rewrite (length_bind_blocks _ _ (prod_shape sh)).
  - unfold range. by rewrite length_seq.
  - intros x. by rewrite length_fmap.
Qed.

Lemma product_elem_length sh adr :
  adr ∈ product (range <$> sh) → length adr = length sh.
Proof.
  revert adr. induction sh as [|n sh IH]; intros adr; simpl.
  - by intros ->%list_elem_of_singleton.
  - intros (x & Hadr & _)%list_elem_of_bind.
    apply list_elem_of_fmap in Hadr as (adr' & -> & Hadr'). simpl.
    f_equal. by apply IH.
Qed.

(** Blocks of equal length laid end to end: element [k] is element
    [k mod m] of block [k / m]. *)
Lemma lookup_blocks (L : list (list nat)) (j n k : nat) :
  k < n * length L →
  (seq j n ≫= (fun x => (x ::.) <$> L)) !! k
  = ((j + k / length L) ::.) <$> L !! (k mod length L).
Proof.
  set (m := length L). revert j k. induction n as [|n IH]; intros j k Hk; [lia|].
  assert (0 < m) as Hm by (destruct m; lia).
  cbn [seq]. rewrite bind_cons. destruct (decide (k < m)) as [Hlt|Hge].
  - rewrite lookup_app_l by (by rewrite length_fmap).
    rewrite Nat.div_small, Nat.mod_small, Nat.add_0_r by done.
    by rewrite list_lookup_fmap.
  - rewrite lookup_app_r by (rewrite length_fmap; fold m; lia).
    rewrite length_fmap. fold m. rewrite IH by lia.
    assert (k = (k - m) + 1 * m) as Hk' by lia.
    assert (k / m = (k - m) / m + 1) as ->
      by (rewrite Hk' at 1; apply Nat.div_add; lia).
    assert (k mod m = (k - m) mod m) as ->
      by (rewrite Hk' at 1; apply Nat.Div0.mod_add).
    do 2 f_equal. lia.
Qed.

(** Row [k] of the iteration is the [k]-th multi-index in row-major
    order. *)
Lemma product_lookup sh k :
  k < prod_shape sh →
  product (range <$> sh) !! k = Some (unravel_index k sh).
Proof.
  revert k. induction sh as [|n sh IH]; intros k Hk.
  - simpl in *. by replace k with 0 by lia.
  - cbn [fmap list_fmap product unravel_index].
    change (prod_shape (n :: sh)) with (n * prod_shape sh) in Hk.
    pose proof (length_product sh) as Hlen.
    change (range n) with (seq 0 n). rewrite lookup_blocks by (rewrite Hlen; lia).
    rewrite Hlen. simpl. rewrite IH; [done|].
    apply Nat.mod_upper_bound. destruct (prod_shape sh); lia.
Qed.

(** ** The main loop in closed form *)

Lemma insert_alter_eq {A} (f : A → A) (l : list A) i x :
  <[i:=x]> (alter f i l) = <[i:=x]> l.
Proof. revert i. induction l as [|y l IH]; intros [|i]; f_equal/=; auto. Qed.

Lemma alter_lookup_eq {A} (f : A → A) (l : list A) i x :
  l !! i = Some x → alter f i l !! i = Some (f x).
Proof. revert i. induction l as [|y l IH]; intros [|i]; naive_solver. Qed.

(** The inner loop touches row [idx] only. *)
Lemma fill_dims_closed dn gs idx cols l : ∀ rs row,
  rs !! idx = Some row →
  foldR (fun df '(dim_idx, dim_adr) =>
           g <- groups_getitem gs dim_idx ;;
           lab <- spec_getitem g dim_adr ;;
           name <- names_getitem dn dim_idx ;;
           Ok (loc_set df idx name (Obj lab)))
        {| columns := cols; rows := rs |} l
  = (row' <- melt_dims dn gs cols row l ;;
     Ok {| columns := cols; rows := <[idx:=row']> rs |}).
Proof.
  unfold melt_dims.
  induction l as [|[di da] l IH]; intros rs row Hrow; simpl.
  - by rewrite list_insert_id.
  - destruct (groups_getitem gs di) as [g|e]; simpl; [|done].
    destruct (spec_getitem g da) as [lab|e]; simpl; [|done].
    destruct (names_getitem dn di) as [name|e]; simpl; [|done].
    unfold loc_set. simpl.
    rewrite (IH _ (row_set cols name (Obj lab) row))
      by by apply alter_lookup_eq.
    destruct (foldR _ _ l) as [row'|e]; simpl; [|done].
    by rewrite insert_alter_eq.
Qed.

Lemma fill_rows_closed arr dn gs vn cols l : ∀ finished j,
  length finished = j →
  foldR (fun df '(idx, adr) =>
           x <- getitem arr adr ;;
           fill_dims dn gs idx (loc_set df idx vn (Num x)) adr)
        {| columns := cols;
           rows := finished ++ replicate (length l) (replicate (length cols) NaN) |}
        (zip (seq j (length l)) l)
  = (rs <- mapR (melt_row arr dn gs vn cols) l ;;
     Ok {| columns := cols; rows := finished ++ rs |}).
Proof.
  induction l as [|adr l IH]; intros finished j Hj; simpl.
  - by rewrite app_nil_r.
  - unfold melt_row at 1.
    destruct (getitem arr adr) as [x|e]; simpl; [|done].
    subst j. unfold loc_set, fill_dims. cbn [columns rows].
    rewrite alter_app_r_alt, Nat.sub_diag by done. cbn [alter list_alter].
    rewrite (fill_dims_closed dn gs (length finished) cols _ _
               (row_set cols vn (Num x) (replicate (length cols) NaN)))
      by (by apply list_lookup_middle).
    destruct (melt_dims _ _ _ _ _) as [row'|e]; simpl; [|done].
    rewrite insert_app_r_alt, Nat.sub_diag by done. simpl.
    rewrite cons_middle, app_assoc.
    etrans.
    { apply (IH (finished ++ [row']) (S (length finished))).
      rewrite length_app. simpl. lia. }
    destruct (mapR _ l) as [rs|e]; simpl; [|done].
    by rewrite <-app_assoc.
Qed.

Lemma array2df_rows_closed arr dn gs vn :
  array2df_rows arr dn gs vn =
    (let dn' := match dn with NNone => default_dim_names (ndim arr) | _ => dn end in
     gs' <- normalize_groups (shape arr) gs ;;
     dims <- mapR (names_getitem dn') (range (ndim arr)) ;;
     rs <- mapR (melt_row arr dn' gs' vn (vn :: dims))
                (product (range <$> shape arr)) ;;
     Ok {| columns := vn :: dims; rows := rs |}).
Proof.
  unfold array2df_rows.
  destruct (normalize_groups (shape arr) gs) as [gs'|e]; simpl; [|done].
  destruct (mapR _ (range (ndim arr))) as [dims|e]; simpl; [|done].
  unfold fill_rows, enumerate, DataFrame_new, size.
  rewrite <-length_product.
  exact (fill_rows_closed arr _ gs' vn (vn :: dims) _ [] 0 eq_refl).
Qed.

(** ** Shape of the table and the value column *)

Lemma row_set_length cols name v row :
  length row = length cols → length (row_set cols name v row) = length cols.
Proof. intros H. unfold row_set. rewrite length_zip_with. lia. Qed.

Lemma melt_dims_length dn gs cols l : ∀ row row',
  length row = length cols →
  melt_dims dn gs cols row l = Ok row' → length row' = length cols.
Proof.
  unfold melt_dims.
  induction l as [|[di da] l IH]; intros row row' Hlen; simpl.
  - by intros [= <-].
  - destruct (groups_getitem gs di) as [g|e]; simpl; [|done].
    destruct (spec_getitem g da) as [lab|e]; simpl; [|done].
    destruct (names_getitem dn di) as [name|e]; simpl; [|done].
    apply IH. by apply row_set_length.
Qed.

Lemma melt_row_length arr dn gs vn cols adr row :
  melt_row arr dn gs vn cols adr = Ok row → length row = length cols.
Proof.
  unfold melt_row. intros (x & _ & Hrow)%bind_Ok.
  apply melt_dims_length in Hrow; [done|].
  apply row_set_length. by rewrite length_replicate.
Qed.

(** Writing under another label leaves the first column alone. *)
Lemma melt_dims_head dn gs vn dims l : ∀ c0 rest row',
  (∀ di da name, (di, da) ∈ l → names_getitem dn di = Ok name → name ≠ vn) →
  melt_dims dn gs (vn :: dims) (c0 :: rest) l = Ok row' →
  row' !! 0 = Some c0.
Proof.
  unfold melt_dims.
  induction l as [|[di da] l IH]; intros c0 rest row' Hnames; simpl.
  - by intros [= <-].
  - destruct (groups_getitem gs di) as [g|e]; simpl; [|done].
    destruct (spec_getitem g da) as [lab|e]; simpl; [|done].
    destruct (names_getitem dn di) as [name|e] eqn:Hname; simpl; [|done].
    rewrite decide_False.
    + apply IH. intros di' da' name' Hin. apply (Hnames di' da'). by right.
    + intros ->. by apply (Hnames di da name); [left|..].
Qed.

Lemma enumerate_elem {A} (l : list A) i x :
  (i, x) ∈ enumerate l → i < length l.
Proof.
  unfold enumerate. intros Hin.
  apply list_elem_of_lookup_1 in Hin as [j Hj].
  apply lookup_zip_with_Some in Hj as (i' & x' & [= <- <-] & Hi & _).
  apply lookup_seq in Hi as [-> ?]. lia.
Qed.

Lemma melt_row_value arr dn gs vn dims adr row :
  mapR (names_getitem dn) (range (length adr)) = Ok dims →
  vn ∉ dims →
  melt_row arr dn gs vn (vn :: dims) adr = Ok row →
  ∃ x, getitem arr adr = Ok x ∧ row !! 0 = Some (Num x).
Proof.
  intros Hdims Hvn. unfold melt_row. intros (x & Hx & Hrow)%bind_Ok.
  exists x. split; [done|]. simpl in Hrow. rewrite decide_True in Hrow by done.
  eapply melt_dims_head; [|exact Hrow].
  intros di da name Hin%enumerate_elem Hname ->.
  destruct (mapR_lookup _ _ _ di di Hdims) as (y & Hy & Hlook).
  { by apply lookup_seq_lt. }
  rewrite Hname in Hy. injection Hy as <-.
  apply Hvn. by eapply list_elem_of_lookup_2.
Qed.

(** C1 as the specification words it does not hold. With a dimension named
    like the value column, both columns of that name end up holding the
    dimension's label, which is written last. *)
Lemma array2df_value_column_overwritten :
  ∃ df,
    array2df pandas_modern arr_1x1 (NList ["value"; "x"]) GNone "value" = Ok df ∧
    getitem arr_1x1 (unravel_index 0 (shape arr_1x1)) = Ok 5%Z ∧
    rows df !! 0 = Some [Obj (lbl "i0"); Obj (lbl "i0"); Obj (lbl "j0")].
Proof.
  rewrite array2df_dtypes_only by apply pandas_modern_dtypes_only.
  eval_rows. eexists. by split_and!.
Qed.

(** C1, as the code has it. A table that [array2df] returns has
    [product(shape)] rows and [N + 1] columns, in every row too; and if no
    dimension column is named like the value column, row [k] holds in the
    value column the array element at the [k]-th multi-index in row-major
    order. *)
Theorem array2df_table_shape_and_values pd arr dn gs vn df :
  keeps_contents pd →
  array2df pd arr dn gs vn = Ok df →
  length (rows df) = prod_shape (shape arr) ∧
  length (columns df) = ndim arr + 1 ∧
  Forall (fun row => length row = ndim arr + 1) (rows df) ∧
  (vn ∉ tail (columns df) →
   ∀ k, k < prod_shape (shape arr) →
     ∃ row x, rows df !! k = Some row ∧
              getitem arr (unravel_index k (shape arr)) = Ok x ∧
              row !! 0 = Some (Num x)).
Proof.
  intros Hpd Hdf. apply (array2df_Ok_rows _ _ _ _ _ _ Hpd) in Hdf.
  rewrite array2df_rows_closed in Hdf. cbn zeta in Hdf.
  apply bind_Ok in Hdf as (gs' & _ & Hdf).
  apply bind_Ok in Hdf as (dims & Hdims & Hdf).
  apply bind_Ok in Hdf as (rs & Hrs & [= <-]). cbn [columns rows tail].
  pose proof (mapR_length _ _ _ Hdims) as Hlen_dims.
  unfold range in Hlen_dims. rewrite length_seq in Hlen_dims.
  split_and!.
  - by rewrite (mapR_length _ _ _ Hrs), length_product.
  - simpl. lia.
  - apply Forall_lookup. intros k row Hk.
    destruct (lookup_lt_is_Some_2 (product (range <$> shape arr)) k) as [adr Hadr].
    { rewrite <-(mapR_length _ _ _ Hrs). by eapply lookup_lt_Some. }
    destruct (mapR_lookup _ _ _ _ _ Hrs Hadr) as (row' & Hrow & Hk').
    rewrite Hk in Hk'. injection Hk' as <-.
    apply melt_row_length in Hrow. simpl in Hrow. lia.
  - intros Hvn k Hk.
    pose proof (product_lookup _ _ Hk) as Hadr.
    destruct (mapR_lookup _ _ _ _ _ Hrs Hadr) as (row & Hrow & Hlook).
    apply melt_row_value in Hrow as (x & Hx & H0); [by eauto | | done].
    rewrite (product_elem_length (shape arr)); [done|].
    by eapply list_elem_of_lookup_2.
Qed.

Lemma array2df_table_shape_and_values_witness :
  ∃ df,
    array2df pandas_modern arr_4x3 (NList ["first"; "second"]) groups_4x3
      "array_value" = Ok df ∧
    length (rows df) = prod_shape (shape arr_4x3) ∧
    length (columns df) = ndim arr_4x3 + 1 ∧
    Forall (fun row => length row = ndim arr_4x3 + 1) (rows df) ∧
    ("array_value" ∉ tail (columns df) →
     ∀ k, k < prod_shape (shape arr_4x3) →
       ∃ row x, rows df !! k = Some row ∧
                getitem arr_4x3 (unravel_index k (shape arr_4x3)) = Ok x ∧
                row !! 0 = Some (Num x)).
Proof.
  eexists. split; [reflexivity|].
  apply (array2df_table_shape_and_values pandas_modern arr_4x3
           (NList ["first"; "second"]) groups_4x3 "array_value").
  - intros df df' [= <-]. reflexivity.
  - reflexivity.
Defined.

(** ** The three encodings normalize to the same mapping *)

(** The last assignment to a key wins; here all assignments to a key store
    the value [c] prescribes. *)
Lemma dict_get_assignments (c : key → option value) asg : ∀ d0 k,
  (∀ m v, (m, v) ∈ asg → c m = Some v) →
  dict_get (foldl (fun d '(m, v) => dict_set d m v) d0 asg) k
  = if decide (k ∈ asg.*1) then c k else dict_get d0 k.
Proof.
  induction asg as [|[m v] asg IH]; intros d0 k Hc; cbn [foldl].
  - rewrite decide_False; [done | apply not_elem_of_nil].
  - rewrite IH by (intros m' v' Hin; apply Hc; by right).
    cbn [fmap list_fmap fst].
    rewrite dict_get_set.
    destruct (decide (k ∈ asg.*1)) as [Hin|Hnin].
    + rewrite decide_True; [done | by right].
    + destruct (decide (m = k)) as [->|Hne].
      * rewrite decide_True by by left. symmetry. apply Hc. by left.
      * rewrite decide_False; [done|]. rewrite not_elem_of_cons. naive_solver.
Qed.

Lemma assignments_keys ws : (assignments ws).*1 = concat (ws.*1).
Proof.
  unfold assignments. induction ws as [|[ms v] ws IH]; [done|].
  rewrite bind_cons, fmap_app. cbn [fmap list_fmap concat fst]. f_equal; [|done].
  rewrite <-list_fmap_compose. apply list_fmap_id.
Qed.

Lemma elem_of_assignments ws m v :
  (m, v) ∈ assignments ws ↔ ∃ ms, (ms, v) ∈ ws ∧ m ∈ ms.
Proof.
  unfold assignments. rewrite list_elem_of_bind. split.
  - intros ([ms v'] & Hin & Hws). apply list_elem_of_fmap in Hin as (m' & [= -> ->] & Hm).
    eauto.
  - intros (ms & Hws & Hm). exists (ms, v). split; [|done].
    apply list_elem_of_fmap. eauto.
Qed.

Lemma elem_of_positions n p : p ∈ positions n ↔ (0 ≤ p < Z.of_nat n)%Z.
Proof.
  unfold positions. rewrite list_elem_of_fmap. setoid_rewrite elem_of_seq. split.
  - intros (i & -> & Hi). lia.
  - intros Hp. exists (Z.to_nat p). lia.
Qed.

Lemma NoDup_positions n : NoDup (positions n).
Proof. apply NoDup_fmap_2; [apply _ | apply NoDup_seq]. Qed.

Lemma length_positions n : length (positions n) = n.
Proof. unfold positions. by rewrite length_fmap, length_seq. Qed.

Lemma distinct_NoDup {A} `{EqDecision A} (l : list A) :
  NoDup l → distinct l = length l.
Proof.
  intros Hnd. unfold distinct. apply Permutation_length, NoDup_Permutation.
  - apply NoDup_remove_dups.
  - done.
  - intros x. apply elem_of_remove_dups.
Qed.

Lemma distinct_positions l n : l ≡ₚ positions n → distinct l = n.
Proof.
  intros Hl. rewrite distinct_NoDup.
  - by rewrite Hl, length_positions.
  - rewrite Hl. apply NoDup_positions.
Qed.

Lemma canonical_Some f n k v :
  canonical f n k = Some v → ∃ p, k = KInt p ∧ p ∈ positions n.
Proof.
  destruct k as [p| |]; simpl; [|done..].
  case_decide; [|done]. intros _. exists p. split; [done|].
  by apply elem_of_positions.
Qed.

Lemma canonical_position f n p :
  p ∈ positions n → canonical f n (KInt p) = Some (lbl (f (Z.to_nat p))).
Proof. intros Hp%elem_of_positions. simpl. by rewrite decide_True. Qed.

(** A run of assignments that covers the positions and agrees with [f]
    builds the canonical mapping. *)
Lemma run_writes_canonical f n ws :
  (∃ ps, concat (ws.*1) = KInt <$> ps ∧ ps ≡ₚ positions n) →
  (∀ ms v m, (ms, v) ∈ ws → m ∈ ms → canonical f n m = Some v) →
  ∀ k, dict_get (run_writes ([], []) ws).1 k = canonical f n k.
Proof.
  intros (ps & Hkeys & Hps) Hval k. rewrite run_writes_eq. simpl.
  rewrite (dict_get_assignments (canonical f n)).
  - rewrite assignments_keys, Hkeys. case_decide as Hk; [done|]. simpl.
    destruct (canonical f n k) as [v|] eqn:Hc; [|done].
    apply canonical_Some in Hc as (p & -> & Hp). destruct Hk.
    apply list_elem_of_fmap_2. by rewrite Hps.
  - intros m v (ms & Hws & Hm)%elem_of_assignments. by eapply Hval.
Qed.

Lemma elem_of_concat {A} (ls : list (list A)) x :
  x ∈ concat ls ↔ ∃ l, l ∈ ls ∧ x ∈ l.
Proof.
  rewrite list_elem_of_In, in_concat.
  by setoid_rewrite list_elem_of_In.
Qed.

Lemma check_dict_encodes f n s :
  encodes f n s →
  ∃ d, _check_dict s n = Ok (SDict d) ∧ ∀ k, dict_get d k = canonical f n k.
Proof.
  intros [pk Hkeys Hval|lk Hnd Hpos Hval|tk Hnd Hpos Hval].
  - destruct (decide (pk = [])) as [->|Hne].
    + simpl in Hkeys. symmetry in Hkeys. apply Permutation_nil_r in Hkeys.
      destruct n; [|done]. exists []. split; [done|].
      intros [p| |]; simpl; [|done..]. rewrite decide_False; [done | lia].
    + rewrite check_dict_position_keyed by done. eexists. split; [done|].
      intros k. unfold position_keyed.
      set (d := (fun '(p, v) => (KInt p, v)) <$> pk).
      assert (dict_keys d = KInt <$> pk.*1) as Hd.
      { unfold dict_keys, d. rewrite <-!list_fmap_compose.
        apply list_fmap_ext. by intros i [p v] _. }
      assert (NoDup (dict_keys d)) as Hndk.
      { rewrite Hd. apply NoDup_fmap_2; [apply _|]. rewrite Hkeys.
        apply NoDup_positions. }
      destruct (canonical f n k) as [v'|] eqn:Hc.
      * apply canonical_Some in Hc as Hk. destruct Hk as (p & -> & Hp).
        rewrite canonical_position in Hc by done. injection Hc as <-.
        pose proof Hp as Hp'. rewrite <-Hkeys in Hp'.
        apply list_elem_of_fmap in Hp' as ([p' v] & Heq & Hin).
        simpl in Heq. subst p'. rewrite <-(Hval _ _ Hin).
        apply dict_get_elem; [done|]. apply list_elem_of_fmap. by exists (p, v).
      * apply dict_get_None. rewrite Hd.
        intros (p & -> & Hp)%list_elem_of_fmap. rewrite Hkeys in Hp.
        by rewrite canonical_position in Hc.
  - rewrite check_dict_label_spec by done.
    rewrite decide_True by by apply distinct_positions.
    eexists. split; [done|]. apply run_writes_canonical.
    + exists (concat lk.*2). split; [apply label_writes_members | done].
    + intros ms v m Hws Hm. unfold label_writes in Hws.
      apply list_elem_of_fmap in Hws as ([s0 ps] & [= -> ->] & Hin).
      apply list_elem_of_fmap in Hm as (p & -> & Hp).
      assert (p ∈ positions n) as Hpn.
      { rewrite <-Hpos. apply elem_of_concat. exists ps. split; [|done].
        apply list_elem_of_fmap. by exists (s0, ps). }
      rewrite canonical_position by done. by rewrite (Hval s0 ps p).
  - rewrite check_dict_tuple_spec.
    rewrite decide_True by by apply distinct_positions.
    eexists. split; [done|]. apply run_writes_canonical.
    + exists (concat tk.*1). split; [apply tuple_writes_members | done].
    + intros ms v m Hws Hm. unfold tuple_writes in Hws.
      apply list_elem_of_fmap in Hws as ([t v'] & [= -> ->] & Hin).
      apply list_elem_of_fmap in Hm as (p & -> & Hp).
      assert (p ∈ positions n) as Hpn.
      { rewrite <-Hpos. apply elem_of_concat. exists t. split; [|done].
        apply list_elem_of_fmap. by exists (t, v'). }
      rewrite canonical_position by done. by rewrite (Hval t v' p).
Qed.

(** ** The table depends on the groups through their lookups only *)

Lemma bind_assoc {A B C} (m : result A) (f : A → result B) (g : B → result C) :
  bind (bind m f) g = bind m (fun a => bind (f a) g).
Proof. by destruct m. Qed.

Lemma melt_dims_ext dn gs1 gs2 cols l :
  (∀ di da, group_label gs1 di da = group_label gs2 di da) →
  ∀ row, melt_dims dn gs1 cols row l = melt_dims dn gs2 cols row l.
Proof.
  intros Hgs. unfold melt_dims.
  induction l as [|[di da] l IH]; intros row; simpl; [done|].
  rewrite <-!(bind_assoc (groups_getitem _ di) (fun g => spec_getitem g da)).
  fold (group_label gs1 di da). fold (group_label gs2 di da). rewrite Hgs.
  destruct (group_label gs2 di da) as [lab|e]; simpl; [|done].
  destruct (names_getitem dn di) as [name|e]; simpl; [|done].
  apply IH.
Qed.

Lemma array2df_rows_groups_ext arr dn gs1 gs2 vn gs1' gs2' :
  normalize_groups (shape arr) gs1 = Ok gs1' →
  normalize_groups (shape arr) gs2 = Ok gs2' →
  (∀ di da, group_label gs1' di da = group_label gs2' di da) →
  array2df_rows arr dn gs1 vn = array2df_rows arr dn gs2 vn.
Proof.
  intros H1 H2 Hgs. rewrite !array2df_rows_closed, H1, H2. simpl.
  destruct (mapR _ (range (ndim arr))) as [dims|e]; simpl; [|done].
  erewrite mapR_ext; [done|].
  intros adr _. unfold melt_row.
  destruct (getitem arr adr) as [x|e]; simpl; [|done].
  by apply melt_dims_ext.
Qed.

Lemma mapR_seq_ext {A B} (f : nat → result B) (g : A → result B) l : ∀ j,
  (∀ i x, l !! i = Some x → f (j + i) = g x) →
  mapR f (seq j (length l)) = mapR g l.
Proof.
  induction l as [|x l IH]; intros j Hfg; simpl; [done|].
  rewrite <-(Hfg 0 x), Nat.add_0_r by done.
  rewrite (IH (S j)); [done|].
  intros i y Hi. rewrite <-(Hfg (S i) y) by done. f_equal. lia.
Qed.

(** The list comprehension of line 339, over the specifications paired
    with their dimension's length. *)
Lemma normalize_groups_list sh gs :
  length gs ≤ length sh →
  normalize_groups sh (GList gs) =
    (l' <- mapR (fun '(g, n) => _check_dict g n) (zip gs sh) ;; Ok (GList l')).
Proof.
  intros Hlen. simpl. f_equal. unfold range.
  replace (length gs) with (length (zip gs sh))
    by (rewrite length_zip_with; lia).
  apply mapR_seq_ext. intros i [g n] Hi. simpl.
  apply lookup_zip_with_Some in Hi as (g' & n' & [= <- <-] & Hg & Hn).
  by rewrite (seq_getitem_lookup _ _ _ Hg), (seq_getitem_lookup _ _ _ Hn).
Qed.

Lemma same_mappings_normalize sh gs1 gs2 :
  same_mappings sh gs1 gs2 →
  ∃ ds1 ds2,
    mapR (fun '(g, n) => _check_dict g n) (zip gs1 sh) = Ok (SDict <$> ds1) ∧
    mapR (fun '(g, n) => _check_dict g n) (zip gs2 sh) = Ok (SDict <$> ds2) ∧
    Forall2 dict_same ds1 ds2.
Proof.
  induction 1 as [|n s1 s2 sh gs1 gs2 (f & Hs1 & Hs2) _ (ds1 & ds2 & H1 & H2 & Hds)].
  - by exists [], [].
  - destruct (check_dict_encodes f n s1 Hs1) as (d1 & Hd1 & Hc1).
    destruct (check_dict_encodes f n s2 Hs2) as (d2 & Hd2 & Hc2).
    exists (d1 :: ds1), (d2 :: ds2). simpl.
    rewrite Hd1, Hd2, H1, H2. simpl. split_and!; [done..|].
    constructor; [|done]. intros k. by rewrite Hc1, Hc2.
Qed.

Lemma group_label_same ds1 ds2 di da :
  Forall2 dict_same ds1 ds2 →
  group_label (GList (SDict <$> ds1)) di da
  = group_label (GList (SDict <$> ds2)) di da.
Proof.
  intros Hds. unfold group_label. simpl.
  rewrite !seq_getitem_nat, !list_lookup_fmap.
  destruct (ds1 !! di) as [d1|] eqn:H1.
  - destruct (Forall2_lookup_l _ _ _ _ _ Hds H1) as (d2 & -> & Hsame).
    simpl. unfold dict_getitem. by rewrite Hsame.
  - apply Forall2_length in Hds. apply lookup_ge_None in H1.
    rewrite (lookup_ge_None_2 ds2) by lia. done.
Qed.

Lemma same_mappings_rows arr dn vn gs1 gs2 :
  same_mappings (shape arr) gs1 gs2 →
  array2df_rows arr dn (GList gs1) vn = array2df_rows arr dn (GList gs2) vn.
Proof.
  intros Hsame.
  destruct (same_mappings_normalize _ _ _ Hsame) as (ds1 & ds2 & H1 & H2 & Hds).
  pose proof (Forall3_length_lm _ _ _ _ Hsame) as Hlen1.
  pose proof (Forall3_length_lr _ _ _ _ Hsame) as Hlen2.
  eapply array2df_rows_groups_ext.
  - rewrite normalize_groups_list by lia. by rewrite H1.
  - rewrite normalize_groups_list by lia. by rewrite H2.
  - intros di da. by apply group_label_same.
Qed.

(** C5. Specifications that encode, in position-keyed, label-keyed or
    tuple-keyed form, the same position-to-label mapping normalize to the
    same canonical mapping (equal as dictionaries, with the label of every
    position and nothing else), and melting an array with either list of
    encodings gives the same result. *)
Theorem encodings_agree pd arr dn vn gs1 gs2 :
  same_mappings (shape arr) gs1 gs2 →
  Forall3 (fun n s1 s2 =>
             ∃ f d1 d2,
               _check_dict s1 n = Ok (SDict d1) ∧
               _check_dict s2 n = Ok (SDict d2) ∧
               dict_same d1 d2 ∧
               ∀ k, dict_get d1 k = canonical f n k)
          (shape arr) gs1 gs2 ∧
  array2df pd arr dn (GList gs1) vn = array2df pd arr dn (GList gs2) vn.
Proof.
  intros Hsame. split.
  - induction Hsame as [|n s1 s2 sh l1 l2 (f & Hs1 & Hs2) _ IH]; constructor; [|done].
    destruct (check_dict_encodes f n s1 Hs1) as (d1 & Hd1 & Hc1).
    destruct (check_dict_encodes f n s2 Hs2) as (d2 & Hd2 & Hc2).
    exists f, d1, d2. split_and!; [done..| |done].
    intros k. by rewrite Hc1, Hc2.
  - unfold array2df. f_equal. by apply same_mappings_rows.
Qed.

Lemma groups_4x3_same_mappings :
  same_mappings (shape arr_4x3) groups_4x3_a groups_4x3_b.
Proof.
  repeat constructor.
  - exists first_label. split.
    + apply encodes_label.
      * apply (bool_decide_unpack _). reflexivity.
      * simpl. unfold positions. simpl. constructor. apply perm_swap.
      * intros s ps p Hin Hp. elem_cases Hin; elem_cases Hp; by subst.
    + apply encodes_position.
      * reflexivity.
      * intros p v Hin. elem_cases Hin; reflexivity.
  - exists second_label. split.
    + apply encodes_tuple.
      * apply (bool_decide_unpack _). reflexivity.
      * simpl. unfold positions. simpl. constructor. apply perm_swap.
      * intros t v p Hin Hp. elem_cases Hin; elem_cases Hp; by subst.
    + apply encodes_label.
      * apply (bool_decide_unpack _). reflexivity.
      * simpl. unfold positions. simpl. constructor. apply perm_swap.
      * intros s ps p Hin Hp. elem_cases Hin; elem_cases Hp; by subst.
Defined.

Lemma encodings_agree_witness :
  same_mappings (shape arr_4x3) groups_4x3_a groups_4x3_b ∧
  Forall3 (fun n s1 s2 =>
             ∃ f d1 d2,
               _check_dict s1 n = Ok (SDict d1) ∧
               _check_dict s2 n = Ok (SDict d2) ∧
               dict_same d1 d2 ∧
               ∀ k, dict_get d1 k = canonical f n k)
          (shape arr_4x3) groups_4x3_a groups_4x3_b ∧
  array2df pandas_modern arr_4x3 (NList ["first"; "second"])
    (GList groups_4x3_a) "array_value"
  = array2df pandas_modern arr_4x3 (NList ["first"; "second"])
      (GList groups_4x3_b) "array_value".
Proof.
  split; [exact groups_4x3_same_mappings|].
  apply (encodings_agree pandas_modern arr_4x3 (NList ["first"; "second"])
           "array_value" groups_4x3_a groups_4x3_b).
  exact groups_4x3_same_mappings.
Defined.

(** Both sides of that equation are the table of the docstring. *)
Example array2df_4x3_other_encodings :
  array2df pandas_modern arr_4x3 (NList ["first"; "second"])
    (GList groups_4x3_b) "array_value"
  = array2df pandas_modern arr_4x3 (NList ["first"; "second"])
      groups_4x3 "array_value"
  ∧ ∃ df, array2df pandas_modern arr_4x3 (NList ["first"; "second"])
            groups_4x3 "array_value" = Ok df.
Proof. split; [reflexivity | by eexists]. Qed.

(** ** Purity: what a call does to the store *)

Lemma unchanged_refl σ : unchanged σ σ.
Proof. by intros l o. Qed.

Lemma unchanged_insert σ0 σ l o :
  σ0 !! l = None → unchanged σ0 σ → unchanged σ0 (<[l:=o]> σ).
Proof.
  intros Hl Hσ l' o' Hl'. rewrite lookup_insert_ne; [by apply Hσ|].
  intros ->. congruence.
Qed.

Lemma unchanged_fresh σ0 σ : unchanged σ0 σ → σ0 !! fresh (dom σ) = None.
Proof.
  intros Hσ. destruct (σ0 !! fresh (dom σ)) as [o|] eqn:Hl; [|done].
  apply Hσ in Hl. destruct (is_fresh (dom σ)). apply elem_of_dom. by eexists.
Qed.

Lemma frames_ret {A} σ0 (a : A) (Q : A → Prop) : Q a → frames σ0 (retS a) Q.
Proof. intros HQ σ Hσ. split; [done|]. by intros a' [= <-]. Qed.

Lemma frames_lift {A} σ0 (r : result A) (Q : A → Prop) :
  (∀ a, r = Ok a → Q a) → frames σ0 (lift r) Q.
Proof. intros HQ σ Hσ. split; [done|]. apply HQ. Qed.

Lemma frames_raise {A} σ0 e (Q : A → Prop) : frames σ0 (raise e) Q.
Proof. by apply frames_lift. Qed.

Lemma frames_bind {A B} σ0 (m : M A) (f : A → M B) (P : A → Prop) (Q : B → Prop) :
  frames σ0 m P → (∀ a, P a → frames σ0 (f a) Q) → frames σ0 (bindS m f) Q.
Proof.
  intros Hm Hf σ Hσ. unfold bindS.
  destruct (Hm σ Hσ) as [Hσ' HP]. destruct (m σ) as [σ' [a|e]]; simpl in *.
  - by apply (Hf a (HP a eq_refl)).
  - by split.
Qed.

Lemma frames_seq {A B} σ0 (m : M A) (f : A → M B) (Q : B → Prop) :
  frames σ0 m (fun _ => True) → (∀ a, frames σ0 (f a) Q) →
  frames σ0 (bindS m f) Q.
Proof. intros Hm Hf. eapply frames_bind; [exact Hm|]. intros a _. apply Hf. Qed.

Lemma frames_weaken {A} σ0 (m : M A) (P Q : A → Prop) :
  frames σ0 m P → (∀ a, P a → Q a) → frames σ0 m Q.
Proof.
  intros Hm HPQ σ Hσ. destruct (Hm σ Hσ) as [Hσ' HP]. split; [done|].
  intros a Ha. by apply HPQ, HP.
Qed.

(** An allocation returns a location the initial store does not have. *)
Lemma frames_alloc σ0 o : frames σ0 (alloc o) (fun l => σ0 !! l = None).
Proof.
  intros σ Hσ. unfold alloc. simpl. pose proof (unchanged_fresh σ0 σ Hσ) as Hl.
  split; [by apply unchanged_insert|]. by intros l [= <-].
Qed.

Lemma frames_load σ0 l : frames σ0 (load l) (fun _ => True).
Proof. by intros σ Hσ. Qed.

(** An update in place is harmless on an object that was not there
    initially. *)
Lemma frames_write σ0 l o : σ0 !! l = None → frames σ0 (write l o) (fun _ => True).
Proof. intros Hl σ Hσ. split; [by apply unchanged_insert | done]. Qed.

Lemma frames_forS {A} σ0 (l : list A) (f : A → M unit) :
  (∀ x, frames σ0 (f x) (fun _ => True)) → frames σ0 (forS l f) (fun _ => True).
Proof.
  intros Hf. induction l as [|x l IH]; simpl.
  - by apply frames_ret.
  - by apply frames_seq.
Qed.

Lemma frames_mapS {A B} σ0 (l : list A) (f : A → M B) :
  (∀ x, frames σ0 (f x) (fun _ => True)) → frames σ0 (mapS f l) (fun _ => True).
Proof.
  intros Hf. induction l as [|x l IH]; simpl.
  - by apply frames_ret.
  - apply frames_seq; [apply Hf|]. intros y.
    apply frames_seq; [apply IH|]. intros ys. by apply frames_ret.
Qed.

(** Discharges the frame condition of code that only reads. *)
Ltac frames_read :=
  repeat first
    [ apply frames_load | apply frames_raise
    | apply frames_lift; done
    | apply frames_ret; done
    | apply frames_seq; [|intros ?]
    | match goal with |- frames _ (match ?x with _ => _ end) _ => destruct x end ].


Lemma frames_load_spec σ0 l : frames σ0 (load_spec l) (fun _ => True).
Proof. unfold load_spec. frames_read. Qed.

Lemma frames_load_set σ0 l : frames σ0 (load_set l) (fun _ => True).
Proof. unfold load_set. frames_read. Qed.

Lemma frames_load_array σ0 l : frames σ0 (load_array l) (fun _ => True).
Proof. unfold load_array. frames_read. Qed.

Lemma frames_load_table σ0 l : frames σ0 (load_table l) (fun _ => True).
Proof. unfold load_table. frames_read. Qed.

Lemma frames_dict_getitem_st σ0 l k :
  frames σ0 (dict_getitem_st l k) (fun _ => True).
Proof. unfold dict_getitem_st, load_spec. frames_read. Qed.

Lemma frames_names_getitem_st σ0 l i :
  frames σ0 (names_getitem_st l i) (fun _ => True).
Proof. unfold names_getitem_st, load_names. frames_read. Qed.

Lemma frames_groups_getitem_st σ0 l i :
  frames σ0 (groups_getitem_st l i) (fun _ => True).
Proof. unfold groups_getitem_st. frames_read. Qed.

Lemma frames_groups_dict_getitem σ0 l k :
  frames σ0 (groups_dict_getitem l k) (fun _ => True).
Proof. unfold groups_dict_getitem. frames_read. Qed.

Lemma frames_spec_getitem_st σ0 l i :
  frames σ0 (spec_getitem_st l i) (fun _ => True).
Proof. unfold spec_getitem_st, load_spec. frames_read. Qed.

Lemma frames_getitem_st σ0 l adr : frames σ0 (getitem_st l adr) (fun _ => True).
Proof. unfold getitem_st, load_array. frames_read. Qed.

(** Updates of objects allocated during the call. *)
Lemma frames_dict_setitem_st σ0 l k v :
  σ0 !! l = None → frames σ0 (dict_setitem_st l k v) (fun _ => True).
Proof.
  intros Hl. unfold dict_setitem_st.
  apply frames_seq; [apply frames_load_spec|]. intros [d|s].
  - by apply frames_write.
  - apply frames_raise.
Qed.

Lemma frames_set_add_st σ0 l k :
  σ0 !! l = None → frames σ0 (set_add_st l k) (fun _ => True).
Proof.
  intros Hl. unfold set_add_st.
  apply frames_seq; [apply frames_load_set|]. intros s. by apply frames_write.
Qed.

Lemma frames_loc_set_st σ0 l idx name v :
  σ0 !! l = None → frames σ0 (loc_set_st l idx name v) (fun _ => True).
Proof.
  intros Hl. unfold loc_set_st.
  apply frames_seq; [apply frames_load_table|]. intros t. by apply frames_write.
Qed.

Lemma frames_store_all_st σ0 new_dct seen ms v :
  σ0 !! new_dct = None → σ0 !! seen = None →
  frames σ0 (store_all_st new_dct seen ms v) (fun _ => True).
Proof.
  intros Hd Hs. unfold store_all_st. apply frames_forS. intros m.
  apply frames_seq; [by apply frames_dict_setitem_st|]. intros _.
  by apply frames_set_add_st.
Qed.

(** [_check_dict] writes to the dict and the set it creates, and to nothing
    else; in its last two branches it returns the reference it was given. *)
Lemma frames_check_dict_st σ0 dct dim_len :
  frames σ0 (_check_dict_st dct dim_len) (fun _ => True).
Proof.
  unfold _check_dict_st.
  apply frames_seq; [apply frames_load_spec|]. intros [d|l].
  - destruct (forallb isinstance_str (dict_keys d));
      [|destruct (forallb isinstance_tuple (dict_keys d))].
    + eapply frames_bind; [apply frames_alloc|]. intros vals_set Hset.
      eapply frames_bind; [apply frames_alloc|]. intros new_dct Hdct.
      apply frames_seq.
      { apply frames_forS. intros k.
        apply frames_seq; [apply frames_dict_getitem_st|]. intros v.
        apply frames_seq; [by apply frames_lift|]. intros vals.
        by apply frames_store_all_st. }
      intros _. apply frames_seq; [apply frames_load_set|]. intros seen.
      apply frames_seq; [by apply frames_lift|]. intros _.
      by apply frames_ret.
    + eapply frames_bind; [apply frames_alloc|]. intros new_dct Hdct.
      eapply frames_bind; [apply frames_alloc|]. intros i_set Hset.
      apply frames_seq.
      { apply frames_forS. intros [k val].
        apply frames_seq; [by apply frames_lift|]. intros ks.
        by apply frames_store_all_st. }
      intros _. apply frames_seq; [apply frames_load_set|]. intros seen.
      apply frames_seq; [by apply frames_lift|]. intros _.
      by apply frames_ret.
    + by apply frames_ret.
  - apply frames_seq; [by apply frames_lift|]. intros _. by apply frames_ret.
Qed.

Lemma frames_default_groups_st σ0 sh :
  frames σ0 (default_groups_st sh) (fun _ => True).
Proof.
  unfold default_groups_st. apply frames_seq.
  - apply frames_mapS. intros dim.
    apply frames_seq; [by apply frames_lift|]. intros n.
    apply frames_seq; [by apply frames_lift|]. intros g.
    apply frames_seq; [|intros gl; by apply frames_ret].
    eapply frames_weaken; [apply frames_alloc | done].
  - intros d. eapply frames_weaken; [apply frames_alloc | done].
Qed.

(** Normalization allocates the new container and what [_check_dict]
    allocates; the caller's [groups], if any, is read. *)
Lemma frames_normalize_groups_st σ0 sh gs :
  frames σ0 (normalize_groups_st sh gs) (fun _ => True).
Proof.
  destruct gs as [gs|]; simpl; [|apply frames_default_groups_st].
  apply frames_seq; [apply frames_load|].
  intros [a|s|s|nl|nd|d|l|l|t]; try by apply frames_ret.
  - apply frames_seq.
    + apply frames_mapS. intros dim.
      apply frames_seq; [apply frames_groups_dict_getitem|]. intros g.
      apply frames_seq; [by apply frames_lift|]. intros n.
      apply frames_seq; [apply frames_check_dict_st|]. intros g'.
      by apply frames_ret.
    + intros d'. eapply frames_weaken; [apply frames_alloc | done].
  - apply frames_seq.
    + apply frames_mapS. intros dim.
      apply frames_seq; [apply frames_groups_getitem_st|]. intros g.
      apply frames_seq; [by apply frames_lift|]. intros n.
      apply frames_check_dict_st.
    + intros l'. eapply frames_weaken; [apply frames_alloc | done].
Qed.

(** The main loop writes to the DataFrame only. *)
Lemma frames_fill_rows_st σ0 arr dn gs df sh vn :
  σ0 !! df = None →
  frames σ0 (fill_rows_st arr dn gs df sh vn) (fun _ => True).
Proof.
  intros Hdf. unfold fill_rows_st. apply frames_forS. intros [idx adr].
  apply frames_seq; [apply frames_getitem_st|]. intros x.
  apply frames_seq; [by apply frames_loc_set_st|]. intros _.
  unfold fill_dims_st. apply frames_forS. intros [dim_idx dim_adr].
  apply frames_seq; [apply frames_groups_getitem_st|]. intros g.
  apply frames_seq; [apply frames_spec_getitem_st|]. intros lab.
  apply frames_seq; [apply frames_names_getitem_st|]. intros name.
  by apply frames_loc_set_st.
Qed.

Lemma frames_infer_dtypes_st σ0 pd df :
  frames σ0 (infer_dtypes_st pd df) (fun l => σ0 !! l = None).
Proof.
  unfold infer_dtypes_st.
  apply frames_seq; [apply frames_load_table|]. intros t.
  apply frames_seq; [by apply frames_lift|]. intros t'.
  apply frames_alloc.
Qed.

Lemma frames_array2df_st σ0 pd arr dn gs vn :
  frames σ0 (array2df_st pd arr dn gs vn) (fun l => σ0 !! l = None).
Proof.
  unfold array2df_st.
  apply frames_seq; [apply frames_load_array|]. intros a.
  apply frames_seq.
  { destruct dn as [dn|]; [by apply frames_ret|].
    eapply frames_weaken; [apply frames_alloc | done]. }
  intros dn'. apply frames_seq; [apply frames_normalize_groups_st|]. intros gs'.
  apply frames_seq.
  { apply frames_mapS. intros i. apply frames_names_getitem_st. }
  intros dims. apply frames_seq; [apply frames_load_array|]. intros a'.
  eapply frames_bind; [apply frames_alloc|]. intros df Hdf.
  apply frames_seq; [by apply frames_fill_rows_st|]. intros _.
  apply frames_infer_dtypes_st.
Qed.

Lemma bindS_Ok {A B} (m : M A) (f : A → M B) σ σ' b :
  bindS m f σ = (σ', Ok b) →
  ∃ σ1 a, m σ = (σ1, Ok a) ∧ f a σ1 = (σ', Ok b).
Proof.
  unfold bindS. destruct (m σ) as [σ1 [a|e]]; [|done]. intros H. by exists σ1, a.
Qed.

(** The reference returned is to a DataFrame. *)
Lemma array2df_st_returns_table pd arr dn gs vn σ σ' l :
  array2df_st pd arr dn gs vn σ = (σ', Ok l) →
  ∃ t, σ' !! l = Some (OTable t).
Proof.
  unfold array2df_st. intros H.
  repeat (apply bindS_Ok in H as (? & ? & _ & H)).
  unfold alloc in H. injection H as <- <-. eexists. apply lookup_insert_eq.
Qed.

(** C9. Whatever a call of [array2df] does, succeed or raise, every object
    that existed before it (the array, [dim_names], [groups] and the
    specifications it refers to among them) is the same afterwards, and a
    returned DataFrame is an object that did not exist before. *)
Theorem array2df_pure pd arr dn gs vn σ :
  unchanged σ (array2df_st pd arr dn gs vn σ).1 ∧
  ∀ l, (array2df_st pd arr dn gs vn σ).2 = Ok l →
       σ !! l = None ∧
       ∃ t, (array2df_st pd arr dn gs vn σ).1 !! l = Some (OTable t).
Proof.
  destruct (frames_array2df_st σ pd arr dn gs vn σ (unchanged_refl σ))
    as [Hσ Hl].
  split; [done|]. intros l Hr. split; [by apply Hl|].
  apply (array2df_st_returns_table pd arr dn gs vn σ).
  destruct (array2df_st pd arr dn gs vn σ) as [σ' r]. simpl in *. by subst.
Qed.

(** The second docstring example through references: the call succeeds and
    returns the table of that example. *)
Example array2df_st_4x3 :
  let run := array2df_st pandas_modern 1%positive (Some 2%positive)
               (Some 5%positive) "array_value" store_4x3 in
  ∃ l t, run.2 = Ok l ∧ run.1 !! l = Some (OTable t) ∧
         array2df pandas_modern arr_4x3 (NList ["first"; "second"])
           groups_4x3 "array_value" = Ok t.
Proof. do 2 eexists. split_and!; vm_compute; reflexivity. Qed.

(** ** The store model computes what the value-passing model computes *)

Lemma unchanged_trans σ1 σ2 σ3 :
  unchanged σ1 σ2 → unchanged σ2 σ3 → unchanged σ1 σ3.
Proof. intros H12 H23 l o Hl. by apply H23, H12. Qed.

Lemma unchanged_alloc σ o : unchanged σ (<[fresh (dom σ) := o]> σ).
Proof.
  apply unchanged_insert; [|apply unchanged_refl].
  apply unchanged_fresh, unchanged_refl.
Qed.

Lemma fresh_lookup (σ : store) : σ !! fresh (dom σ) = None.
Proof. apply unchanged_fresh, unchanged_refl. Qed.

Lemma fresh_ne (σ : store) l o : σ !! l = Some o → l ≠ fresh (dom σ).
Proof. intros Hl ->. by rewrite fresh_lookup in Hl. Qed.

Lemma repr_groups_at_unchanged σ σ' g gs :
  unchanged σ σ' → repr_groups_at σ g gs → repr_groups_at σ' g gs.
Proof.
  intros Hσ. destruct gs as [|d|ss|ss]; simpl; [done|..];
    intros (x & Hg & Hall); exists x; (split; [by apply Hσ|]);
    (eapply Forall2_impl; [done|]); simpl.
  - intros [k l] [k' s] [? ?]. split; [done|]. by apply Hσ.
  - intros l s ?. by apply Hσ.
  - intros l s ?. by apply Hσ.
Qed.

(** *** Reads *)

Lemma load_eq σ l o : σ !! l = Some o → load l σ = (σ, Ok o).
Proof. intros H. unfold load. by rewrite H. Qed.

Lemma load_spec_eq σ l s : σ !! l = Some (OSpec s) → load_spec l σ = (σ, Ok s).
Proof. intros H. unfold load_spec, bindS. by rewrite (load_eq _ _ _ H). Qed.

Lemma load_set_eq σ l s : σ !! l = Some (OSet s) → load_set l σ = (σ, Ok s).
Proof. intros H. unfold load_set, bindS. by rewrite (load_eq _ _ _ H). Qed.

Lemma load_array_eq σ l a : σ !! l = Some (OArray a) → load_array l σ = (σ, Ok a).
Proof. intros H. unfold load_array, bindS. by rewrite (load_eq _ _ _ H). Qed.

Lemma load_table_eq σ l t : σ !! l = Some (OTable t) → load_table l σ = (σ, Ok t).
Proof. intros H. unfold load_table, bindS. by rewrite (load_eq _ _ _ H). Qed.

Lemma load_names_eq σ l n :
  σ !! l = names_obj n → is_Some (names_obj n) → load_names l σ = (σ, Ok n).
Proof.
  intros H [o Ho]. rewrite Ho in H. unfold load_names, bindS.
  rewrite (load_eq _ _ _ H). by destruct n; simplify_eq/=.
Qed.

Lemma names_getitem_st_eq σ l n i :
  σ !! l = names_obj n → is_Some (names_obj n) →
  names_getitem_st l i σ = (σ, names_getitem n i).
Proof.
  intros H Hn. unfold names_getitem_st, bindS. by rewrite (load_names_eq _ _ n).
Qed.

Lemma getitem_st_eq σ l a adr :
  σ !! l = Some (OArray a) → getitem_st l adr σ = (σ, getitem a adr).
Proof. intros H. unfold getitem_st, bindS. by rewrite (load_array_eq _ _ a). Qed.

Lemma spec_getitem_st_eq σ l s i :
  σ !! l = Some (OSpec s) → spec_getitem_st l i σ = (σ, spec_getitem s i).
Proof. intros H. unfold spec_getitem_st, bindS. by rewrite (load_spec_eq _ _ s). Qed.

Lemma dict_getitem_st_eq σ l d k :
  σ !! l = Some (OSpec (SDict d)) →
  dict_getitem_st l k σ = (σ, dict_getitem d k).
Proof.
  intros H. unfold dict_getitem_st, bindS. by rewrite (load_spec_eq _ _ (SDict d)).
Qed.

Lemma mapS_read {A B} (f : A → M B) (g : A → result B) l σ :
  (∀ x, f x σ = (σ, g x)) → mapS f l σ = (σ, mapR g l).
Proof.
  intros Hf. induction l as [|x l IH]; simpl; [done|].
  unfold bindS. rewrite Hf. destruct (g x) as [y|e]; simpl; [|done].
  rewrite IH. by destruct (mapR g l).
Qed.

(** *** Loops that update one object of their own *)

(** If every pass of the body takes the store that holds state [s] to the
    store that holds the next state, the loop computes the fold. *)
Lemma forS_local {A S} (inj : S → store) (body : A → M unit)
    (step : S → A → result S) (l : list A) :
  (∀ x s, x ∈ l →
     match step s x with
     | Ok s' => body x (inj s) = (inj s', Ok tt)
     | Err e => ∃ s', body x (inj s) = (inj s', Err e)
     end) →
  ∀ s, match foldR step s l with
       | Ok s' => forS l body (inj s) = (inj s', Ok tt)
       | Err e => ∃ s', forS l body (inj s) = (inj s', Err e)
       end.
Proof.
  induction l as [|x l IH]; intros Hbody s; simpl; [done|].
  specialize (Hbody x s) as Hx. unfold bindS.
  destruct (step s x) as [s1|e]; simpl.
  - rewrite Hx by left. apply IH. intros y s' Hy. apply Hbody. by right.
  - destruct Hx as [s' ->]; [by left|]. by exists s'.
Qed.

Lemma foldR_ext {A S} (f g : S → A → result S) l s :
  (∀ s x, f s x = g s x) → foldR f s l = foldR g s l.
Proof.
  intros Hfg. revert s. induction l as [|x l IH]; intros s; simpl; [done|].
  rewrite Hfg. destruct (g s x); simpl; [apply IH | done].
Qed.

Lemma with_acc_lookup_dct σ nd sn acc :
  nd ≠ sn → with_acc σ nd sn acc !! nd = Some (OSpec (SDict acc.1)).
Proof.
  intros Hne. unfold with_acc.
  rewrite lookup_insert_ne by done. apply lookup_insert_eq.
Qed.

Lemma with_acc_lookup_set σ nd sn acc :
  with_acc σ nd sn acc !! sn = Some (OSet acc.2).
Proof. unfold with_acc. apply lookup_insert_eq. Qed.

Lemma with_acc_lookup_other σ nd sn acc l :
  l ≠ nd → l ≠ sn → with_acc σ nd sn acc !! l = σ !! l.
Proof. intros ??. unfold with_acc. by rewrite !lookup_insert_ne. Qed.

(** One [new_dct[m] = v; seen.add(m)]. *)
Lemma store_one_st σ nd sn acc m v :
  nd ≠ sn →
  (_ <~ dict_setitem_st nd m v ;; set_add_st sn m) (with_acc σ nd sn acc)
  = (with_acc σ nd sn (dict_set acc.1 m v, set_add acc.2 m), Ok tt).
Proof.
  intros Hne. unfold bindS at 1. unfold dict_setitem_st, bindS at 1.
  rewrite (load_spec_eq _ _ _ (with_acc_lookup_dct σ nd sn acc Hne)).
  unfold write at 1. unfold set_add_st, bindS.
  erewrite load_set_eq.
  2:{ rewrite lookup_insert_ne by done. apply with_acc_lookup_set. }
  unfold write. f_equal. unfold with_acc. apply map_eq. intros l.
  rewrite !lookup_insert. by repeat case_decide.
Qed.

Lemma store_all_st_run σ nd sn ms v : ∀ acc,
  nd ≠ sn →
  store_all_st nd sn ms v (with_acc σ nd sn acc)
  = (with_acc σ nd sn (store_all acc ms v), Ok tt).
Proof.
  intros acc Hne. unfold store_all_st, store_all.
  pose proof (forS_local (with_acc σ nd sn)
                (fun m => _ <~ dict_setitem_st nd m v ;; set_add_st sn m)
                (fun '(new_dct, seen) m =>
                   Ok (dict_set new_dct m v, set_add seen m)) ms) as Hloop.
  assert (∀ l acc0,
            foldR (fun '(new_dct, seen) (m : key) =>
                     Ok (dict_set new_dct m v, set_add seen m)) acc0 l
            = Ok (foldl (fun '(new_dct, seen) m =>
                           (dict_set new_dct m v, set_add seen m)) acc0 l))
    as Hfold.
  { induction l as [|m l IH]; intros [d s]; simpl; [done | apply IH]. }
  specialize (Hloop ltac:(by intros m [d s] _; apply store_one_st) acc).
  by rewrite Hfold in Hloop.
Qed.

(** The loops of [_check_dict] over a dict and a set of their own: the
    entries are read from [σ], each one gives members and a value or
    raises. *)
Lemma check_loop_st {A} σ nd sn (W : A → result (list key * value))
    (body : A → M unit) (l : list A) :
  nd ≠ sn →
  (∀ x acc, body x (with_acc σ nd sn acc) =
     match W x with
     | Ok w => store_all_st nd sn w.1 w.2 (with_acc σ nd sn acc)
     | Err e => (with_acc σ nd sn acc, Err e)
     end) →
  ∀ acc,
    match foldR (fun acc x => w <- W x ;; Ok (store_all acc w.1 w.2)) acc l with
    | Ok acc' => forS l body (with_acc σ nd sn acc)
                 = (with_acc σ nd sn acc', Ok tt)
    | Err e => ∃ acc', forS l body (with_acc σ nd sn acc)
                       = (with_acc σ nd sn acc', Err e)
    end.
Proof.
  intros Hne Hbody. apply forS_local. intros x acc _. rewrite Hbody.
  destruct (W x) as [w|e]; simpl; [by apply store_all_st_run | by eexists].
Qed.

Lemma bindS_run {A B} (m : M A) (f : A → M B) σ σ' a :
  m σ = (σ', Ok a) → bindS m f σ = f a σ'.
Proof. intros H. unfold bindS. by rewrite H. Qed.

Lemma bindS_fail {A B} (m : M A) (f : A → M B) σ σ' e :
  m σ = (σ', Err e) → bindS m f σ = (σ', Err e).
Proof. intros H. unfold bindS. by rewrite H. Qed.

Lemma bindS_alloc {B} o (f : loc → M B) σ :
  bindS (alloc o) f σ = f (fresh (dom σ)) (<[fresh (dom σ) := o]> σ).
Proof. done. Qed.

Lemma bindS_read {A B} (m : M A) (f : A → M B) σ r :
  m σ = (σ, r) →
  bindS m f σ = match r with Ok a => f a σ | Err e => (σ, Err e) end.
Proof. intros H. unfold bindS. rewrite H. by destruct r. Qed.

Lemma bindS_lift {A B} (r : result A) (f : A → M B) σ :
  bindS (lift r) f σ = match r with Ok a => f a σ | Err e => (σ, Err e) end.
Proof. by destruct r. Qed.

(** The tail of both dictionary branches: compare the size of the set. *)
Lemma check_dict_st_finish σ nd sn acc dim_len :
  nd ≠ sn →
  same_outcome repr_spec
    ((seen <~ load_set sn ;;
      _ <~ lift (assert (bool_decide (length seen = dim_len))) ;;
      retS nd) (with_acc σ nd sn acc)).1
    ((seen <~ load_set sn ;;
      _ <~ lift (assert (bool_decide (length seen = dim_len))) ;;
      retS nd) (with_acc σ nd sn acc)).2
    (let '(new_dct, seen) := acc in
     _ <- assert (bool_decide (length seen = dim_len)) ;; Ok (SDict new_dct)).
Proof.
  intros Hne. destruct acc as [d s].
  rewrite (bindS_run _ _ _ _ _ (load_set_eq _ _ _ (with_acc_lookup_set σ nd sn (d, s)))).
  rewrite bindS_lift. simpl.
  destruct (bool_decide (length s = dim_len)); simpl; [|done].
  eexists. split; [done|]. by apply (with_acc_lookup_dct σ nd sn (d, s)).
Qed.

Lemma check_dict_st_branch {A} σ nd sn dim_len (W : A → result (list key * value))
    (body : A → M unit) (l : list A) :
  nd ≠ sn →
  (∀ x acc, body x (with_acc σ nd sn acc) =
     match W x with
     | Ok w => store_all_st nd sn w.1 w.2 (with_acc σ nd sn acc)
     | Err e => (with_acc σ nd sn acc, Err e)
     end) →
  let m := (_ <~ forS l body ;;
            seen <~ load_set sn ;;
            _ <~ lift (assert (bool_decide (length seen = dim_len))) ;;
            retS nd) in
  same_outcome repr_spec (m (with_acc σ nd sn ([], []))).1
    (m (with_acc σ nd sn ([], []))).2
    (acc <- foldR (fun acc x => w <- W x ;; Ok (store_all acc w.1 w.2))
                  ([], []) l ;;
     let '(new_dct, seen) := acc in
     _ <- assert (bool_decide (length seen = dim_len)) ;; Ok (SDict new_dct)).
Proof.
  intros Hne Hbody m. subst m.
  pose proof (check_loop_st σ nd sn W body l Hne Hbody ([], [])) as Hloop.
  destruct (foldR _ _ l) as [acc'|e]; simpl.
  - rewrite (bindS_run _ _ _ _ _ Hloop). by apply check_dict_st_finish.
  - destruct Hloop as [acc' Hloop]. by rewrite (bindS_fail _ _ _ _ _ Hloop).
Qed.

(** [_check_dict] through references: the same verdict, and on success a
    reference to the normalized specification. *)
Lemma check_dict_st_refines σ dct s n :
  σ !! dct = Some (OSpec s) →
  unchanged σ (_check_dict_st dct n σ).1 ∧
  same_outcome repr_spec (_check_dict_st dct n σ).1 (_check_dict_st dct n σ).2
    (_check_dict s n).
Proof.
  intros Hdct. split.
  { apply (frames_check_dict_st σ dct n σ), unchanged_refl. }
  unfold _check_dict_st.
  rewrite (bindS_run _ _ _ _ _ (load_spec_eq _ _ _ Hdct)).
  destruct s as [d|l]; simpl.
  - destruct (forallb isinstance_str (dict_keys d));
      [|destruct (forallb isinstance_tuple (dict_keys d))].
    + rewrite !bindS_alloc.
      set (sn := fresh (dom σ)). set (σ1 := <[sn := OSet []]> σ).
      set (nd := fresh (dom σ1)).
      assert (nd ≠ sn) as Hne.
      { symmetry. apply (fresh_ne σ1 sn (OSet [])). apply lookup_insert_eq. }
      assert (dct ≠ sn) as Hds by by eapply fresh_ne.
      assert (dct ≠ nd) as Hdn.
      { apply (fresh_ne σ1 dct (OSpec (SDict d))).
        unfold σ1. by rewrite lookup_insert_ne. }
      replace (<[nd := OSpec (SDict [])]> σ1) with (with_acc σ nd sn ([], [])).
      2:{ unfold with_acc, σ1. simpl. apply map_eq. intros l.
          rewrite !lookup_insert. repeat case_decide; by subst. }
      rewrite (foldR_ext _
                 (fun acc k =>
                    w <- (v <- dict_getitem d k ;; vals <- iter_value v ;;
                          Ok (vals, VKey k)) ;;
                    Ok (store_all acc w.1 w.2))).
      2:{ intros acc k. destruct (dict_getitem d k) as [v|]; simpl; [|done].
          by destruct (iter_value v). }
      apply (check_dict_st_branch σ nd sn n
               (fun k => v <- dict_getitem d k ;; vals <- iter_value v ;;
                         Ok (vals, VKey k))); [done|].
      intros k acc.
      assert (with_acc σ nd sn acc !! dct = Some (OSpec (SDict d))) as Hacc
        by by rewrite with_acc_lookup_other.
      rewrite (bindS_read _ _ _ _ (dict_getitem_st_eq _ dct d k Hacc)).
      destruct (dict_getitem d k) as [v|e]; simpl; [|done].
      rewrite bindS_lift. by destruct (iter_value v).
    + rewrite !bindS_alloc.
      set (nd := fresh (dom σ)). set (σ1 := <[nd := OSpec (SDict [])]> σ).
      set (sn := fresh (dom σ1)).
      assert (nd ≠ sn) as Hne.
      { apply (fresh_ne σ1 nd (OSpec (SDict []))). apply lookup_insert_eq. }
      change (<[sn := OSet []]> σ1) with (with_acc σ nd sn ([], [])).
      rewrite (foldR_ext _
                 (fun acc (x : key * value) =>
                    w <- (ks <- iter_key x.1 ;; Ok (ks, x.2)) ;;
                    Ok (store_all acc w.1 w.2))).
      2:{ intros acc [k v]. simpl. by destruct (iter_key k). }
      apply (check_dict_st_branch σ nd sn n
               (fun x : key * value => ks <- iter_key x.1 ;; Ok (ks, x.2)));
        [done|].
      intros [k v] acc.
      rewrite bindS_lift. simpl. by destruct (iter_key k).
    + eexists. split; [done|]. exact Hdct.
  - rewrite bindS_lift.
    destruct (bool_decide (length l = n)); simpl; [|done].
    eexists. split; [done|]. exact Hdct.
Qed.

(** *** Comprehensions whose elements allocate *)

Lemma mapS_refines {A B C} (f : A → M B) (g : A → result C)
    (R : store → B → C → Prop) (P : store → Prop) (l : list A) :
  (∀ σ σ' b c, unchanged σ σ' → R σ b c → R σ' b c) →
  (∀ σ σ', unchanged σ σ' → P σ → P σ') →
  (∀ x σ, P σ →
     unchanged σ (f x σ).1 ∧ same_outcome R (f x σ).1 (f x σ).2 (g x)) →
  ∀ σ, P σ →
    unchanged σ (mapS f l σ).1 ∧
    same_outcome (fun σ' => Forall2 (R σ')) (mapS f l σ).1 (mapS f l σ).2
      (mapR g l).
Proof.
  intros HR HP Hf. induction l as [|x l IH]; intros σ Hσ; simpl.
  - split; [apply unchanged_refl|]. by exists [].
  - unfold bindS. destruct (Hf x σ Hσ) as [H1 Hx].
    destruct (f x σ) as [σ1 [b|e]]; simpl in *.
    + destruct Hx as (c & -> & Hbc). simpl.
      destruct (IH σ1 (HP _ _ H1 Hσ)) as [H2 Hl].
      destruct (mapS f l σ1) as [σ2 [bs|e]]; simpl in *.
      * destruct Hl as (cs & -> & Hcs). simpl.
        split; [by eapply unchanged_trans|].
        exists (c :: cs). split; [done|]. constructor; [by eapply HR | done].
      * rewrite Hl. simpl. split; [by eapply unchanged_trans | done].
    + rewrite Hx. by split.
Qed.

Lemma repr_spec_unchanged σ σ' l s :
  unchanged σ σ' → repr_spec σ l s → repr_spec σ' l s.
Proof. intros Hσ. apply Hσ. Qed.

Lemma repr_entry_unchanged σ σ' x y :
  unchanged σ σ' → repr_entry σ x y → repr_entry σ' x y.
Proof. intros Hσ [? ?]. split; [done | by apply Hσ]. Qed.

Lemma repr_entries_keys σ (dl : pydict loc) (d : pydict spec) :
  Forall2 (repr_entry σ) dl d → dict_keys dl = dict_keys d.
Proof.
  unfold dict_keys. induction 1 as [|[k l] [k' s] dl d [Hk _] _ IH]; [done|].
  simpl in Hk. subst k'. cbn [fmap list_fmap fst]. f_equal. exact IH.
Qed.

Lemma repr_entries_getitem σ (dl : pydict loc) (d : pydict spec) k :
  Forall2 (repr_entry σ) dl d →
  same_outcome repr_spec σ (dict_getitem dl k) (dict_getitem d k).
Proof.
  unfold dict_getitem.
  induction 1 as [|[k1 l] [k2 s] dl d [Hk Hl] _ IH]; simpl in *; [done|].
  subst k2. destruct (decide (k1 = k)); [|done]. simpl. eauto.
Qed.

Lemma repr_specs_getitem σ (ls : list loc) (ss : list spec) (i : nat) :
  Forall2 (repr_spec σ) ls ss →
  same_outcome repr_spec σ (seq_getitem ls (Z.of_nat i))
    (seq_getitem ss (Z.of_nat i)).
Proof.
  intros Hall. rewrite !seq_getitem_nat.
  destruct (ls !! i) as [l|] eqn:Hl.
  - destruct (Forall2_lookup_l _ _ _ _ _ Hall Hl) as (s & -> & Hs). simpl. eauto.
  - apply Forall2_length in Hall. apply lookup_ge_None in Hl.
    rewrite (lookup_ge_None_2 ss) by lia. done.
Qed.

Lemma default_groups_st_refines σ sh :
  unchanged σ (default_groups_st sh σ).1 ∧
  same_outcome repr_groups_at (default_groups_st sh σ).1
    (default_groups_st sh σ).2 (default_groups sh).
Proof.
  unfold default_groups_st, default_groups.
  set (f := fun dim : nat => bindS (lift (seq_getitem sh (Z.of_nat dim))) _).
  set (g := fun dim : nat => bind (seq_getitem sh (Z.of_nat dim)) _).
  destruct (mapS_refines f g repr_entry (fun _ => True) (range (length sh))
              repr_entry_unchanged ltac:(done)) with (σ := σ) as [H1 Hd];
    [|done|].
  { intros dim τ _. unfold f, g. rewrite bindS_lift.
    destruct (seq_getitem sh (Z.of_nat dim)) as [n|e]; simpl;
      [|split; [apply unchanged_refl | done]].
    rewrite bindS_lift. destruct (mapR _ (range n)) as [inner|e]; simpl;
      [|split; [apply unchanged_refl | done]].
    split; [apply unchanged_alloc|].
    eexists. split; [done|]. split; [done|]. apply lookup_insert_eq. }
  unfold bindS. destruct (mapS f (range (length sh)) σ) as [σ1 [d|e]]; simpl in *.
  - destruct Hd as (cs & -> & Hcs). simpl.
    split; [eapply unchanged_trans; [done | apply unchanged_alloc]|].
    eexists. split; [done|]. exists d. split; [apply lookup_insert_eq|].
    eapply Forall2_impl; [done|]. intros x y.
    apply repr_entry_unchanged, unchanged_alloc.
  - rewrite Hd. by split.
Qed.

Lemma groups_dict_getitem_eq σ gl dl k :
  σ !! gl = Some (OGroupsDict dl) →
  groups_dict_getitem gl k σ = (σ, dict_getitem dl k).
Proof.
  intros H. unfold groups_dict_getitem. by rewrite (bindS_run _ _ _ _ _ (load_eq _ _ _ H)).
Qed.

Lemma groups_getitem_st_dict_eq σ gl dl (i : nat) :
  σ !! gl = Some (OGroupsDict dl) →
  groups_getitem_st gl i σ = (σ, dict_getitem dl (KInt (Z.of_nat i))).
Proof.
  intros H. unfold groups_getitem_st. by rewrite (bindS_run _ _ _ _ _ (load_eq _ _ _ H)).
Qed.

Lemma groups_getitem_st_list_eq σ gl ls (i : nat) :
  σ !! gl = Some (OGroupsList ls) →
  groups_getitem_st gl i σ = (σ, seq_getitem ls (Z.of_nat i)).
Proof.
  intros H. unfold groups_getitem_st. by rewrite (bindS_run _ _ _ _ _ (load_eq _ _ _ H)).
Qed.

Lemma groups_getitem_st_tuple_eq σ gl ls (i : nat) :
  σ !! gl = Some (OGroupsTuple ls) →
  groups_getitem_st gl i σ = (σ, seq_getitem ls (Z.of_nat i)).
Proof.
  intros H. unfold groups_getitem_st. by rewrite (bindS_run _ _ _ _ _ (load_eq _ _ _ H)).
Qed.

(** Lines 331-340 through references. *)
Lemma normalize_groups_st_refines σ sh gs g :
  repr_groups σ gs g →
  unchanged σ (normalize_groups_st sh gs σ).1 ∧
  same_outcome repr_groups_at (normalize_groups_st sh gs σ).1
    (normalize_groups_st sh gs σ).2 (normalize_groups sh g).
Proof.
  destruct gs as [gl|]; simpl; [|intros ->; apply default_groups_st_refines].
  destruct g as [|d|ss|ss]; simpl; [done|..]; intros (x & Hgl & Hall);
    rewrite (bindS_run _ _ _ _ _ (load_eq _ _ _ Hgl)).
  - (* a dict of specifications *)
    rewrite (repr_entries_keys _ _ _ Hall).
    set (f := fun dim : key => bindS (groups_dict_getitem gl dim) _).
    set (h := fun dim : key => bind (dict_getitem d dim) _).
    destruct (mapS_refines f h repr_entry
                (fun τ => repr_groups_at τ gl (GDict d)) (dict_keys d)
                repr_entry_unchanged
                ltac:(intros τ τ' ??; by apply (repr_groups_at_unchanged τ τ')))
      with (σ := σ) as [H1 Hd]; [|by exists x|].
    { intros dim τ (dl & Hτ & Hdl). unfold f, h.
      rewrite (bindS_read _ _ _ _ (groups_dict_getitem_eq _ _ _ dim Hτ)).
      pose proof (repr_entries_getitem τ dl d dim Hdl) as Hget.
      destruct (dict_getitem dl dim) as [sl|e]; simpl in Hget.
      2:{ rewrite Hget. split; [apply unchanged_refl | done]. }
      destruct Hget as (s & -> & Hs). simpl. rewrite bindS_lift.
      destruct (shape_getitem sh dim) as [n|e]; simpl;
        [|split; [apply unchanged_refl | done]].
      destruct (check_dict_st_refines τ sl s n Hs) as [H1 Hchk].
      unfold bindS.
      destruct (_check_dict_st sl n τ) as [τ' [l'|e]]; simpl in *.
      - destruct Hchk as (s' & -> & Hs'). split; [done|]. simpl. by eexists.
      - rewrite Hchk. by split. }
    unfold bindS. destruct (mapS f (dict_keys d) σ) as [σ1 [d'|e]]; simpl in *.
    + destruct Hd as (cs & -> & Hcs). simpl.
      split; [eapply unchanged_trans; [done | apply unchanged_alloc]|].
      eexists. split; [done|]. exists d'. split; [apply lookup_insert_eq|].
      eapply Forall2_impl; [done|]. intros a b.
      apply repr_entry_unchanged, unchanged_alloc.
    + rewrite Hd. by split.
  - (* a list of specifications *)
    rewrite (Forall2_length _ _ _ Hall).
    set (f := fun dim : nat => bindS (groups_getitem_st gl dim) _).
    set (h := fun dim : nat => bind (seq_getitem ss (Z.of_nat dim)) _).
    destruct (mapS_refines f h repr_spec
                (fun τ => repr_groups_at τ gl (GList ss)) (range (length ss))
                repr_spec_unchanged
                ltac:(intros τ τ' ??; by apply (repr_groups_at_unchanged τ τ')))
      with (σ := σ) as [H1 Hd]; [|by exists x|].
    { intros dim τ (ls & Hτ & Hls). unfold f, h.
      rewrite (bindS_read _ _ _ _ (groups_getitem_st_list_eq _ _ _ dim Hτ)).
      pose proof (repr_specs_getitem τ ls ss dim Hls) as Hget.
      destruct (seq_getitem ls (Z.of_nat dim)) as [sl|e]; simpl in Hget.
      2:{ rewrite Hget. split; [apply unchanged_refl | done]. }
      destruct Hget as (s & -> & Hs). simpl. rewrite bindS_lift.
      destruct (seq_getitem sh (Z.of_nat dim)) as [n|e]; simpl;
        [|split; [apply unchanged_refl | done]].
      by apply check_dict_st_refines. }
    unfold bindS.
    destruct (mapS f (range (length ss)) σ) as [σ1 [l'|e]]; simpl in *.
    + destruct Hd as (cs & -> & Hcs). simpl.
      split; [eapply unchanged_trans; [done | apply unchanged_alloc]|].
      eexists. split; [done|]. exists l'. split; [apply lookup_insert_eq|].
      eapply Forall2_impl; [done|]. intros a b.
      apply repr_spec_unchanged, unchanged_alloc.
    + rewrite Hd. by split.
  - (* any other sequence is passed on *)
    split; [apply unchanged_refl|]. eexists. split; [done|]. by exists x.
Qed.

(** *** The main loop, on the DataFrame it fills *)

Lemma unchanged_with_table σ df t : σ !! df = None → unchanged σ (with_table σ df t).
Proof. intros H. apply unchanged_insert; [done | apply unchanged_refl]. Qed.

Lemma with_table_lookup σ df t : with_table σ df t !! df = Some (OTable t).
Proof. apply lookup_insert_eq. Qed.

Lemma loc_set_st_run σ df t idx name v :
  loc_set_st df idx name v (with_table σ df t)
  = (with_table σ df (loc_set t idx name v), Ok tt).
Proof.
  unfold loc_set_st.
  rewrite (bindS_run _ _ _ _ _ (load_table_eq _ df t (with_table_lookup σ df t))).
  unfold write, with_table. by rewrite insert_insert_eq.
Qed.

(** [groups[dim_idx][dim_adr]] through references. *)
Lemma group_label_st {B} σ gl g di da (K : value → M B) :
  repr_groups_at σ gl g →
  bindS (groups_getitem_st gl di) (fun sl => bindS (spec_getitem_st sl da) K) σ
  = match group_label g di da with
    | Ok lab => K lab σ
    | Err e => (σ, Err e)
    end.
Proof.
  unfold group_label.
  destruct g as [|d|ss|ss]; simpl; [done|..]; intros (x & Hgl & Hall).
  - rewrite (bindS_read _ _ _ _ (groups_getitem_st_dict_eq _ _ _ di Hgl)).
    pose proof (repr_entries_getitem σ x d (KInt (Z.of_nat di)) Hall) as Hget.
    destruct (dict_getitem x _) as [sl|e]; simpl in Hget; [|by rewrite Hget].
    destruct Hget as (s & -> & Hs). simpl.
    by rewrite (bindS_read _ _ _ _ (spec_getitem_st_eq _ _ _ da Hs)).
  - rewrite (bindS_read _ _ _ _ (groups_getitem_st_list_eq _ _ _ di Hgl)).
    pose proof (repr_specs_getitem σ x ss di Hall) as Hget.
    destruct (seq_getitem x _) as [sl|e]; simpl in Hget; [|by rewrite Hget].
    destruct Hget as (s & -> & Hs). simpl.
    by rewrite (bindS_read _ _ _ _ (spec_getitem_st_eq _ _ _ da Hs)).
  - rewrite (bindS_read _ _ _ _ (groups_getitem_st_tuple_eq _ _ _ di Hgl)).
    pose proof (repr_specs_getitem σ x ss di Hall) as Hget.
    destruct (seq_getitem x _) as [sl|e]; simpl in Hget; [|by rewrite Hget].
    destruct Hget as (s & -> & Hs). simpl.
    by rewrite (bindS_read _ _ _ _ (spec_getitem_st_eq _ _ _ da Hs)).
Qed.

Section main_loop.
Variables (σ : store) (arr dnl gl df : loc).
Variables (a : ndarray) (n : names) (g : groups).
Hypothesis Hdf : σ !! df = None.
Hypothesis Harr : σ !! arr = Some (OArray a).
Hypothesis Hdn : σ !! dnl = names_obj n.
Hypothesis Hn : is_Some (names_obj n).
Hypothesis Hg : repr_groups_at σ gl g.

Lemma names_lookup_with_table t : with_table σ df t !! dnl = names_obj n.
Proof.
  pose proof Hdn as H. destruct Hn as [o Ho]. rewrite Ho in H |- *.
  by apply unchanged_with_table.
Qed.

Lemma fill_dims_st_run idx adr t :
  match fill_dims n g idx t adr with
  | Ok t' => fill_dims_st dnl gl df idx adr (with_table σ df t)
             = (with_table σ df t', Ok tt)
  | Err e => ∃ t', fill_dims_st dnl gl df idx adr (with_table σ df t)
                   = (with_table σ df t', Err e)
  end.
Proof.
  unfold fill_dims, fill_dims_st.
  apply (forS_local (with_table σ df)). intros [di da] t0 _.
  rewrite (group_label_st _ gl g).
  2:{ eapply repr_groups_at_unchanged; [|exact Hg]. by apply unchanged_with_table. }
  rewrite <-(bind_assoc (groups_getitem g di) (fun s => spec_getitem s da)).
  fold (group_label g di da).
  destruct (group_label g di da) as [lab|e]; simpl; [|by eexists].
  rewrite (bindS_read _ _ _ _ (names_getitem_st_eq _ dnl n di
             (names_lookup_with_table t0) Hn)).
  destruct (names_getitem n di) as [name|e]; simpl; [|by eexists].
  apply loc_set_st_run.
Qed.

Lemma fill_rows_st_run vn t :
  match fill_rows a n g vn t with
  | Ok t' => fill_rows_st arr dnl gl df (shape a) vn (with_table σ df t)
             = (with_table σ df t', Ok tt)
  | Err e => ∃ t', fill_rows_st arr dnl gl df (shape a) vn (with_table σ df t)
                   = (with_table σ df t', Err e)
  end.
Proof.
  unfold fill_rows, fill_rows_st.
  apply (forS_local (with_table σ df)). intros [idx adr] t0 _.
  rewrite (bindS_read _ _ _ _ (getitem_st_eq _ arr a adr
             ltac:(by apply unchanged_with_table))).
  destruct (getitem a adr) as [x|e]; simpl; [|by eexists].
  rewrite (bindS_run _ _ _ _ _ (loc_set_st_run σ df t0 idx vn (Num x))).
  apply fill_dims_st_run.
Qed.
End main_loop.

Lemma repr_groups_unchanged σ σ' gs g :
  unchanged σ σ' → repr_groups σ gs g → repr_groups σ' gs g.
Proof.
  destruct gs as [gl|]; simpl; [apply repr_groups_at_unchanged | done].
Qed.

Lemma names_obj_unchanged σ σ' l n :
  unchanged σ σ' → is_Some (names_obj n) →
  σ !! l = names_obj n → σ' !! l = names_obj n.
Proof. intros Hσ [o Ho]. rewrite Ho. apply Hσ. Qed.

(** Everything after the defaults of [dim_names], with the names at
    [dnl]. *)
Lemma array2df_st_body pd σ arr dnl gs vn a n g :
  σ !! arr = Some (OArray a) →
  σ !! dnl = names_obj n → is_Some (names_obj n) →
  repr_groups σ gs g →
  let m := (gs <~ normalize_groups_st (shape a) gs ;;
            dims <~ mapS (names_getitem_st dnl) (range (ndim a)) ;;
            a' <~ load_array arr ;;
            df <~ alloc (OTable (DataFrame_new (vn :: dims) (size a'))) ;;
            _ <~ fill_rows_st arr dnl gs df (shape a) vn ;;
            infer_dtypes_st pd df) in
  same_outcome repr_table (m σ).1 (m σ).2
    (df <- (gs <- normalize_groups (shape a) g ;;
            dims <- mapR (names_getitem n) (range (ndim a)) ;;
            fill_rows a n gs vn (DataFrame_new (vn :: dims) (size a))) ;;
     infer_dtypes pd df).
Proof.
  intros Harr Hdn Hn Hg m. subst m.
  destruct (normalize_groups_st_refines σ (shape a) gs g Hg) as [H1 Hnorm].
  destruct (normalize_groups_st (shape a) gs σ) as [σb [gl|e]] eqn:Hrun;
    simpl in H1, Hnorm.
  2:{ rewrite (bindS_fail _ _ _ _ _ Hrun). simpl. by rewrite Hnorm. }
  rewrite (bindS_run _ _ _ _ _ Hrun).
  destruct Hnorm as (g' & -> & Hg'). cbn [bind].
  pose proof (names_obj_unchanged _ _ _ _ H1 Hn Hdn) as Hdn'.
  rewrite (bindS_read _ _ _ _
             (mapS_read _ (names_getitem n) (range (ndim a)) σb
                (fun i => names_getitem_st_eq σb dnl n i Hdn' Hn))).
  destruct (mapR (names_getitem n) (range (ndim a))) as [dims|e];
    cbn [bind]; [|done].
  rewrite (bindS_run _ _ _ _ _ (load_array_eq _ _ _ (H1 _ _ Harr))).
  rewrite bindS_alloc.
  set (df := fresh (dom σb)).
  change (<[df := OTable ?t]> σb) with (with_table σb df t).
  pose proof (fill_rows_st_run σb arr dnl gl df a n g' (fresh_lookup σb)
                (H1 _ _ Harr) Hdn' Hn Hg' vn
                (DataFrame_new (vn :: dims) (size a))) as Hfill.
  destruct (fill_rows a n g' vn _) as [t'|e]; cbn [bind].
  - rewrite (bindS_run _ _ _ _ _ Hfill). unfold infer_dtypes_st.
    rewrite (bindS_run _ _ _ _ _ (load_table_eq _ _ _ (with_table_lookup σb df t'))).
    rewrite bindS_lift.
    destruct (infer_dtypes pd t') as [t''|e]; simpl; [|done].
    exists t''. split; [done|]. apply lookup_insert_eq.
  - destruct Hfill as [t' Hfill]. by rewrite (bindS_fail _ _ _ _ _ Hfill).
Qed.

(** On arguments that a store represents, the store model returns a
    reference to the table of the value-passing model, or raises the same
    exception. *)
Theorem array2df_st_refines pd σ arr dn gs vn a n g :
  σ !! arr = Some (OArray a) → repr_names σ dn n → repr_groups σ gs g →
  same_outcome repr_table (array2df_st pd arr dn gs vn σ).1
    (array2df_st pd arr dn gs vn σ).2 (array2df pd a n g vn).
Proof.
  intros Harr Hdn Hg. unfold array2df_st, array2df, array2df_rows.
  rewrite (bindS_run _ _ _ _ _ (load_array_eq _ _ _ Harr)).
  destruct dn as [dnl|]; simpl in Hdn.
  - destruct Hdn as [Hn Hdn].
    rewrite (bindS_run _ _ _ _ dnl (eq_refl : retS dnl σ = (σ, Ok dnl))).
    replace (match n with NNone => default_dim_names (ndim a) | _ => n end)
      with n by (destruct n; [by destruct Hn | done..]).
    by apply array2df_st_body.
  - subst n. rewrite bindS_alloc.
    apply (array2df_st_body pd _ arr _ gs vn a (default_dim_names (ndim a)) g).
    + rewrite lookup_insert_ne; [done|]. symmetry. by eapply fresh_ne.
    + apply lookup_insert_eq.
    + by eexists.
    + eapply repr_groups_unchanged; [apply unchanged_alloc | done].
Qed.

(** ** Valid encodings melt successfully *)

Lemma enumerate_lookup {A} (l : list A) i x :
  (i, x) ∈ enumerate l → l !! i = Some x.
Proof.
  unfold enumerate. intros Hin.
  apply list_elem_of_lookup_1 in Hin as [j Hj].
  apply lookup_zip_with_Some in Hj as (i' & x' & [= <- <-] & Hi & Hx).
  apply lookup_seq in Hi as [-> ?]. done.
Qed.

Lemma product_elem_bounds sh adr :
  adr ∈ product (range <$> sh) → Forall2 (fun i n => i < n) adr sh.
Proof.
  revert adr. induction sh as [|n sh IH]; intros adr; simpl.
  - intros ->%list_elem_of_singleton. constructor.
  - intros (x & Hadr & Hx)%list_elem_of_bind.
    apply list_elem_of_fmap in Hadr as (adr' & -> & Hadr').
    constructor; [by apply elem_of_range | by apply IH].
Qed.

Lemma ravel_multi_index_Ok sh adr :
  Forall2 (fun i n => i < n) adr sh →
  ∃ off, ravel_multi_index sh adr = Ok off ∧ off < prod_shape sh.
Proof.
  induction 1 as [|i n adr sh Hi _ (off & Hoff & Hlt)]; simpl.
  - exists 0. split; [done | lia].
  - rewrite decide_True by done. rewrite Hoff. simpl.
    eexists. split; [done|]. fold (prod_shape sh). nia.
Qed.

Lemma getitem_Ok arr adr :
  length (data arr) = size arr →
  adr ∈ product (range <$> shape arr) →
  ∃ x, getitem arr adr = Ok x.
Proof.
  intros Hlen Hadr%product_elem_bounds.
  destruct (ravel_multi_index_Ok _ _ Hadr) as (off & Hoff & Hlt).
  unfold getitem. rewrite Hoff. simpl.
  destruct (lookup_lt_is_Some_2 (data arr) off) as [x ->]; [|by eexists].
  rewrite Hlen. exact Hlt.
Qed.

Lemma melt_dims_Ok dn gs cols l : ∀ row,
  (∀ di da, (di, da) ∈ l →
     (∃ lab, group_label gs di da = Ok lab) ∧
     (∃ name, names_getitem dn di = Ok name)) →
  ∃ row', melt_dims dn gs cols row l = Ok row'.
Proof.
  unfold melt_dims. induction l as [|[di da] l IH]; intros row Hl; simpl.
  - by eexists.
  - destruct (Hl di da) as [[lab Hlab] [name Hname]]; [by left|].
    rewrite <-(bind_assoc (groups_getitem gs di) (fun g => spec_getitem g da)).
    fold (group_label gs di da). rewrite Hlab. simpl. rewrite Hname. simpl.
    apply IH. intros di' da' Hin. apply Hl. by right.
Qed.

(** After normalization every position of every dimension has a label. *)
Lemma same_mappings_labels sh gs1 gs2 :
  same_mappings sh gs1 gs2 →
  ∃ gs', normalize_groups sh (GList gs1) = Ok gs' ∧
         ∀ di da n, sh !! di = Some n → da < n →
                    ∃ lab, group_label gs' di da = Ok lab.
Proof.
  intros Hsame.
  pose proof (Forall3_length_lm _ _ _ _ Hsame) as Hlen.
  rewrite normalize_groups_list by lia.
  induction Hsame as [|n s1 s2 sh gs1 gs2 (f & Hs1 & _) Hsame IH]; simpl.
  - eexists. split; [done|]. by intros di da n.
  - destruct (check_dict_encodes f n s1 Hs1) as (d1 & -> & Hc1). simpl.
    destruct IH as (gs' & Hnorm & Hlab); [by simplify_eq/=|].
    apply bind_Ok in Hnorm as (l' & -> & [= <-]). simpl.
    eexists. split; [done|]. intros di da m Hm Hda.
    unfold group_label. cbn [groups_getitem]. rewrite seq_getitem_nat.
    destruct di as [|di]; simpl in Hm.
    + injection Hm as <-. simpl. unfold dict_getitem.
      rewrite Hc1. simpl. rewrite decide_True by lia. by eexists.
    + destruct (Hlab di da m Hm Hda) as [lab Hl]. exists lab.
      revert Hl. unfold group_label. cbn [groups_getitem].
      by rewrite seq_getitem_nat.
Qed.

(** With one valid encoding per dimension, all elements present and a name
    for every dimension, [array2df] returns a table. *)
Lemma same_mappings_melt pd arr dn vn gs1 gs2 dims :
  dtypes_only pd →
  same_mappings (shape arr) gs1 gs2 →
  length (data arr) = size arr →
  mapR (names_getitem
          match dn with NNone => default_dim_names (ndim arr) | _ => dn end)
       (range (ndim arr)) = Ok dims →
  ∃ df, array2df pd arr dn (GList gs1) vn = Ok df ∧
        array2df pd arr dn (GList gs2) vn = Ok df.
Proof.
  intros Hpd Hsame Hdata Hdims.
  rewrite !array2df_dtypes_only by done.
  rewrite <-(same_mappings_rows arr dn vn gs1 gs2 Hsame).
  rewrite array2df_rows_closed.
  destruct (same_mappings_labels _ _ _ Hsame) as (gs' & -> & Hlab).
  cbn zeta. cbn [bind]. rewrite Hdims. cbn [bind].
  destruct (mapR_all_Ok
              (melt_row arr
                 match dn with NNone => default_dim_names (ndim arr) | _ => dn end
                 gs' vn (vn :: dims))
              (product (range <$> shape arr))) as [rs ->];
    [|eexists; split; reflexivity].
  intros adr Hadr. unfold melt_row.
  destruct (getitem_Ok arr adr Hdata Hadr) as [x ->]. simpl.
  apply melt_dims_Ok. intros di da Hin%enumerate_lookup.
  pose proof (product_elem_bounds _ _ Hadr) as Hb.
  destruct (Forall2_lookup_l _ _ _ _ _ Hb Hin) as (n & Hn & Hlt).
  split; [by eapply Hlab|].
  destruct (mapR_lookup _ _ _ di di Hdims) as (name & Hname & _).
  { unfold range. apply lookup_seq_lt. by eapply lookup_lt_Some. }
  by exists name.
Qed.

(** ** The same agreement when [groups] is a dict *)

Lemma mapR_fmap {A B C} (f : B → result C) (h : A → B) l :
  mapR f (h <$> l) = mapR (f ∘ h) l.
Proof.
  induction l as [|x l IH]; [done|].
  cbn [fmap list_fmap mapR compose]. destruct (f (h x)); simpl; [|done].
  by rewrite <-IH.
Qed.

(** The dict comprehension of line 336 over the items of the dict. *)
Lemma normalize_groups_dict sh gd :
  NoDup (dict_keys gd) →
  normalize_groups sh (GDict gd) =
    (d' <- mapR (fun x : key * spec =>
                   n <- shape_getitem sh x.1 ;;
                   g' <- _check_dict x.2 n ;; Ok (x.1, g')) gd ;;
     Ok (GDict d')).
Proof.
  intros Hnd. simpl. f_equal. unfold dict_keys at 1. rewrite mapR_fmap.
  apply mapR_ext. intros [k s] Hin. simpl.
  unfold dict_getitem. by rewrite (dict_get_elem gd k s Hnd Hin).
Qed.

Lemma same_entries_normalize sh gd1 gd2 :
  Forall2 (same_entry sh) gd1 gd2 →
  ∃ d1 d2,
    mapR (fun x : key * spec =>
            n <- shape_getitem sh x.1 ;;
            g' <- _check_dict x.2 n ;; Ok (x.1, g')) gd1 = Ok d1 ∧
    mapR (fun x : key * spec =>
            n <- shape_getitem sh x.1 ;;
            g' <- _check_dict x.2 n ;; Ok (x.1, g')) gd2 = Ok d2 ∧
    Forall2 same_normalized d1 d2.
Proof.
  induction 1 as [|[k1 s1] [k2 s2] gd1 gd2
                    (Hk & d & n & f & Hkd & Hn & Hs1 & Hs2) _
                    (d1 & d2 & H1 & H2 & Hds)].
  - by exists [], [].
  - cbn [fst snd] in Hk, Hkd, Hs1, Hs2. subst k2 k1.
    cbn [mapR fst snd shape_getitem].
    rewrite (seq_getitem_lookup _ _ _ Hn). cbn [bind].
    destruct (check_dict_encodes f n s1 Hs1) as (dd1 & -> & Hc1).
    destruct (check_dict_encodes f n s2 Hs2) as (dd2 & -> & Hc2).
    cbn [bind]. rewrite H1, H2. cbn [bind].
    do 2 eexists. split_and!; [done..|].
    constructor; [|done]. split; [done|]. exists dd1, dd2. split_and!; [done..|].
    intros k. by rewrite Hc1, Hc2.
Qed.

Lemma group_label_same_dict d1 d2 di da :
  Forall2 same_normalized d1 d2 →
  group_label (GDict d1) di da = group_label (GDict d2) di da.
Proof.
  intros Hds. unfold group_label. simpl. unfold dict_getitem.
  induction Hds as [|[k1 s1] [k2 s2] d1 d2
                      (Hk & dd1 & dd2 & H1 & H2 & Hsame) _ IH]; [done|].
  simpl in Hk, H1, H2. subst k2 s1 s2. cbn [dict_get].
  destruct (decide (k1 = KInt (Z.of_nat di))); [|done].
  simpl. unfold dict_getitem. by rewrite Hsame.
Qed.

Lemma same_entries_keys sh gd1 gd2 :
  Forall2 (same_entry sh) gd1 gd2 → dict_keys gd1 = dict_keys gd2.
Proof.
  unfold dict_keys. induction 1 as [|[k1 s1] [k2 s2] gd1 gd2 [Hk _] _ IH]; [done|].
  simpl in Hk. subst k2. cbn [fmap list_fmap fst]. f_equal. exact IH.
Qed.

(** Companion of C5 for [groups] given as a dict of dimensions. *)
Lemma encodings_agree_dict pd arr dn vn gd1 gd2 :
  same_mappings_dict (shape arr) gd1 gd2 →
  array2df pd arr dn (GDict gd1) vn = array2df pd arr dn (GDict gd2) vn.
Proof.
  intros [Hnd Hsame].
  destruct (same_entries_normalize _ _ _ Hsame) as (d1 & d2 & H1 & H2 & Hds).
  unfold array2df. f_equal. eapply array2df_rows_groups_ext.
  - rewrite normalize_groups_dict by done. by rewrite H1.
  - rewrite normalize_groups_dict
      by by rewrite <-(same_entries_keys _ _ _ Hsame).
    by rewrite H2.
  - intros di da. by apply group_label_same_dict.
Qed.

Example array2df_4x3_dict_of_groups :
  array2df pandas_modern arr_4x3 (NList ["first"; "second"])
    (GDict [(KInt 1, tuple_keyed [([0; 2], lbl "abc"); ([1], lbl "d")]%Z);
            (KInt 0, label_keyed [("A", [0; 2]); ("B", [1; 3])]%Z)])
    "array_value"
  = array2df pandas_modern arr_4x3 (NList ["first"; "second"])
      groups_4x3 "array_value".
Proof. reflexivity. Qed.

(** * The other helpers *)

(** ** [extend_slice] *)

(** The result of [extend_slice] on a slice with both ends given, in
    closed form. *)
Lemma extend_slice_ends s e st val maxval minval :
  extend_slice (Slice (Some s) (Some e) st) val maxval minval =
    Returns (Slice
      (Some (if bool_decide (s = minval) then s else Z.max (s - val) minval))
      (Some (if bool_decide (e = maxval) then e else Z.min (e + val) maxval))
      st).
Proof.
  unfold extend_slice. simpl.
  repeat case_bool_decide; simpl; repeat f_equal; lia.
Qed.

(** Whatever the slice and the amount, the new slice does not start before
    [minval] and does not stop after [maxval]; the step is kept. *)
Theorem extend_slice_within_bounds s e st val maxval minval :
  ∃ s' e',
    extend_slice (Slice (Some s) (Some e) st) val maxval minval
      = Returns (Slice (Some s') (Some e') st) ∧
    (minval ≤ s')%Z ∧ (e' ≤ maxval)%Z.
Proof.
  rewrite extend_slice_ends. do 2 eexists. split; [done|].
  repeat case_bool_decide; lia.
Qed.

(** Extending a slice that lies within the bounds by a non-negative amount
    moves the start down by [val] and the stop up by [val], stopping at the
    bounds; the new slice contains the old one. *)
Theorem extend_slice_grows s e st val maxval minval :
  (0 ≤ val)%Z → (minval ≤ s)%Z → (e ≤ maxval)%Z →
  ∃ s' e',
    extend_slice (Slice (Some s) (Some e) st) val maxval minval
      = Returns (Slice (Some s') (Some e') st) ∧
    s' = Z.max (s - val) minval ∧ e' = Z.min (e + val) maxval ∧
    (s' ≤ s)%Z ∧ (e ≤ e')%Z.
Proof.
  intros Hval Hs He. rewrite extend_slice_ends. do 2 eexists. split; [done|].
  repeat case_bool_decide; lia.
Qed.

Lemma extend_slice_grows_witness :
  ∃ s' e',
    extend_slice (Slice (Some 3%Z) (Some 5%Z) None) 4 8 0
      = Returns (Slice (Some s') (Some e') None) ∧
    s' = Z.max (3 - 4) 0 ∧ e' = Z.min (5 + 4) 8 ∧
    (s' ≤ 3)%Z ∧ (5 ≤ e')%Z.
Proof. apply (extend_slice_grows 3 5 None 4 8 0); lia. Defined.

(** Extending by [a] and then by [b] is extending by [a + b], for
    non-negative amounts. *)
Theorem extend_slice_twice slc a b maxval minval :
  (0 ≤ a)%Z → (0 ≤ b)%Z →
  (slc' <-- extend_slice slc a maxval minval ;;
   extend_slice slc' b maxval minval)
  = extend_slice slc (a + b) maxval minval.
Proof.
  intros Ha Hb. destruct slc as [[s|] [e|] st]; try done.
  - rewrite !extend_slice_ends. simpl. rewrite extend_slice_ends.
    repeat f_equal; repeat case_bool_decide; lia.
  - unfold extend_slice. simpl. by repeat case_bool_decide.
Qed.

Lemma extend_slice_twice_witness :
  (slc' <-- extend_slice (Slice (Some 10%Z) (Some 12%Z) (Some 2%Z)) 3 20 0 ;;
   extend_slice slc' 4 20 0)
  = extend_slice (Slice (Some 10%Z) (Some 12%Z) (Some 2%Z)) (3 + 4) 20 0.
Proof. apply extend_slice_twice; lia. Defined.

(** A slice with an open end is not extended: the arithmetic on [None]
    raises. *)
Theorem extend_slice_open_end slc val maxval minval :
  start slc = None ∨ stop slc = None →
  extend_slice slc val maxval minval = Raises (Builtin TypeError).
Proof.
  destruct slc as [[s|] [e|] st]; simpl; intros [?|?]; try done;
    unfold extend_slice; simpl; by repeat case_bool_decide.
Qed.

Lemma extend_slice_open_end_witness :
  extend_slice (Slice None (Some 5%Z) None) 1 10 0 = Raises (Builtin TypeError).
Proof. apply extend_slice_open_end. left. reflexivity. Defined.

(** ** [find_index] and [find_range] *)


Lemma wrap64_int64 z : int64 z → wrap64 z = z.
Proof.
  unfold int64, wrap64. intros Hz.
  rewrite Z.mod_small; lia.
Qed.

Lemma np_abs_sub x v : near64 x v → np_abs (np_sub v x) = Z.abs (v - x).
Proof.
  unfold near64, np_abs, np_sub. intros Hv.
  rewrite (wrap64_int64 (v - x)) by (unfold int64; lia).
  apply wrap64_int64. unfold int64. lia.
Qed.

Lemma argmin_from_spec l : ∀ bi b i,
  (argmin_from bi b i l = bi ∧ Forall (λ y, (b ≤ y)%Z) l) ∨
  (∃ k m, argmin_from bi b i l = i + k ∧ l !! k = Some m ∧ (m < b)%Z ∧
     Forall (λ y, (m ≤ y)%Z) l ∧
     ∀ j y, j < k → l !! j = Some y → (m < y)%Z).
Proof.
  induction l as [|y l IH]; intros bi b i; simpl.
  - left. by split.
  - destruct (decide (y < b)%Z) as [Hlt|Hge].
    + right. destruct (IH i y (S i)) as [[-> Hall]|(k & m & -> & Hk & Hm & Hall & Hfirst)].
      * exists 0, y. split; [lia|]. split; [done|]. split; [done|].
        split; [constructor; [lia|done]|]. intros; lia.
      * exists (S k), m. split; [lia|]. split; [done|]. split; [lia|].
        split; [constructor; [lia|done]|].
        intros [|j] y' Hj Hy'; simpl in Hy'; [naive_solver lia|].
        apply (Hfirst j); [lia|done].
    + destruct (IH bi b (S i)) as [[-> Hall]|(k & m & -> & Hk & Hm & Hall & Hfirst)].
      * left. split; [done|]. constructor; [lia|done].
      * right. exists (S k), m. split; [lia|]. split; [done|]. split; [done|].
        split; [constructor; [lia|done]|].
        intros [|j] y' Hj Hy'; simpl in Hy'; [naive_solver lia|].
        apply (Hfirst j); [lia|done].
Qed.

Lemma np_argmin_spec l :
  l ≠ [] →
  ∃ i m, np_argmin l = Returns i ∧ l !! i = Some m ∧
    (∀ j y, l !! j = Some y → (m ≤ y)%Z) ∧
    (∀ j y, j < i → l !! j = Some y → (m < y)%Z).
Proof.
  destruct l as [|x l]; [done|]. intros _. simpl.
  destruct (argmin_from_spec l 0 x 1)
    as [[-> Hall]|(k & m & -> & Hk & Hm & Hall & Hfirst)].
  - exists 0, x. split; [done|]. split; [done|]. split; [|intros; lia].
    intros [|j] y Hy; simpl in Hy; [naive_solver lia|].
    rewrite Forall_lookup in Hall. by apply (Hall j).
  - exists (S k), m. split; [done|]. split; [done|].
    rewrite Forall_lookup in Hall. split.
    + intros [|j] y Hy; simpl in Hy; [naive_solver lia|]. by apply (Hall j).
    + intros [|j] y Hj Hy; simpl in Hy; [naive_solver lia|].
      apply (Hfirst j); [lia|done].
Qed.

Lemma nearest_spec vec x :
  vec ≠ [] → Forall (near64 x) vec →
  ∃ i, nearest vec x = Returns i ∧ first_nearest vec x i.
Proof.
  intros Hne Hfit. unfold nearest.
  destruct (np_argmin_spec ((λ v, np_abs (np_sub v x)) <$> vec))
    as (i & m & -> & Hi & Hmin & Hfirst).
  { by destruct vec. }
  exists i. split; [done|].
  rewrite Forall_lookup in Hfit.
  rewrite list_lookup_fmap in Hi.
  destruct (vec !! i) as [v|] eqn:Hv; [|done].
  simpl in Hi. injection Hi as <-.
  rewrite np_abs_sub in Hmin, Hfirst by by apply (Hfit i).
  exists v. split; [done|]. split.
  - intros j w Hw. rewrite <- (np_abs_sub x w) by by apply (Hfit j).
    apply (Hmin j). by rewrite list_lookup_fmap, Hw.
  - intros j w Hj Hw. rewrite <- (np_abs_sub x w) by by apply (Hfit j).
    apply (Hfirst j); [done|]. by rewrite list_lookup_fmap, Hw.
Qed.




(** A value that occurs in the vector is found at its first occurrence. *)
Theorem find_index_exact vec x :
  x ∈ vec → Forall (near64 x) vec →
  ∃ i, find_index vec (Scalar x) = Returns [i] ∧
    vec !! i = Some x ∧ ∀ j, j < i → vec !! j ≠ Some x.
Proof.
  intros Hin Hfit. unfold find_index. simpl.
  destruct (nearest_spec vec x) as (i & -> & v & Hv & Hmin & Hfirst); [|done|].
  { intros ->. by apply elem_of_nil in Hin. }
  exists i. split; [done|].
  apply list_elem_of_lookup_1 in Hin as [k Hk].
  specialize (Hmin k x Hk).
  assert (v = x) as -> by lia.
  split; [done|]. intros j Hj Hjx.
  specialize (Hfirst j x Hj Hjx). lia.
Qed.

Lemma find_index_exact_witness :
  ∃ i, find_index [5; 2; 9; 2]%Z (Scalar 2%Z) = Returns [i] ∧
    [5; 2; 9; 2]%Z !! i = Some 2%Z ∧ ∀ j, j < i → [5; 2; 9; 2]%Z !! j ≠ Some 2%Z.
Proof.
  apply (find_index_exact [5; 2; 9; 2]%Z 2%Z).
  - apply elem_of_cons. right. apply elem_of_cons. by left.
  - unfold near64. repeat constructor; lia.
Defined.













(** ** [group] *)

Lemma enumerate_snoc {A} (l : list A) x :
  enumerate (l ++ [x]) = enumerate l ++ [(length l, x)].
Proof.
  unfold enumerate. rewrite length_app. simpl.
  rewrite seq_app. simpl.
  rewrite zip_with_app by by rewrite length_seq. done.
Qed.

Lemma closed_run_snoc p b s e : closed_run p s e → closed_run (p ++ [b]) s e.
Proof.
  intros (Hse & Htrue & Hleft & Hend). split; [done|]. split_and!.
  - intros j Hj. apply lookup_app_l_Some. by apply Htrue.
  - destruct Hleft as [->|Hleft]; [by left|right]. by apply lookup_app_l_Some.
  - by apply lookup_app_l_Some.
Qed.

Lemma closed_run_end p s e : closed_run p s e → e + 1 < length p.
Proof. intros (_ & _ & _ & Hend). by apply lookup_lt_Some in Hend. Qed.

Lemma lookup_snoc_Some {A} (l : list A) x j y :
  (l ++ [x]) !! j = Some y →
  (j < length l ∧ l !! j = Some y) ∨ (j = length l ∧ y = x).
Proof.
  intros H. apply lookup_app_Some in H as [H|[Hj H]].
  - left. split; [by apply lookup_lt_Some in H|done].
  - right. destruct (j - length l) as [|k] eqn:Hk; simpl in H; [|done].
    split; [lia|congruence].
Qed.

Lemma group_inv_step p st b :
  group_inv p st → group_inv (p ++ [b]) (group_step st (length p, b)).
Proof.
  intros (Hclosed & Hopen & Hcover & Hord).
  unfold group_inv, group_step. destruct st as [ing st_i lims]. simpl in *.
  destruct ing, b; simpl.
  - (* inside a group, which goes on *)
    destruct Hopen as (Hlt & Htrue & Hleft & Hgap).
    split_and!; simpl.
    + intros s e Hin. by apply closed_run_snoc, Hclosed.
    + rewrite length_app. simpl. lia.
    + intros j Hj. rewrite length_app in Hj. simpl in Hj.
      destruct (decide (j = length p)) as [->|].
      * by apply list_lookup_middle.
      * apply lookup_app_l_Some, Htrue. lia.
    + destruct Hleft as [->|Hleft]; [by left|right]. by apply lookup_app_l_Some.
    + done.
    + intros j Hj. apply lookup_snoc_Some in Hj as [[_ Hj]|[-> _]].
      * by apply Hcover.
      * right. split; [done|lia].
    + done.
  - (* the group ends *)
    destruct Hopen as (Hlt & Htrue & Hleft & Hgap).
    split_and!; simpl.
    + intros s e Hin. apply elem_of_app in Hin as [Hin|Hin].
      * by apply closed_run_snoc, Hclosed.
      * apply list_elem_of_singleton in Hin as [= -> ->].
        split; [lia|]. split_and!.
        -- intros j Hj. apply lookup_app_l_Some, Htrue. lia.
        -- destruct Hleft as [->|Hleft]; [by left|right].
           by apply lookup_app_l_Some.
        -- replace (length p - 1 + 1) with (length p) by lia.
           by apply list_lookup_middle.
    + right. rewrite length_app. simpl.
      replace (length p + 1 - 1) with (length p) by lia.
      by apply list_lookup_middle.
    + intros j Hj. left. apply lookup_snoc_Some in Hj as [[Hjlt Hj]|[_ ?]]; [|done].
      destruct (Hcover j Hj) as [(s & e & Hin & Hse)|[_ Hsj]].
      * exists s, e. split; [|done]. apply elem_of_app. by left.
      * exists st_i, (length p - 1). split; [|lia].
        apply elem_of_app. right. by apply list_elem_of_singleton.
    + intros i1 i2 g1 g2 Hi H1 H2.
      apply lookup_snoc_Some in H2 as [[Hi2 H2]|[-> ->]].
      * apply lookup_app_Some in H1 as [H1|[Hge _]]; [|lia].
        by apply (Hord i1 i2).
      * apply lookup_app_Some in H1 as [H1|[Hge _]]; [|lia].
        destruct g1 as [s e]. simpl.
        apply (Hgap s e). by eapply list_elem_of_lookup_2.
  - (* a group starts *)
    split_and!; simpl.
    + intros s e Hin. by apply closed_run_snoc, Hclosed.
    + rewrite length_app. simpl. lia.
    + intros j Hj. rewrite length_app in Hj. simpl in Hj.
      replace j with (length p) by lia. by apply list_lookup_middle.
    + destruct Hopen as [Hlen|Hlast]; [by left|right].
      by apply lookup_app_l_Some.
    + intros s e Hin. by apply (closed_run_end p s), Hclosed.
    + intros j Hj. apply lookup_snoc_Some in Hj as [[_ Hj]|[-> _]].
      * destruct (Hcover j Hj) as [?|[? _]]; [by left|done].
      * by right.
    + done.
  - (* outside a group *)
    split_and!; simpl.
    + intros s e Hin. by apply closed_run_snoc, Hclosed.
    + right. rewrite length_app. simpl.
      replace (length p + 1 - 1) with (length p) by lia.
      by apply list_lookup_middle.
    + intros j Hj. apply lookup_snoc_Some in Hj as [[_ Hj]|[_ ?]]; [|done].
      destruct (Hcover j Hj) as [?|[? _]]; [by left|done].
    + done.
Qed.

Lemma group_inv_loop p :
  group_inv p (foldl group_step (GroupState false 0 []) (enumerate p)).
Proof.
  induction p as [|b p IH] using rev_ind.
  - split_and!; simpl.
    + intros s e Hin. by apply elem_of_nil in Hin.
    + by left.
    + intros j Hj. by rewrite lookup_nil in Hj.
    + intros i1 i2 g1 g2 _ H1. by rewrite lookup_nil in H1.
  - rewrite enumerate_snoc, foldl_app. simpl. by apply group_inv_step.
Qed.

(** After a final [False] no group is open. *)
Lemma group_loop_snoc_false p :
  in_grp (foldl group_step (GroupState false 0 [])
            (enumerate (p ++ [false]))) = false.
Proof.
  rewrite enumerate_snoc, foldl_app.
  generalize (foldl group_step (GroupState false 0 []) (enumerate p)).
  by intros [[] ? ?].
Qed.

Lemma group_plain vec return_slice :
  group vec false return_slice =
    let grp := group_loop (truthy <$> (vec ++ [0%Z])) in
    if return_slice then
      Returns (AsSlices ((fun '(s, e) =>
                 Slice (Some (Z.of_nat s)) (Some (Z.of_nat e + 1)%Z) None)
                <$> grp))
    else Returns (Limits grp).
Proof. done. Qed.

Lemma mask_snoc vec : truthy <$> (vec ++ [0%Z]) = (truthy <$> vec) ++ [false].
Proof. by rewrite fmap_app. Qed.

Lemma closed_run_maximal p s e :
  closed_run (p ++ [false]) s e → maximal_run p s e.
Proof.
  intros (Hse & Htrue & Hleft & Hend).
  assert (∀ j, s ≤ j ≤ e → p !! j = Some true) as Htrue'.
  { intros j Hj. specialize (Htrue j Hj).
    by apply lookup_snoc_Some in Htrue as [[_ ?]|[_ ?]]. }
  assert (e < length p) as He.
  { apply (lookup_lt_Some _ _ true), Htrue'. lia. }
  split; [done|]. split; [done|]. split; [done|]. split.
  - destruct Hleft as [->|Hleft]; [by left|right].
    apply lookup_snoc_Some in Hleft as [[_ ?]|[? _]]; [done|lia].
  - intros Hnext.
    assert ((p ++ [false]) !! (e + 1) = Some true) as Hnext'
      by by apply lookup_app_l_Some.
    congruence.
Qed.

(** Without [diff], [group] raises nothing, and every pair [(s, e)] it
    reports is a run of true elements that cannot be extended: the elements
    at [s] to [e] are true, the one before [s] and the one after [e], if
    any, are not. *)
Theorem group_reports_maximal_runs vec :
  ∃ grp, group vec false false = Returns (Limits grp) ∧
    ∀ s e, (s, e) ∈ grp → maximal_run (truthy <$> vec) s e.
Proof.
  rewrite group_plain. simpl. eexists. split; [done|].
  intros s e Hin. apply closed_run_maximal.
  rewrite <- mask_snoc.
  by apply (group_inv_loop (truthy <$> (vec ++ [0%Z]))).
Qed.

(** Without [diff], every true element of the vector lies in one of the
    reported groups. *)
Theorem group_covers_true_elements vec :
  ∃ grp, group vec false false = Returns (Limits grp) ∧
    ∀ j v, vec !! j = Some v → truthy v = true →
      ∃ s e, (s, e) ∈ grp ∧ s ≤ j ≤ e.
Proof.
  rewrite group_plain. simpl. eexists. split; [done|].
  intros j v Hj Hv.
  destruct (group_inv_loop (truthy <$> (vec ++ [0%Z]))) as (_ & _ & Hcover & _).
  destruct (Hcover j) as [?|[Hopen _]]; [|done|].
  - rewrite list_lookup_fmap. erewrite lookup_app_l_Some by done. simpl.
    by rewrite Hv.
  - rewrite mask_snoc, group_loop_snoc_false in Hopen. done.
Qed.

(** Without [diff], the groups are reported from left to right, and between
    two of them lies at least one element that is not true. *)
Theorem group_in_order vec :
  ∃ grp, group vec false false = Returns (Limits grp) ∧
    ∀ i1 i2 s1 e1 s2 e2, i1 < i2 →
      grp !! i1 = Some (s1, e1) → grp !! i2 = Some (s2, e2) →
      e1 + 1 < s2.
Proof.
  rewrite group_plain. simpl. eexists. split; [done|].
  intros i1 i2 s1 e1 s2 e2 Hi H1 H2.
  destruct (group_inv_loop (truthy <$> (vec ++ [0%Z]))) as (_ & _ & _ & Hord).
  apply (Hord i1 i2 (s1, e1) (s2, e2) Hi H1 H2).
Qed.

Lemma group_loop_all_true l : ∀ st,
  Forall (λ x : nat * bool, x.2 = true) l →
  group_lims (foldl group_step st l) = group_lims st.
Proof.
  induction l as [|[i b] l IH]; intros st Hall; [done|].
  apply Forall_cons in Hall as [Hb Hall]. simpl in Hb. subst b.
  simpl. rewrite IH by done.
  destruct st as [[] ? ?]; done.
Qed.

Lemma np_diff_increasing lo hi l :
  (hi - lo < 2 ^ 63)%Z →
  increasing l → Forall (λ v, (lo ≤ v ≤ hi)%Z) l →
  Forall (λ d, (0 < d)%Z) (np_diff l).
Proof.
  intros Hfit.
  induction l as [|x [|y l] IH]; intros Hinc Hbound; [done..|].
  destruct Hinc as [Hxy Hinc].
  apply Forall_cons in Hbound as [Hx Hbound].
  pose proof Hbound as [Hy _]%Forall_cons.
  change (np_diff (x :: y :: l)) with (np_sub y x :: np_diff (y :: l)).
  constructor; [|by apply IH].
  unfold np_sub. rewrite wrap64_int64 by (unfold int64; lia). lia.
Qed.

Lemma foldl_max_last x l :
  increasing (x :: l) → foldl Z.max x l = default x (last l).
Proof.
  revert x. induction l as [|y l IH]; intros x Hinc; [done|].
  destruct Hinc as [Hxy Hinc]. simpl.
  rewrite Z.max_r by lia. rewrite IH by done.
  rewrite last_cons. by destruct (last l).
Qed.

Lemma increasing_snoc l x y :
  increasing (l ++ [x]) → (x < y)%Z → increasing ((l ++ [x]) ++ [y]).
Proof.
  induction l as [|a [|b l] IH]; intros Hinc Hxy.
  - done.
  - simpl in *. naive_solver.
  - destruct Hinc as [Hab Hinc]. split; [done|]. by apply IH.
Qed.

(** With [diff], an increasing vector leaves [group_lims] empty, since the
    last group is never closed; the update of the second column of the
    empty array then raises. *)
Theorem group_diff_increasing vec return_slice :
  vec ≠ [] → increasing vec → Forall small vec →
  group vec true return_slice = Raises (Builtin IndexError).
Proof.
  intros Hne Hinc Hsmall.
  destruct vec as [|x l] using rev_ind; [done|]. clear IHl Hne.
  assert (∃ m, np_max (l ++ [x]) = Returns m ∧ m = x) as (m & Hmax & ->).
  { destruct l as [|a l]; [by eexists|].
    exists (foldl Z.max a (l ++ [x])). split; [done|].
    rewrite foldl_max_last by done. by rewrite last_snoc. }
  assert (small x) as Hx.
  { rewrite Forall_app, Forall_singleton in Hsmall. by destruct Hsmall. }
  assert (np_add x 1 = (x + 1)%Z) as Hadd.
  { unfold np_add. apply wrap64_int64. unfold small, int64 in *. lia. }
  unfold group. rewrite Hmax. simpl. rewrite Hadd.
  assert (Forall (λ d, (0 < d)%Z) (np_diff ((l ++ [x]) ++ [(x + 1)%Z]))) as Hpos.
  { apply (np_diff_increasing (- 2 ^ 62 + 1) (2 ^ 62)); [reflexivity| |].
    - apply increasing_snoc; [done|lia].
    - apply Forall_app. split.
      + eapply Forall_impl; [done|]. unfold small. intros; simpl in *; lia.
      + apply Forall_singleton. unfold small in *. lia. }
  unfold group_loop.
  rewrite group_loop_all_true; [done|].
  apply Forall_forall. intros [i b] Hin. simpl.
  apply enumerate_lookup in Hin. rewrite list_lookup_fmap in Hin.
  destruct (np_diff _ !! i) as [d|] eqn:Hd; [|done].
  simpl in Hin. injection Hin as <-.
  rewrite Forall_lookup in Hpos. apply bool_decide_eq_true. by apply (Hpos i).
Qed.

Lemma group_diff_increasing_witness :
  group [1; 2; 3]%Z true false = Raises (Builtin IndexError).
Proof.
  apply group_diff_increasing.
  - done.
  - simpl. lia.
  - unfold small. repeat constructor; lia.
Defined.

(** ** [subselect_keys] *)

Lemma filter_all {A} (P : A → Prop) `{∀ x, Decision (P x)} (l : list A) :
  Forall P l → filter P l = l.
Proof.
  induction 1 as [|x l Hx Hl IH]; [done|].
  rewrite filter_cons_True by done. by rewrite IH.
Qed.

Lemma filter_ext_elem {A} (P1 P2 : A → Prop)
    `{!∀ x, Decision (P1 x), !∀ x, Decision (P2 x)} (l : list A) :
  (∀ x, x ∈ l → P1 x ↔ P2 x) → filter P1 l = filter P2 l.
Proof.
  induction l as [|a l IH]; intros Hiff; [done|].
  rewrite !filter_cons.
  rewrite IH by (intros x Hx; apply Hiff; by right).
  apply decide_ext, Hiff. by left.
Qed.

Lemma del_loop_Snapshot {V} key ks (m : mapping V) changed :
  del_loop Snapshot key ks m changed
  = Returns (filter (λ x, x.1 ∈ ks → matches key x.1) m).
Proof.
  revert m changed. induction ks as [|k ks IH]; intros m changed; simpl.
  - rewrite filter_all; [done|].
    apply Forall_forall. intros x _ Hin. by apply elem_of_nil in Hin.
  - destruct (matches key k) eqn:Hk; rewrite IH; f_equal.
    + apply list_filter_iff. intros x. split; intros Hx Hin.
      * apply elem_of_cons in Hin as [->|Hin]; [by rewrite Hk|by apply Hx].
      * apply Hx. by right.
    + unfold map_del. rewrite list_filter_filter.
      apply list_filter_iff. intros x. split.
      * intros [Hx Hne] Hin.
        apply elem_of_cons in Hin as [?|Hin]; [done|by apply Hx].
      * intros Hx. split.
        -- intros Hin. apply Hx. by right.
        -- intros Heq. rewrite Heq, Hk in Hx. apply Hx. by left.
Qed.

Lemma del_loop_LiveView {V} key ks (m : mapping V) :
  del_loop LiveView key ks m false
  = if forallb (matches key) ks then Returns m else Raises RuntimeError.
Proof.
  induction ks as [|k ks IH]; simpl; [done|].
  destruct (matches key k); simpl; [done|].
  by destruct ks.
Qed.

Lemma existsb_absent {V} (key : list string) (m : mapping V) :
  existsb (λ k_e, negb (map_in k_e m)) key = true ↔ ∃ k, k ∈ key ∧ k ∉ m.*1.
Proof.
  rewrite existsb_exists. unfold map_in. split.
  - intros (k & Hin%list_elem_of_In & Hk). exists k. split; [done|].
    by apply negb_true_iff, bool_decide_eq_false in Hk.
  - intros (k & Hin & Hk). exists k. split; [by apply list_elem_of_In|].
    by apply negb_true_iff, bool_decide_eq_false.
Qed.

(** [subselect_keys] raises [ValueError] exactly when no key of the mapping
    contains the separator, whatever is asked for; an empty mapping is such
    a mapping. *)
Theorem subselect_keys_ValueError {V} py key (m : mapping V) sep :
  subselect_keys py key m sep = Raises ValueError
  ↔ ∀ k, k ∈ m.*1 → contains sep k = false.
Proof.
  unfold subselect_keys.
  destruct (existsb (contains sep) m.*1) eqn:Hsep.
  - split.
    + destruct (existsb (λ k_e, negb (map_in k_e m)) _); [|done].
      destruct py.
      * rewrite del_loop_Snapshot. simpl. by case_bool_decide.
      * rewrite del_loop_LiveView. destruct (forallb _ _); simpl; [|done].
        by case_bool_decide.
    + intros Hno. apply existsb_exists in Hsep as (k & Hin%list_elem_of_In & Hk).
      by rewrite Hno in Hk.
  - split; [|done]. intros _ k Hin.
    destruct (contains sep k) eqn:Hk; [|done].
    assert (existsb (contains sep) m.*1 = true) as Hex; [|congruence].
    apply existsb_exists. exists k. split; [by apply list_elem_of_In|done].
Qed.

(** The [KeyError] of [subselect_keys] is never raised: it is guarded by
    an empty list of keys, with which the selection is not entered. *)
Theorem subselect_keys_no_KeyError {V} py key (m : mapping V) sep :
  subselect_keys py key m sep ≠ Raises (Builtin KeyError).
Proof.
  unfold subselect_keys.
  destruct (existsb (contains sep) m.*1); [|done].
  destruct (existsb (λ k_e, negb (map_in k_e m)) _) eqn:Habs; [|done].
  assert (match key with OneKey k => [k] | Keys l => l end ≠ []) as Hne.
  { intros Hnil. by rewrite Hnil in Habs. }
  destruct py.
  - rewrite del_loop_Snapshot. simpl. case_bool_decide; [|done].
    by destruct (match key with OneKey k => [k] | Keys l => l end).
  - rewrite del_loop_LiveView. destruct (forallb _ _); simpl; [|done].
    case_bool_decide; [|done].
    by destruct (match key with OneKey k => [k] | Keys l => l end).
Qed.

(** When every requested key is a key of the mapping, the whole mapping is
    returned, the entries that were not asked for included. *)
Theorem subselect_keys_present {V} py key (m : mapping V) sep :
  (∃ k, k ∈ m.*1 ∧ contains sep k = true) →
  (∀ k, k ∈ match key with OneKey k => [k] | Keys l => l end → k ∈ m.*1) →
  subselect_keys py key m sep = Returns m.
Proof.
  intros (k & Hin & Hk) Hall. unfold subselect_keys.
  assert (existsb (contains sep) m.*1 = true) as ->.
  { apply existsb_exists. exists k. split; [by apply list_elem_of_In|done]. }
  destruct (existsb (λ k_e, negb (map_in k_e m)) _) eqn:Habs; [|done].
  apply existsb_absent in Habs as (k' & Hin' & Hk'). destruct Hk'. by apply Hall.
Qed.

Lemma subselect_keys_present_witness :
  subselect_keys LiveView (OneKey "a/x") [("a/x", 1); ("b/y", 2)] "/"
  = Returns [("a/x", 1); ("b/y", 2)].
Proof.
  apply subselect_keys_present.
  - exists "a/x". split; [|done]. by left.
  - intros k Hk. apply list_elem_of_singleton in Hk as ->. by left.
Defined.

(** When some requested key is no key of the mapping, and [keys()] is a
    list, the result holds the entries whose key has all the parts of
    every requested key, in their order. *)
Theorem subselect_keys_selects {V} key (m : mapping V) sep :
  (∃ k, k ∈ m.*1 ∧ contains sep k = true) →
  (∃ k, k ∈ match key with OneKey k => [k] | Keys l => l end ∧ k ∉ m.*1) →
  subselect_keys Snapshot key m sep
  = Returns (filter (λ x,
      matches match key with OneKey k => [k] | Keys l => l end x.1) m).
Proof.
  intros (k & Hin & Hk) Habs. unfold subselect_keys.
  assert (existsb (contains sep) m.*1 = true) as ->.
  { apply existsb_exists. exists k. split; [by apply list_elem_of_In|done]. }
  pose proof Habs as (k' & Hin' & _).
  apply existsb_absent in Habs as ->.
  rewrite del_loop_Snapshot. simpl.
  case_bool_decide as Hlen.
  { destruct (match key with OneKey k => [k] | Keys l => l end); [|done].
    by apply elem_of_nil in Hin'. }
  f_equal. apply filter_ext_elem. intros x Hx. split; [|done].
  intros Hm. apply Hm. apply list_elem_of_fmap. by exists x.
Qed.

Lemma subselect_keys_selects_witness :
  subselect_keys Snapshot (Keys ["a"; "b"])
    [("a/b/c", 1); ("a/c", 2); ("b/a", 3); ("c", 4)] "/"
  = Returns (filter (λ x, matches ["a"; "b"] x.1)
      [("a/b/c", 1); ("a/c", 2); ("b/a", 3); ("c", 4)]).
Proof.
  apply (subselect_keys_selects (Keys ["a"; "b"])).
  - exists "a/b/c". split; [|done]. by left.
  - exists "a". split; [by left|]. apply (bool_decide_unpack _). by vm_compute.
Defined.

(** When some requested key is no key of the mapping, and [keys()] is a
    view of the dict, nothing is selected: the whole mapping is returned if
    every key matches, and the first deletion makes the loop raise
    otherwise. *)
Theorem subselect_keys_live_view {V} key (m : mapping V) sep :
  (∃ k, k ∈ m.*1 ∧ contains sep k = true) →
  (∃ k, k ∈ match key with OneKey k => [k] | Keys l => l end ∧ k ∉ m.*1) →
  subselect_keys LiveView key m sep
  = if forallb (matches match key with OneKey k => [k] | Keys l => l end) m.*1
    then Returns m else Raises RuntimeError.
Proof.
  intros (k & Hin & Hk) Habs. unfold subselect_keys.
  assert (existsb (contains sep) m.*1 = true) as ->.
  { apply existsb_exists. exists k. split; [by apply list_elem_of_In|done]. }
  pose proof Habs as (k' & Hin' & _).
  apply existsb_absent in Habs as ->.
  rewrite del_loop_LiveView.
  destruct (forallb _ _); simpl; [|done].
  case_bool_decide as Hlen; [|done].
  destruct (match key with OneKey k => [k] | Keys l => l end); [|done].
  by apply elem_of_nil in Hin'.
Qed.

Lemma subselect_keys_live_view_witness :
  subselect_keys LiveView (Keys ["a"; "b"])
    [("a/b/c", 1); ("a/c", 2); ("b/a", 3); ("c", 4)] "/"
  = if forallb (matches ["a"; "b"])
         [("a/b/c", 1); ("a/c", 2); ("b/a", 3); ("c", 4)].*1
    then Returns [("a/b/c", 1); ("a/c", 2); ("b/a", 3); ("c", 4)]
    else Raises RuntimeError.
Proof.
  apply (subselect_keys_live_view (Keys ["a"; "b"])).
  - exists "a/b/c". split; [|done]. by left.
  - exists "a". split; [by left|]. apply (bool_decide_unpack _). by vm_compute.
Defined.

(** * More on [array2df] and [_check_dict] *)

(** ** The dimension columns *)

Lemma row_set_lookup cols name v row i :
  row_set cols name v row !! i
  = (c ← cols !! i; x ← row !! i; Some (if decide (c = name) then v else x)).
Proof. unfold row_set. apply lookup_zip_with. Qed.

Lemma enumerate_fst {A} (l : list A) : (enumerate l).*1 = seq 0 (length l).
Proof. unfold enumerate. apply fst_zip. by rewrite length_seq. Qed.

Lemma elem_of_enumerate {A} (l : list A) i x :
  l !! i = Some x → (i, x) ∈ enumerate l.
Proof.
  intros Hi. unfold enumerate. apply (list_elem_of_lookup_2 _ i).
  apply lookup_zip_with_Some. exists i, x. split; [done|]. split; [|done].
  apply lookup_seq. split; [done|]. by eapply lookup_lt_Some.
Qed.

(** A column that no pass of the inner loop writes keeps its cell. *)
Lemma melt_dims_other dn gs cols l i : ∀ row row',
  length row = length cols →
  (∀ di da name, (di, da) ∈ l → names_getitem dn di = Ok name →
                 cols !! i ≠ Some name) →
  melt_dims dn gs cols row l = Ok row' →
  row' !! i = row !! i.
Proof.
  unfold melt_dims.
  induction l as [|[di da] l IH]; intros row row' Hlen Hnames; simpl.
  - by intros [= <-].
  - destruct (groups_getitem gs di) as [g|e]; simpl; [|done].
    destruct (spec_getitem g da) as [lab|e]; simpl; [|done].
    destruct (names_getitem dn di) as [name|e] eqn:Hname; simpl; [|done].
    intros Hrow. rewrite (IH (row_set cols name (Obj lab) row) row').
    + rewrite row_set_lookup.
      destruct (cols !! i) as [c|] eqn:Hc; simpl.
      * destruct (row !! i) as [x|]; simpl; [|done].
        rewrite decide_False; [done|]. intros ->.
        by apply (Hnames di da name); [left|..].
      * symmetry. apply lookup_ge_None. rewrite Hlen.
        by apply lookup_ge_None.
    + by apply row_set_length.
    + intros di' da' name' Hin. apply (Hnames di' da'). by right.
    + exact Hrow.
Qed.

(** With distinct column names, each pass of the inner loop leaves its label
    in the column of its dimension. *)
Lemma melt_dims_written dn gs cols l : ∀ row row',
  NoDup cols → length row = length cols → NoDup l.*1 →
  (∀ di da, (di, da) ∈ l →
     ∃ name, names_getitem dn di = Ok name ∧ cols !! S di = Some name) →
  melt_dims dn gs cols row l = Ok row' →
  ∀ di da, (di, da) ∈ l →
    ∃ lab, group_label gs di da = Ok lab ∧ row' !! S di = Some (Obj lab).
Proof.
  induction l as [|[di da] l IH]; intros row row' Hcols Hlen Hl Hnames Hrow di' da' Hin.
  { by apply elem_of_nil in Hin. }
  cbn [fmap list_fmap fst] in Hl. apply NoDup_cons in Hl as [Hdi Hl].
  unfold melt_dims in Hrow. cbn [foldR] in Hrow.
  destruct (groups_getitem gs di) as [g|e] eqn:Hg; simpl in Hrow; [|done].
  destruct (spec_getitem g da) as [lab|e] eqn:Hlab; simpl in Hrow; [|done].
  destruct (names_getitem dn di) as [name|e] eqn:Hname; simpl in Hrow; [|done].
  fold (melt_dims dn gs cols (row_set cols name (Obj lab) row) l) in Hrow.
  apply elem_of_cons in Hin as [[= -> ->]|Hin].
  - exists lab. split; [unfold group_label; by rewrite Hg|].
    rewrite (melt_dims_other dn gs cols l (S di)
               (row_set cols name (Obj lab) row) row').
    + rewrite row_set_lookup.
      destruct (Hnames di da) as (name' & Hname' & Hcol); [by left|].
      rewrite Hname in Hname'. injection Hname' as <-.
      rewrite Hcol. simpl.
      destruct (lookup_lt_is_Some_2 row (S di)) as [x ->].
      { rewrite Hlen. by eapply lookup_lt_Some. }
      simpl. by rewrite decide_True.
    + by apply row_set_length.
    + intros dj da' name' Hj Hname' Hcol.
      destruct (Hnames dj da') as (name'' & Hname'' & Hcol'); [by right|].
      rewrite Hname' in Hname''. injection Hname'' as <-.
      assert (S di = S dj) as [= ->] by by apply (NoDup_lookup cols _ _ name').
      apply Hdi. apply list_elem_of_fmap. by exists (dj, da').
    + exact Hrow.
  - apply (IH (row_set cols name (Obj lab) row) row'); try done.
    + by apply row_set_length.
    + intros dj da'' Hj. apply (Hnames dj da''). by right.
Qed.

(** The same for the whole row of one multi-index. *)
Lemma melt_row_labels arr dn gs vn dims adr row :
  NoDup (vn :: dims) →
  mapR (names_getitem dn) (range (length adr)) = Ok dims →
  melt_row arr dn gs vn (vn :: dims) adr = Ok row →
  ∀ d a, adr !! d = Some a →
    ∃ lab, group_label gs d a = Ok lab ∧ row !! S d = Some (Obj lab).
Proof.
  intros Hnd Hdims. unfold melt_row. intros (x & _ & Hrow)%bind_Ok d a Hd.
  eapply melt_dims_written; [exact Hnd| | | |exact Hrow|by apply elem_of_enumerate].
  - apply row_set_length. by rewrite length_replicate.
  - rewrite enumerate_fst. apply NoDup_seq.
  - intros di da Hin. apply enumerate_elem in Hin.
    destruct (mapR_lookup _ _ _ di di Hdims) as (name & Hname & Hlook).
    { by apply lookup_seq_lt. }
    by exists name.
Qed.

Lemma unravel_index_length k sh : length (unravel_index k sh) = length sh.
Proof. revert k. induction sh as [|n sh IH]; intros k; simpl; [done|]. by rewrite IH. Qed.

Lemma array2df_rows_labels arr dn gs vn df :
  array2df_rows arr dn gs vn = Ok df →
  NoDup (columns df) →
  ∃ gs', normalize_groups (shape arr) gs = Ok gs' ∧
    ∀ k d, k < prod_shape (shape arr) → d < ndim arr →
      ∃ row a lab,
        rows df !! k = Some row ∧
        unravel_index k (shape arr) !! d = Some a ∧
        group_label gs' d a = Ok lab ∧
        row !! S d = Some (Obj lab).
Proof.
  intros Hdf Hnd.
  rewrite array2df_rows_closed in Hdf. cbn zeta in Hdf.
  apply bind_Ok in Hdf as (gs' & Hgs & Hdf).
  apply bind_Ok in Hdf as (dims & Hdims & Hdf).
  apply bind_Ok in Hdf as (rs & Hrs & [= <-]). cbn [columns rows] in *.
  exists gs'. split; [done|]. intros k d Hk Hd.
  pose proof (product_lookup _ _ Hk) as Hadr.
  destruct (mapR_lookup _ _ _ _ _ Hrs Hadr) as (row & Hrow & Hlook).
  destruct (lookup_lt_is_Some_2 (unravel_index k (shape arr)) d) as [a Ha].
  { by rewrite unravel_index_length. }
  eapply melt_row_labels in Hrow as (lab & Hlab & Hcell); [|done| |exact Ha].
  - by exists row, a, lab.
  - by rewrite unravel_index_length.
Qed.

(** When the column names of the returned table are distinct, row [k] holds
    in the column of dimension [d] the label that the normalized groups
    give to coordinate [d] of the [k]-th multi-index. *)
Theorem array2df_dimension_columns pd arr dn gs vn df :
  keeps_contents pd →
  array2df pd arr dn gs vn = Ok df →
  NoDup (columns df) →
  ∃ gs', normalize_groups (shape arr) gs = Ok gs' ∧
    ∀ k d, k < prod_shape (shape arr) → d < ndim arr →
      ∃ row a lab,
        rows df !! k = Some row ∧
        unravel_index k (shape arr) !! d = Some a ∧
        group_label gs' d a = Ok lab ∧
        row !! S d = Some (Obj lab).
Proof.
  intros Hpd Hdf Hnd. apply (array2df_Ok_rows _ _ _ _ _ _ Hpd) in Hdf.
  by apply (array2df_rows_labels arr dn gs vn).
Qed.

Lemma array2df_dimension_columns_witness :
  ∃ df,
    array2df pandas_modern arr_4x3 (NList ["first"; "second"]) groups_4x3
      "array_value" = Ok df ∧
    ∃ gs', normalize_groups (shape arr_4x3) groups_4x3 = Ok gs' ∧
      ∀ k d, k < prod_shape (shape arr_4x3) → d < ndim arr_4x3 →
        ∃ row a lab,
          rows df !! k = Some row ∧
          unravel_index k (shape arr_4x3) !! d = Some a ∧
          group_label gs' d a = Ok lab ∧
          row !! S d = Some (Obj lab).
Proof.
  eexists. split; [reflexivity|].
  apply (array2df_dimension_columns pandas_modern arr_4x3
           (NList ["first"; "second"]) groups_4x3 "array_value").
  - intros df df' [= <-]. reflexivity.
  - reflexivity.
  - apply (bool_decide_unpack _). by vm_compute.
Defined.

(** ** The defaults, up to eight dimensions *)

Lemma mapR_pure {A B} (f : A → result B) (g : A → B) l :
  (∀ x, x ∈ l → f x = Ok (g x)) → mapR f l = Ok (g <$> l).
Proof.
  induction l as [|x l IH]; intros Hf; [done|].
  cbn [mapR]. rewrite Hf by by left. cbn [bind].
  rewrite IH by (intros y Hy; apply Hf; by right). done.
Qed.

Lemma dict_get_seq {V} (h : nat → V) (s n j : nat) :
  dict_get ((λ i, (KInt (Z.of_nat i), h i)) <$> seq s n) (KInt (Z.of_nat j))
  = if decide (s ≤ j < s + n) then Some (h j) else None.
Proof.
  revert s. induction n as [|n IH]; intros s; simpl.
  - rewrite decide_False; [done|lia].
  - destruct (decide (KInt (Z.of_nat s) = KInt (Z.of_nat j))) as [[= Heq]|Hne].
    + apply Nat2Z.inj in Heq as ->. rewrite decide_True; [done|lia].
    + rewrite IH. assert (s ≠ j) by naive_solver.
      destruct (decide (S s ≤ j < S s + n)), (decide (s ≤ j < s + S n));
        first [done|lia].
Qed.

Lemma dict_get_zip_seq {A V} (h : A → V) (l : list A) (s j : nat) :
  dict_get ((λ '(i, x), (KInt (Z.of_nat i), h x)) <$> zip (seq s (length l)) l)
           (KInt (Z.of_nat (s + j)))
  = h <$> l !! j.
Proof.
  revert s j. induction l as [|x l IH]; intros s j; [done|].
  simpl. destruct (decide (KInt (Z.of_nat s) = KInt (Z.of_nat (s + j)))) as [[= Heq]|Hne].
  - assert (j = 0) as -> by lia. done.
  - destruct j as [|j]; [by rewrite Nat.add_0_r in Hne|].
    replace (s + S j) with (S s + j) by lia. apply IH.
Qed.

Lemma length_dim_letters (n_dim : nat) :
  n_dim ≤ 8 → length (dim_letters n_dim) = n_dim.
Proof. intros Hn. unfold dim_letters. by rewrite length_take_le. Qed.

(** The default names: [dim_] and the letter of the dimension. *)
Lemma default_dim_names_getitem (n_dim d : nat) :
  names_getitem (default_dim_names n_dim) d
  = match dim_letters n_dim !! d with
    | Some l => Ok ("dim_" +:+ l)
    | None => Err KeyError
    end.
Proof.
  unfold names_getitem, default_dim_names, default_dim_names_dict, dict_getitem,
    enumerate.
  pose proof (dict_get_zip_seq (λ l, "dim_" +:+ l) (dim_letters n_dim) 0 d)
    as Hget.
  rewrite Nat.add_0_l in Hget. rewrite Hget.
  by destruct (dim_letters n_dim !! d).
Qed.

Lemma default_dim_names_le_8 (n_dim : nat) :
  n_dim ≤ 8 →
  mapR (names_getitem (default_dim_names n_dim)) (range n_dim)
  = Ok ((λ l, "dim_" +:+ l) <$> dim_letters n_dim).
Proof.
  intros Hn.
  rewrite (mapR_pure _ (λ d, "dim_" +:+ default "" (dim_letters n_dim !! d))).
  - f_equal. apply list_eq. intros i. rewrite !list_lookup_fmap.
    unfold range.
    destruct (decide (i < n_dim)) as [Hi|Hi].
    + rewrite lookup_seq_lt by done. simpl.
      destruct (lookup_lt_is_Some_2 (dim_letters n_dim) i) as [l ->];
        [by rewrite length_dim_letters|done].
    + rewrite lookup_seq_ge by lia.
      rewrite lookup_ge_None_2; [done|]. rewrite length_dim_letters by done. lia.
  - intros d Hd%elem_of_range. rewrite default_dim_names_getitem.
    destruct (lookup_lt_is_Some_2 (dim_letters n_dim) d) as [l ->];
      [by rewrite length_dim_letters|done].
Qed.

(** The default groups: the letter of the dimension and the index. *)
Lemma default_groups_le_8 sh :
  length sh ≤ 8 →
  ∃ gs, default_groups sh = Ok gs ∧
    ∀ d n l a, sh !! d = Some n → dim_letters (length sh) !! d = Some l →
      a < n → group_label gs d a = Ok (lbl (l +:+ str a)).
Proof.
  intros Hlen. unfold default_groups.
  set (letter := λ d, default "" (dim_letters (length sh) !! d)).
  set (inner := λ d : nat,
         (λ i : nat, (KInt (Z.of_nat i), lbl (letter d +:+ str i)))
           <$> seq 0 (default 0 (sh !! d))).
  rewrite (mapR_pure _ (λ d : nat, (KInt (Z.of_nat d), SDict (inner d)))).
  - eexists. split; [done|]. intros d n l a Hd Hl Ha.
    unfold group_label, groups_getitem, dict_getitem, range.
    rewrite (dict_get_seq (λ d, SDict (inner d))).
    rewrite decide_True by (apply lookup_lt_Some in Hd; lia).
    cbn [bind spec_getitem]. unfold dict_getitem, inner.
    rewrite (dict_get_seq (λ i, lbl (letter d +:+ str i))).
    rewrite Hd. simpl. rewrite decide_True by lia.
    unfold letter. by rewrite Hl.
  - intros d Hd%elem_of_range.
    destruct (lookup_lt_is_Some_2 sh d Hd) as [n Hn].
    rewrite (seq_getitem_lookup _ _ _ Hn). cbn [bind].
    destruct (lookup_lt_is_Some_2 (dim_letters (length sh)) d) as [l Hl];
      [by rewrite length_dim_letters|].
    rewrite (mapR_pure _ (λ i : nat, (KInt (Z.of_nat i), lbl (l +:+ str i)))).
    + cbn [bind]. unfold inner, letter, range. by rewrite Hn, Hl.
    + intros i _. by rewrite (seq_getitem_lookup _ _ _ Hl).
Qed.

Lemma NoDup_default_names (n_dim : nat) :
  NoDup ((λ l, "dim_" +:+ l) <$> dim_letters n_dim).
Proof.
  unfold dim_letters. rewrite fmap_take.
  eapply sublist_NoDup; [|apply sublist_take].
  apply (bool_decide_unpack _). by vm_compute.
Qed.

(** With the default names and groups, an array of at most eight dimensions
    that holds all its elements is always melted: the columns are the value
    column and [dim_i], [dim_j], ...; there is one row for each element;
    and, unless the value column has the name of a dimension column, the
    cell of row [k] for dimension [d] is the letter of the dimension
    followed by coordinate [d] of the [k]-th multi-index. *)
Theorem array2df_defaults pd arr vn :
  dtypes_only pd → ndim arr ≤ 8 → length (data arr) = size arr →
  ∃ df,
    array2df pd arr NNone GNone vn = Ok df ∧
    columns df = vn :: ((λ l, "dim_" +:+ l) <$> dim_letters (ndim arr)) ∧
    length (rows df) = size arr ∧
    (vn ∉ tail (columns df) →
     ∀ k d, k < size arr → d < ndim arr →
       ∃ row a l,
         rows df !! k = Some row ∧
         unravel_index k (shape arr) !! d = Some a ∧
         dim_letters (ndim arr) !! d = Some l ∧
         row !! S d = Some (Obj (lbl (l +:+ str a)))).
Proof.
  intros Hpd Hn Hdata.
  destruct (default_groups_le_8 (shape arr) Hn) as (gs' & Hgs & Hlab).
  assert (∃ rs, array2df_rows arr NNone GNone vn
                = Ok {| columns := vn :: ((λ l, "dim_" +:+ l) <$> dim_letters (ndim arr));
                        rows := rs |} ∧
                length rs = size arr) as (rs & Hrows & Hlen).
  { rewrite array2df_rows_closed. cbn zeta. cbn [normalize_groups].
    rewrite Hgs. cbn [bind]. rewrite default_dim_names_le_8 by done. cbn [bind].
    destruct (mapR_all_Ok
                (melt_row arr (default_dim_names (ndim arr)) gs' vn
                   (vn :: ((λ l, "dim_" +:+ l) <$> dim_letters (ndim arr))))
                (product (range <$> shape arr))) as [rs Hrs].
    - intros adr Hadr. unfold melt_row.
      destruct (getitem_Ok arr adr Hdata Hadr) as [x ->]. cbn [bind].
      apply melt_dims_Ok. intros di da Hin%enumerate_lookup.
      pose proof (product_elem_bounds _ _ Hadr) as Hb.
      destruct (Forall2_lookup_l _ _ _ _ _ Hb Hin) as (n & Hdi & Hlt).
      destruct (lookup_lt_is_Some_2 (dim_letters (ndim arr)) di) as [l Hl].
      { rewrite length_dim_letters by done. by eapply lookup_lt_Some. }
      split.
      + eexists. by eapply Hlab.
      + rewrite default_dim_names_getitem, Hl. by eexists.
    - rewrite Hrs. cbn [bind]. eexists. split; [done|].
      by rewrite (mapR_length _ _ _ Hrs), length_product. }
  eexists. split; [by rewrite array2df_dtypes_only|].
  cbn [columns rows tail]. split; [done|]. split; [done|].
  intros Hvn k d Hk Hd.
  destruct (array2df_rows_labels arr NNone GNone vn _ Hrows)
    as (gs'' & Hgs'' & Hcells).
  { cbn [columns]. apply NoDup_cons. split; [done|apply NoDup_default_names]. }
  cbn [normalize_groups] in Hgs''. rewrite Hgs in Hgs''. injection Hgs'' as <-.
  destruct (Hcells k d Hk Hd) as (row & a & lab & Hrow & Ha & Hla & Hcell).
  destruct (lookup_lt_is_Some_2 (dim_letters (ndim arr)) d) as [l Hl].
  { by rewrite length_dim_letters. }
  destruct (lookup_lt_is_Some_2 (shape arr) d Hd) as [n Hdn].
  exists row, a, l. split; [done|]. split; [done|]. split; [done|].
  rewrite (Hlab d n l a Hdn Hl) in Hla.
  - by injection Hla as <-.
  - pose proof (product_lookup _ _ Hk) as Hadr.
    apply list_elem_of_lookup_2, product_elem_bounds in Hadr.
    destruct (Forall2_lookup_l _ _ _ _ _ Hadr Ha) as (n' & Hn' & Hlt).
    by simplify_eq.
Qed.

Lemma array2df_defaults_witness :
  let arr := {| shape := [2; 1; 3]; data := arange 6 |} in
  ∃ df,
    array2df pandas_modern arr NNone GNone "value" = Ok df ∧
    columns df = "value" :: ((λ l, "dim_" +:+ l) <$> dim_letters (ndim arr)) ∧
    length (rows df) = size arr ∧
    ("value" ∉ tail (columns df) →
     ∀ k d, k < size arr → d < ndim arr →
       ∃ row a l,
         rows df !! k = Some row ∧
         unravel_index k (shape arr) !! d = Some a ∧
         dim_letters (ndim arr) !! d = Some l ∧
         row !! S d = Some (Obj (lbl (l +:+ str a)))).
Proof.
  apply (array2df_defaults pandas_modern
           {| shape := [2; 1; 3]; data := arange 6 |} "value").
  - apply pandas_modern_dtypes_only.
  - unfold ndim. simpl. lia.
  - reflexivity.
Defined.

(** ** Overlapping labels *)

Lemma dict_get_foldl_other {V} (asg : list (key * V)) : ∀ d k,
  k ∉ asg.*1 →
  dict_get (foldl (fun d '(m, v) => dict_set d m v) d asg) k = dict_get d k.
Proof.
  induction asg as [|[m v] asg IH]; intros d k Hk; [done|].
  cbn [fmap list_fmap fst] in Hk. apply not_elem_of_cons in Hk as [Hne Hk].
  cbn [foldl]. rewrite IH by done. rewrite dict_get_set.
  by rewrite decide_False by done.
Qed.

Lemma dict_get_foldl_last {V} (asg : list (key * V)) : ∀ d k v,
  (k, v) ∈ asg → (∀ v', (k, v') ∈ asg → v' = v) →
  dict_get (foldl (fun d '(m, v) => dict_set d m v) d asg) k = Some v.
Proof.
  induction asg as [|[m w] asg IH]; intros d k v Hin Hall.
  { by apply elem_of_nil in Hin. }
  cbn [foldl].
  destruct (decide (k ∈ asg.*1)) as [Hlater|Hlater].
  - apply list_elem_of_fmap in Hlater as ([k' v'] & -> & Hin').
    assert (v' = v) as -> by (apply Hall; by right).
    apply IH; [done|]. intros v'' Hv''. apply Hall. by right.
  - rewrite dict_get_foldl_other by done.
    apply elem_of_cons in Hin as [[= <- <-]|Hin].
    + rewrite dict_get_set. by rewrite decide_True.
    + destruct Hlater. apply list_elem_of_fmap. by exists (k, v).
Qed.

(** A position listed under several labels is accepted as long as the
    count of distinct positions fits, and gets the label of the last entry
    that lists it. *)
Theorem check_dict_last_label_wins lk1 s ps lk2 n p s' :
  NoDup (fst <$> (lk1 ++ (s, ps) :: lk2)) →
  p ∈ ps →
  (∀ s2 ps2, (s2, ps2) ∈ lk2 → p ∉ ps2) →
  _check_dict (label_keyed (lk1 ++ (s, ps) :: lk2)) n = Ok s' →
  ∃ d, s' = SDict d ∧ dict_get d (KInt p) = Some (lbl s).
Proof.
  intros Hnd Hp Hlater. rewrite check_dict_label_spec by done.
  case_decide; [|done]. intros [= <-]. eexists. split; [done|].
  rewrite run_writes_eq. cbn [fst].
  unfold label_writes, assignments.
  rewrite fmap_app, bind_app, fmap_cons, bind_cons, !foldl_app.
  rewrite dict_get_foldl_other.
  - apply dict_get_foldl_last.
    + apply list_elem_of_fmap. exists (KInt p). split; [done|].
      apply list_elem_of_fmap. by exists p.
    + by intros v' (m & [= _ ->] & _)%list_elem_of_fmap.
  - intros ([k v] & Hk & Hin)%list_elem_of_fmap. simpl in Hk. subst k.
    apply list_elem_of_bind in Hin as ([ms v'] & Hin & Hws).
    apply list_elem_of_fmap in Hin as (m & [= <- ->] & Hm).
    apply list_elem_of_fmap in Hws as ([s2 ps2] & [= -> ->] & Hlk2).
    apply list_elem_of_fmap in Hm as (p' & [= <-] & Hp').
    by apply (Hlater s2 ps2).
Qed.

Lemma check_dict_last_label_wins_witness :
  ∃ d, _check_dict (label_keyed ([("A", [0; 1]%Z)] ++ ("B", [1; 2]%Z) :: [])) 3
       = Ok (SDict d) ∧
       dict_get d (KInt 1) = Some (lbl "B").
Proof.
  destruct (check_dict_last_label_wins [("A", [0; 1]%Z)] "B" [1; 2]%Z [] 3 1
              (SDict [(KInt 0, lbl "A"); (KInt 1, lbl "B"); (KInt 2, lbl "B")]))
    as (d & Hd & Hget).
  - apply (bool_decide_unpack _). by vm_compute.
  - apply elem_of_cons. by left.
  - intros s2 ps2 Hin. by apply elem_of_nil in Hin.
  - reflexivity.
  - exists d. split; [by rewrite <- Hd|done].
Defined.

(** ** Which object [_check_dict] returns *)

(** A dict with string keys or with tuple keys is answered with a new
    dict; any other dict and any sequence is returned itself, and then the
    store is left as it was. *)
Theorem check_dict_st_result_identity σ dct s n l' :
  σ !! dct = Some (OSpec s) →
  (_check_dict_st dct n σ).2 = Ok l' →
  match s with
  | SDict d =>
      if forallb isinstance_str (dict_keys d)
         || forallb isinstance_tuple (dict_keys d)
      then σ !! l' = None
      else l' = dct ∧ (_check_dict_st dct n σ).1 = σ
  | SSeq _ => l' = dct ∧ (_check_dict_st dct n σ).1 = σ
  end.
Proof.
  intros Hdct. unfold _check_dict_st.
  rewrite (bindS_run _ _ _ _ _ (load_spec_eq _ _ _ Hdct)).
  destruct s as [d|l].
  - destruct (forallb isinstance_str (dict_keys d));
      [|destruct (forallb isinstance_tuple (dict_keys d))]; cbn [orb].
    + intros Hret.
      refine (proj2 ((_ : frames σ _ (fun l' => σ !! l' = None)) σ
                       (unchanged_refl σ)) l' Hret).
      eapply frames_bind; [apply frames_alloc|]. intros vals_set Hset.
      eapply frames_bind; [apply frames_alloc|]. intros new_dct Hnew.
      apply frames_seq.
      { apply frames_forS. intros k.
        apply frames_seq; [apply frames_dict_getitem_st|]. intros v.
        apply frames_seq; [by apply frames_lift|]. intros vals.
        by apply frames_store_all_st. }
      intros _. apply frames_seq; [apply frames_load_set|]. intros seen.
      apply frames_seq; [by apply frames_lift|]. intros _.
      by apply frames_ret.
    + intros Hret.
      refine (proj2 ((_ : frames σ _ (fun l' => σ !! l' = None)) σ
                       (unchanged_refl σ)) l' Hret).
      eapply frames_bind; [apply frames_alloc|]. intros new_dct Hnew.
      eapply frames_bind; [apply frames_alloc|]. intros i_set Hset.
      apply frames_seq.
      { apply frames_forS. intros [k val].
        apply frames_seq; [by apply frames_lift|]. intros ks.
        by apply frames_store_all_st. }
      intros _. apply frames_seq; [apply frames_load_set|]. intros seen.
      apply frames_seq; [by apply frames_lift|]. intros _.
      by apply frames_ret.
    + by intros [= <-].
  - unfold bindS, lift, assert. case_bool_decide; simpl; [|done].
    by intros [= <-].
Qed.

Lemma check_dict_st_result_identity_witness :
  let σ : store := {[ 1%positive := OSpec (label_keyed [("A", [0]%Z)]) ]} in
  ∃ l', (_check_dict_st 1%positive 1 σ).2 = Ok l' ∧ σ !! l' = None.
Proof.
  eexists. split; [vm_compute; reflexivity|].
  apply (check_dict_st_result_identity
           {[ 1%positive := OSpec (label_keyed [("A", [0]%Z)]) ]}
           1%positive (label_keyed [("A", [0]%Z)]) 1);
    vm_compute; reflexivity.
Defined.

(** ** Missing names and empty arrays *)

(** A dimension without a name stops [array2df] before the table is made,
    even when the array has no element: with [IndexError] for a list of
    names, with [KeyError] for a dict. *)
Theorem array2df_missing_dim_name pd arr dn gs vn gs' d :
  dn ≠ NNone →
  normalize_groups (shape arr) gs = Ok gs' →
  d < ndim arr →
  is_Err (names_getitem dn d) →
  array2df pd arr dn gs vn
  = Err (match dn with NList _ => IndexError | _ => KeyError end).
Proof.
  intros Hdn Hgs Hd [e He]. apply array2df_rows_Err.
  unfold array2df_rows. rewrite Hgs. cbn [bind].
  replace (match dn with NNone => default_dim_names (ndim arr) | _ => dn end)
    with dn by by destruct dn.
  rewrite (mapR_first_error _ _
             (match dn with NList _ => IndexError | _ => KeyError end)); [done| |].
  - intros i _. destruct dn as [|l|dd]; [done| |]; simpl.
    + rewrite seq_getitem_nat. destruct (l !! i); eauto.
    + unfold dict_getitem. destruct (dict_get dd _); eauto.
  - apply Exists_exists. exists d. split; [by apply elem_of_range|].
    rewrite He. f_equal. destruct dn as [|l|dd]; [done| |]; simpl in He.
    + rewrite seq_getitem_nat in He. destruct (l !! d); congruence.
    + unfold dict_getitem in He. destruct (dict_get dd _); congruence.
Qed.

Lemma array2df_missing_dim_name_witness :
  array2df pandas_modern arr_2x2 (NList ["rows"]) GNone "value" = Err IndexError.
Proof.
  eapply (array2df_missing_dim_name pandas_modern arr_2x2 (NList ["rows"]) GNone
            "value" _ 1).
  - done.
  - reflexivity.
  - unfold ndim. simpl. lia.
  - by eexists.
Defined.

(** An array with a dimension of length 0 gives a table without rows: the
    array and the labels of the groups are never read. *)
Theorem array2df_empty_array pd arr dn gs vn gs' dims :
  dtypes_only pd →
  size arr = 0 →
  normalize_groups (shape arr) gs = Ok gs' →
  mapR (names_getitem
          match dn with NNone => default_dim_names (ndim arr) | _ => dn end)
       (range (ndim arr)) = Ok dims →
  array2df pd arr dn gs vn = Ok {| columns := vn :: dims; rows := [] |}.
Proof.
  intros Hpd Hsize Hgs Hdims. rewrite array2df_dtypes_only by done.
  rewrite array2df_rows_closed. cbn zeta. rewrite Hgs. cbn [bind].
  rewrite Hdims. cbn [bind].
  assert (product (range <$> shape arr) = []) as ->; [|done].
  apply nil_length_inv. by rewrite length_product.
Qed.

Lemma array2df_empty_array_witness :
  array2df pandas_modern {| shape := [2; 0]; data := [] |}
    (NList ["a"; "b"]) (GList [SSeq [lbl "x"; lbl "y"]; SSeq []]) "value"
  = Ok {| columns := ["value"; "a"; "b"]; rows := [] |}.
Proof.
  apply (array2df_empty_array pandas_modern {| shape := [2; 0]; data := [] |}
           (NList ["a"; "b"]) (GList [SSeq [lbl "x"; lbl "y"]; SSeq []]) "value"
           (GList [SSeq [lbl "x"; lbl "y"]; SSeq []]) ["a"; "b"]).
  - apply pandas_modern_dtypes_only.
  - reflexivity.
  - reflexivity.
  - reflexivity.
Defined.

(** ** Groups given as a tuple *)

Lemma dict_get_label_keyed lk (z : Z) :
  dict_get ((fun '((s, ps) : string * list Z) => (KStr s, ints ps)) <$> lk)
           (KInt z) = None.
Proof.
  induction lk as [|[s ps] lk IH]; [done|].
  cbn [fmap list_fmap dict_get]. destruct (decide (KStr s = KInt z)); done.
Qed.

(** A tuple of group specifications is not normalized. A label-keyed dict
    in it is therefore asked for a position, which is none of its keys: on
    an array with an element the first row already raises. *)
Theorem array2df_tuple_groups_as_is pd arr dn l lk vn dims :
  0 < ndim arr → 0 < size arr → length (data arr) = size arr →
  mapR (names_getitem
          match dn with NNone => default_dim_names (ndim arr) | _ => dn end)
       (range (ndim arr)) = Ok dims →
  l !! 0 = Some (label_keyed lk) →
  array2df pd arr dn (GTuple l) vn = Err KeyError.
Proof.
  intros Hdim Hsize Hdata Hdims Hl. apply array2df_rows_Err.
  rewrite array2df_rows_closed. cbn zeta. cbn [normalize_groups bind].
  rewrite Hdims. cbn [bind].
  pose proof (product_lookup (shape arr) 0 Hsize) as Hadr.
  destruct (product (range <$> shape arr)) as [|adr rest] eqn:Hprod; [done|].
  injection Hadr as ->. cbn [mapR].
  assert (melt_row arr
            match dn with NNone => default_dim_names (ndim arr) | _ => dn end
            (GTuple l) vn (vn :: dims) (unravel_index 0 (shape arr))
          = Err KeyError) as ->; [|done].
  unfold melt_row.
  destruct (getitem_Ok arr (unravel_index 0 (shape arr)) Hdata) as [x ->].
  { rewrite Hprod. by left. }
  cbn [bind]. unfold ndim in Hdim.
  destruct (shape arr) as [|n sh]; [simpl in Hdim; lia|].
  cbn [unravel_index]. unfold enumerate. cbn [length seq zip zip_with].
  unfold melt_dims. cbn [foldR groups_getitem].
  rewrite (seq_getitem_lookup l 0 _ Hl). cbn [bind].
  unfold label_keyed, spec_getitem, dict_getitem.
  by rewrite dict_get_label_keyed.
Qed.

Lemma array2df_tuple_groups_as_is_witness :
  array2df pandas_modern arr_2 (NList ["pos"])
    (GTuple [label_keyed [("A", [0]); ("B", [1])]%Z]) "value"
  = Err KeyError.
Proof.
  apply (array2df_tuple_groups_as_is pandas_modern arr_2 (NList ["pos"])
           [label_keyed [("A", [0]); ("B", [1])]%Z]
           [("A", [0]); ("B", [1])]%Z "value" ["pos"]).
  - unfold ndim. simpl. lia.
  - unfold size. simpl. lia.
  - reflexivity.
  - reflexivity.
  - reflexivity.
Defined.

(** ** The value column is the flattened array *)

Lemma prod_shape_cons n sh : prod_shape (n :: sh) = n * prod_shape sh.
Proof. done. Qed.

Lemma ravel_unravel sh : ∀ k,
  k < prod_shape sh → ravel_multi_index sh (unravel_index k sh) = Ok k.
Proof.
  induction sh as [|n sh IH]; intros k Hk.
  - simpl in *. f_equal. lia.
  - rewrite prod_shape_cons in Hk.
    assert (prod_shape sh ≠ 0) as Hpos by (intros Hz; rewrite Hz in Hk; lia).
    cbn [unravel_index ravel_multi_index].
    rewrite decide_True by (apply Nat.Div0.div_lt_upper_bound; lia).
    rewrite IH by (by apply Nat.mod_upper_bound). cbn [bind]. f_equal.
    rewrite (Nat.div_mod_eq k (prod_shape sh)) at 3. lia.
Qed.

(** Unless a dimension column has the name of the value column, the value
    column of the returned table is the data of the array in C order: row
    [k] holds element [k]. *)
Theorem array2df_value_column_is_ravel pd arr dn gs vn df :
  keeps_contents pd →
  array2df pd arr dn gs vn = Ok df →
  vn ∉ tail (columns df) →
  ∀ k row, rows df !! k = Some row →
    ∃ x, data arr !! k = Some x ∧ row !! 0 = Some (Num x).
Proof.
  intros Hpd Hdf. apply (array2df_Ok_rows _ _ _ _ _ _ Hpd) in Hdf.
  rewrite array2df_rows_closed in Hdf. cbn zeta in Hdf.
  apply bind_Ok in Hdf as (gs' & _ & Hdf).
  apply bind_Ok in Hdf as (dims & Hdims & Hdf).
  apply bind_Ok in Hdf as (rs & Hrs & [= <-]). cbn [columns rows tail].
  intros Hvn k row Hrow.
  assert (k < prod_shape (shape arr)) as Hk.
  { rewrite <- length_product, <- (mapR_length _ _ _ Hrs).
    by eapply lookup_lt_Some. }
  pose proof (product_lookup _ _ Hk) as Hadr.
  destruct (mapR_lookup _ _ _ _ _ Hrs Hadr) as (row' & Hmelt & Hlook).
  rewrite Hrow in Hlook. injection Hlook as <-.
  apply melt_row_value in Hmelt as (x & Hx & H0); [|by rewrite unravel_index_length|done].
  exists x. split; [|done].
  unfold getitem in Hx. rewrite ravel_unravel in Hx by done. cbn [bind] in Hx.
  by destruct (data arr !! k) as [y|]; simplify_eq.
Qed.

Lemma array2df_value_column_is_ravel_witness :
  ∃ x, data arr_2x2 !! 2 = Some x ∧
       [Num 2; Obj (lbl "i1"); Obj (lbl "j0")] !! 0 = Some (Num x).
Proof.
  apply (array2df_value_column_is_ravel pandas_modern arr_2x2 NNone GNone "value"
           {| columns := ["value"; "dim_i"; "dim_j"];
              rows := [[Num 0; Obj (lbl "i0"); Obj (lbl "j0")];
                       [Num 1; Obj (lbl "i0"); Obj (lbl "j1")];
                       [Num 2; Obj (lbl "i1"); Obj (lbl "j0")];
                       [Num 3; Obj (lbl "i1"); Obj (lbl "j1")]]%Z |}
           ltac:(intros df df' [= <-]; reflexivity) eq_refl
           ltac:(apply (bool_decide_unpack _); by vm_compute) 2).
  reflexivity.
Defined.

(** ** [group] with [diff] *)

Lemma np_diff_lookup l : ∀ j,
  np_diff l !! j = (x ← l !! j; y ← l !! S j; Some (np_sub y x)).
Proof.
  induction l as [|x [|y l] IH]; intros j.
  - done.
  - by destruct j.
  - change (np_diff (x :: y :: l)) with (np_sub y x :: np_diff (y :: l)).
    destruct j as [|j]; [done|]. apply IH.
Qed.

Lemma foldl_max_spec l : ∀ x,
  (foldl Z.max x l = x ∨ foldl Z.max x l ∈ l) ∧
  (x ≤ foldl Z.max x l)%Z ∧
  ∀ v, v ∈ l → (v ≤ foldl Z.max x l)%Z.
Proof.
  induction l as [|y l IH]; intros x; simpl.
  - split; [by left|]. split; [lia|]. by intros v ?%elem_of_nil.
  - destruct (IH (Z.max x y)) as (Hin & Hle & Hall). split_and!.
    + destruct Hin as [Heq|Hin]; [|right; by right].
      rewrite Heq. destruct (Z.max_spec x y) as [[_ ->]|[_ ->]];
        [right; by left|by left].
    + lia.
    + intros v [->|Hv]%elem_of_cons; [lia|by apply Hall].
Qed.

Lemma np_max_spec vec m :
  np_max vec = Returns m → m ∈ vec ∧ ∀ v, v ∈ vec → (v ≤ m)%Z.
Proof.
  destruct vec as [|x l]; [done|]. intros [= <-].
  destruct (foldl_max_spec l x) as (Hin & Hle & Hall). split.
  - destruct Hin as [->|Hin]; [by left|by right].
  - intros v [->|Hv]%elem_of_cons; [done|by apply Hall].
Qed.

(** The mask of [diff] mode: position [j] tells whether the vector ascends
    from [j] to [j + 1]; the last position, which compares the last element
    with the appended maximum plus one, always does. *)
Lemma diff_mask_lookup vec m j b :
  Forall small vec → np_max vec = Returns m →
  ((λ d, bool_decide (0 < d)%Z) <$> np_diff (vec ++ [np_add m 1])) !! j = Some b →
  (∃ x y, vec !! j = Some x ∧ vec !! S j = Some y ∧ b = bool_decide (x < y)%Z) ∨
  (S j = length vec ∧ b = true).
Proof.
  intros Hsmall Hmax Hj. rewrite Forall_lookup in Hsmall.
  destruct (np_max_spec vec m Hmax) as [Hm Hle].
  assert (small m) as Hsm.
  { apply list_elem_of_lookup_1 in Hm as [i Hi]. by apply (Hsmall i). }
  rewrite list_lookup_fmap, np_diff_lookup in Hj.
  destruct ((vec ++ [np_add m 1]) !! j) as [x|] eqn:Hx; [|done].
  destruct ((vec ++ [np_add m 1]) !! S j) as [y|] eqn:Hy; [|done].
  simpl in Hj. injection Hj as <-.
  apply lookup_snoc_Some in Hx as [[Hjlt Hx]|[-> _]];
    [|apply lookup_lt_Some in Hy; rewrite length_app in Hy; simpl in Hy; lia].
  pose proof (Hsmall j x Hx) as Hsx.
  apply lookup_snoc_Some in Hy as [[_ Hy]|[Hlen ->]].
  - left. exists x, y. split; [done|]. split; [done|].
    pose proof (Hsmall (S j) y Hy) as Hsy.
    unfold np_sub. rewrite wrap64_int64 by (unfold small, int64 in *; lia).
    apply bool_decide_ext. lia.
  - right. split; [done|].
    assert (x ≤ m)%Z by (apply Hle; by eapply list_elem_of_lookup_2).
    unfold np_sub, np_add.
    rewrite (wrap64_int64 (m + 1)) by (unfold small, int64 in *; lia).
    rewrite wrap64_int64 by (unfold small, int64 in *; lia).
    apply bool_decide_eq_true. lia.
Qed.

Lemma length_np_diff l : length (np_diff l) = length l - 1.
Proof.
  induction l as [|x [|y l] IH]; [done..|].
  change (np_diff (x :: y :: l)) with (np_sub y x :: np_diff (y :: l)).
  cbn [length] in *. lia.
Qed.

(** With [diff], when [group] returns, every pair [(s, e)] bounds a stretch
    on which the vector ascends strictly from each element to the next; it
    does not ascend from [e] to [e + 1], nor into [s]. *)
Theorem group_diff_runs vec grp :
  Forall small vec →
  group vec true false = Returns (Limits grp) →
  ∀ s e, (s, e) ∈ grp →
    s < e ∧
    (∀ j, s ≤ j < e →
       ∃ x y, vec !! j = Some x ∧ vec !! S j = Some y ∧ (x < y)%Z) ∧
    (∃ x y, vec !! e = Some x ∧ vec !! S e = Some y ∧ (y ≤ x)%Z) ∧
    (s = 0 ∨ ∃ x y, vec !! (s - 1) = Some x ∧ vec !! s = Some y ∧ (y ≤ x)%Z).
Proof.
  intros Hsmall. unfold group.
  destruct (np_max vec) as [m|] eqn:Hmax; [|done]. cbn [bindO].
  set (mask := (λ d, bool_decide (0 < d)%Z) <$> np_diff (vec ++ [np_add m 1])).
  assert (length mask = length vec) as Hlen.
  { unfold mask. rewrite length_fmap, length_np_diff, length_app. simpl. lia. }
  pose proof (group_inv_loop mask) as (Hclosed & _).
  fold (group_loop mask) in Hclosed.
  assert (∀ lims, match lims with
                  | [] => Raises (Builtin IndexError)
                  | _ => Returns ((λ '(s, e), (s, e + 1)) <$> lims)
                  end = Returns grp →
                  grp = (λ '(s, e), (s, e + 1)) <$> lims) as Hgrp.
  { intros [|g lims]; [done|]. by intros [= <-]. }
  destruct (match group_loop mask with
            | [] => Raises (Builtin IndexError)
            | _ => Returns ((λ '(s, e), (s, e + 1)) <$> group_loop mask)
            end) as [grp'|] eqn:Hres; [|done].
  cbn [bindO]. intros [= <-]. apply Hgrp in Hres as ->.
  intros s e Hin.
  apply list_elem_of_fmap in Hin as ([s0 e0] & [= -> ->] & Hin).
  destruct (Hclosed s0 e0 Hin) as (Hse & Htrue & Hleft & Hend).
  pose proof (lookup_lt_Some _ _ _ Hend) as Hend_lt. rewrite Hlen in Hend_lt.
  split; [lia|]. split_and!.
  - intros j Hj.
    destruct (diff_mask_lookup vec m j true Hsmall Hmax)
      as [(x & y & Hx & Hy & Hb)|[Hlast _]]; [apply Htrue; lia| |lia].
    exists x, y. split; [done|]. split; [done|].
    symmetry in Hb. by apply bool_decide_eq_true in Hb.
  - destruct (diff_mask_lookup vec m (e0 + 1) false Hsmall Hmax Hend)
      as [(x & y & Hx & Hy & Hb)|[_ ?]]; [|done].
    exists x, y. split; [done|]. split; [done|].
    symmetry in Hb. apply bool_decide_eq_false in Hb. lia.
  - destruct (decide (s0 = 0)) as [->|Hs0]; [by left|right].
    destruct Hleft as [?|Hleft]; [done|].
    destruct (diff_mask_lookup vec m (s0 - 1) false Hsmall Hmax Hleft)
      as [(x & y & Hx & Hy & Hb)|[_ ?]]; [|done].
    exists x, y. split; [done|].
    replace (S (s0 - 1)) with s0 in Hy by lia. split; [done|].
    symmetry in Hb. apply bool_decide_eq_false in Hb. lia.
Qed.

Lemma group_diff_runs_witness :
  0 < 2 ∧
  (∀ j, 0 ≤ j < 2 →
     ∃ x y, [1; 2; 3; 1; 2; 0]%Z !! j = Some x ∧
            [1; 2; 3; 1; 2; 0]%Z !! S j = Some y ∧ (x < y)%Z) ∧
  (∃ x y, [1; 2; 3; 1; 2; 0]%Z !! 2 = Some x ∧
          [1; 2; 3; 1; 2; 0]%Z !! 3 = Some y ∧ (y ≤ x)%Z) ∧
  (0 = 0 ∨ ∃ x y, [1; 2; 3; 1; 2; 0]%Z !! (0 - 1) = Some x ∧
                  [1; 2; 3; 1; 2; 0]%Z !! 0 = Some y ∧ (y ≤ x)%Z).
Proof.
  apply (group_diff_runs [1; 2; 3; 1; 2; 0]%Z [(0, 2); (3, 4)]).
  - unfold small. repeat constructor; lia.
  - reflexivity.
  - by left.
Defined.

(** * The context managers *)

(** When the body ends normally, [silent_mne] has put the log level back to
    what it was before, whatever the body did to it; the body itself ran at
    level [CRITICAL]. *)
Theorem silent_mne_restores_level {A} (body : W A) w a :
  (silent_mne body w).2 = Returns a →
  log_level (silent_mne body w).1 = log_level w ∧
  (body (World CRITICAL (filters w))).2 = Returns a.
Proof.
  unfold silent_mne, bindW, set_log_level, retW. simpl.
  destruct (body _) as [w' [a'|e]]; simpl; [|done].
  by intros [= <-].
Qed.

Lemma silent_mne_restores_level_witness :
  log_level (silent_mne (_ <~~ set_log_level 10 ;; retW tt) (World 20 [])).1 = 20%Z ∧
  ((_ <~~ set_log_level 10 ;; retW tt) (World CRITICAL [])).2 = Returns tt.
Proof.
  apply (silent_mne_restores_level (_ <~~ set_log_level 10 ;; retW tt)
           (World 20 []) tt).
  reflexivity.
Defined.

(** When the body raises, the second [set_log_level] is not reached: the
    exception leaves [silent_mne] with everything as the body left it, so a
    body that does not touch the log level leaves it at [CRITICAL]. *)
Theorem silent_mne_exception_keeps_level {A} (body : W A) w e :
  (silent_mne body w).2 = Raises e →
  silent_mne body w = body (World CRITICAL (filters w)) ∧
  (log_level (body (World CRITICAL (filters w))).1 = CRITICAL →
   log_level (silent_mne body w).1 = CRITICAL).
Proof.
  unfold silent_mne, bindW, set_log_level, retW. simpl.
  destruct (body _) as [w' [a'|e']]; simpl; [done|].
  by intros [= <-].
Qed.

Lemma silent_mne_exception_keeps_level_witness :
  silent_mne (fun w => (w, Raises ValueError)) (World 20 [])
  = (fun w => (w, Raises ValueError) : world * outcome unit) (World CRITICAL []) ∧
  (log_level ((fun w => (w, Raises ValueError) : world * outcome unit)
                (World CRITICAL [])).1 = CRITICAL →
   log_level (silent_mne (fun w => (w, Raises ValueError) : world * outcome unit)
                (World 20 [])).1 = CRITICAL).
Proof.
  apply (silent_mne_exception_keeps_level
           (fun w => (w, Raises ValueError) : world * outcome unit)
           (World 20 []) ValueError).
  reflexivity.
Defined.

(** [silent] leaves the warning filters as they were, whether the body
    returns or raises and whatever filters the body adds; the body runs
    with the ignore-everything filter in front, and its outcome is the
    outcome of [silent]. *)
Theorem silent_restores_filters {A} (body : W A) w :
  filters (silent body w).1 = filters w ∧
  (silent body w).2
  = (body (World (log_level w)
             (IgnoreAll :: remove_first IgnoreAll (filters w)))).2.
Proof.
  unfold silent, catch_warnings, bindW, simplefilter_ignore. simpl.
  by destruct (body _) as [w' r].
Qed.
